(** * Spreadsheet cleaner: a shallow embedding of the validation, correction,
      query, rule-conversion and AHP weighting code, with its properties.

    Source files embedded here:
    - [src/lib/prioritizationEngine.ts]  (modules [Prioritization], [Rounded])
    - [src/lib/aiEngine.ts]              (module [AiEngine])
    - the validator, [src/unnamed/part_003]  (module [Validation])
    - [src/lib/naturalLanguageRuleConverter.ts]  (module [RuleConverter])
    - the page, [src/unnamed/part_002]   (module [Page])

    Conventions of the model.
    - A finite JavaScript number is the rational it denotes, kept in lowest
      terms, and negative zero is identified with zero.  [NaN] and the two
      infinities are values of their own with the IEEE rules for them.  The
      operations of module [Js] are exact.  Module [Ieee] rounds their
      results to binary64: to the nearest double, ties to even, with the
      subnormal numbers and the overflow to an infinity.  Module
      [Prioritization] computes with the exact operations; module [Rounded]
      gives, on the rounded ones, the functions whose weights are quotients
      and sums of fractions, and the properties of these weights are proved
      of [Rounded].
    - A string is a sequence of 8-bit characters; case mapping and the
      character classes of regular expressions are the ASCII ones.
    - A cell of a row holds a scalar (undefined, null, a boolean, a number or
      a string); a row is the ordered list of its properties, read by its own
      keys.
    - An exception is a value: a function that can throw returns a [result].
    - [JSON.parse] and the decimal rendering of a number belong to the host
      and are left open (class [Host]); what is proved holds for every host. *)

From Stdlib Require Import QArith Qabs Qreduction Qround Qcanon Qfield Qpower Lqa.
From Stdlib Require Import Ascii String List Sorted ZArith Lia Bool Floats.
From stdpp Require Import base option list gmap strings pretty.
Import ListNotations.

Local Open Scope string_scope.
Local Open Scope list_scope.

(* ===================================================================== *)
(** * The JavaScript values and built-ins the code relies on *)
(* ===================================================================== *)

Module Js.

(** ** Numbers *)

Inductive number := Fin (q : Q) | PInf | NInf | NaN.

(** A finite number in lowest terms. *)
Definition fin (q : Q) : number := Fin (Qred q).

(** The decimal literal [m * 10^-e], e.g. [decimal 58 2] is [0.58]. *)
Definition decimal (m : Z) (e : nat) : number := fin (m # Pos.of_nat (10 ^ e)).

Definition of_nat (n : nat) : number := Fin (Z.of_nat n # 1).
Definition of_Z (z : Z) : number := Fin (z # 1).

Definition q_sign (q : Q) : comparison := (Qnum q ?= 0)%Z.

Definition num_neg (a : number) : number :=
  match a with
  | Fin q => fin (- q)
  | PInf => NInf
  | NInf => PInf
  | NaN => NaN
  end.

Definition num_add (a b : number) : number :=
  match a, b with
  | NaN, _ | _, NaN => NaN
  | PInf, NInf | NInf, PInf => NaN
  | PInf, _ | _, PInf => PInf
  | NInf, _ | _, NInf => NInf
  | Fin x, Fin y => fin (x + y)
  end.

Definition num_sub (a b : number) : number := num_add a (num_neg b).

(** An infinity of the sign of [c] ([Eq]: the product with zero is NaN). *)
Definition inf_of_sign (c : comparison) : number :=
  match c with Gt => PInf | Lt => NInf | Eq => NaN end.

Definition flip_sign (c : comparison) : comparison := CompOpp c.

Definition num_mul (a b : number) : number :=
  match a, b with
  | NaN, _ | _, NaN => NaN
  | Fin x, Fin y => fin (x * y)
  | PInf, Fin y | Fin y, PInf => inf_of_sign (q_sign y)
  | NInf, Fin y | Fin y, NInf => inf_of_sign (flip_sign (q_sign y))
  | PInf, PInf | NInf, NInf => PInf
  | PInf, NInf | NInf, PInf => NInf
  end.

(** Division.  A zero divisor gives an infinity of the sign of the dividend,
    and NaN for a zero dividend. *)
Definition num_div (a b : number) : number :=
  match a, b with
  | NaN, _ | _, NaN => NaN
  | Fin x, Fin y =>
      match q_sign y with
      | Eq => inf_of_sign (q_sign x)
      | _ => fin (x / y)
      end
  | Fin _, (PInf | NInf) => Fin 0
  | PInf, Fin y => match q_sign y with Lt => NInf | _ => PInf end
  | NInf, Fin y => match q_sign y with Lt => PInf | _ => NInf end
  | (PInf | NInf), (PInf | NInf) => NaN
  end.

(** [a < b]; false as soon as one side is NaN. *)
Definition num_ltb (a b : number) : bool :=
  match a, b with
  | NaN, _ | _, NaN => false
  | Fin x, Fin y => match (x ?= y)%Q with Lt => true | _ => false end
  | NInf, (Fin _ | PInf) => true
  | Fin _, PInf => true
  | _, _ => false
  end.

Definition num_gtb (a b : number) : bool := num_ltb b a.
Definition num_leb (a b : number) : bool :=
  match a, b with
  | NaN, _ | _, NaN => false
  | _, _ => negb (num_ltb b a)
  end.
Definition num_geb (a b : number) : bool := num_leb b a.

(** [a === b] on numbers. *)
Definition num_eqb (a b : number) : bool :=
  match a, b with
  | Fin x, Fin y => Qeq_bool x y
  | PInf, PInf | NInf, NInf => true
  | _, _ => false
  end.

Definition isNaN (a : number) : bool :=
  match a with NaN => true | _ => false end.

Definition finite (a : number) : Prop := exists q, a = Fin q.

(** [exact a q]: the number [a] is finite, in lowest terms, and its value is
    the rational [q]. *)
Definition exact (a : number) (q : Q) : Prop :=
  exists q', a = Fin q' /\ (q' == q)%Q /\ Qred q' = q'.

(** [Math.min] and [Math.max] of two numbers. *)
Definition Math_min (a b : number) : number :=
  match a, b with
  | NaN, _ | _, NaN => NaN
  | _, _ => if num_ltb b a then b else a
  end.
Definition Math_max (a b : number) : number :=
  match a, b with
  | NaN, _ | _, NaN => NaN
  | _, _ => if num_ltb a b then b else a
  end.

(** [Math.abs] *)
Definition Math_abs (a : number) : number :=
  match a with
  | Fin q => fin (Qabs q)
  | PInf | NInf => PInf
  | NaN => NaN
  end.

(** ** Scalars *)

Inductive scalar :=
| SUndefined
| SNull
| SBool (b : bool)
| SNum (n : number)
| SStr (s : string).

(** ToBoolean. *)
Definition truthy (v : scalar) : bool :=
  match v with
  | SUndefined | SNull => false
  | SBool b => b
  | SNum (Fin q) => negb (Qeq_bool q 0)
  | SNum NaN => false
  | SNum _ => true
  | SStr s => negb (String.eqb s "")
  end.

(** Strict equality [===]. *)
Definition strict_eq (a b : scalar) : bool :=
  match a, b with
  | SUndefined, SUndefined | SNull, SNull => true
  | SBool x, SBool y => Bool.eqb x y
  | SNum x, SNum y => num_eqb x y
  | SStr x, SStr y => String.eqb x y
  | _, _ => false
  end.

Definition is_string (v : scalar) : bool :=
  match v with SStr _ => true | _ => false end.
Definition is_number (v : scalar) : bool :=
  match v with SNum _ => true | _ => false end.

(** ** Characters and strings *)

Definition code (c : ascii) : nat := nat_of_ascii c.

Definition in_range (lo hi c : ascii) : bool :=
  (code lo <=? code c)%nat && (code c <=? code hi)%nat.

Definition is_digit (c : ascii) : bool := in_range "0" "9" c.
Definition is_upper (c : ascii) : bool := in_range "A" "Z" c.
Definition is_lower (c : ascii) : bool := in_range "a" "z" c.
(** [\w] *)
Definition is_word (c : ascii) : bool :=
  is_digit c || is_upper c || is_lower c || Ascii.eqb c "_".
(** [\s], and the characters [trim] strips: tab, LF, VT, FF, CR, space. *)
Definition is_space (c : ascii) : bool :=
  in_range "009" "013" c || Ascii.eqb c " ".
Definition is_line_terminator (c : ascii) : bool :=
  Ascii.eqb c "010" || Ascii.eqb c "013".

Definition lower_char (c : ascii) : ascii :=
  if is_upper c then ascii_of_nat (code c + 32) else c.
Definition upper_char (c : ascii) : ascii :=
  if is_lower c then ascii_of_nat (code c - 32) else c.

Definition chars (s : string) : list ascii := list_ascii_of_string s.
Definition str (l : list ascii) : string := string_of_list_ascii l.

Definition toLowerCase (s : string) : string := str (map lower_char (chars s)).

Fixpoint drop_while {A} (p : A -> bool) (l : list A) : list A :=
  match l with
  | x :: t => if p x then drop_while p t else l
  | [] => []
  end.
Fixpoint take_while {A} (p : A -> bool) (l : list A) : list A :=
  match l with
  | x :: t => if p x then x :: take_while p t else []
  | [] => []
  end.

Definition trim_chars (l : list ascii) : list ascii :=
  rev (drop_while is_space (rev (drop_while is_space l))).
Definition trim (s : string) : string := str (trim_chars (chars s)).

Fixpoint is_prefix (p l : list ascii) : bool :=
  match p, l with
  | [], _ => true
  | a :: p', b :: l' => Ascii.eqb a b && is_prefix p' l'
  | _ :: _, [] => false
  end.

(** [indexOf]: the first position at which [sub] occurs in [l]. *)
Fixpoint index_of_chars (sub l : list ascii) : option nat :=
  if is_prefix sub l then Some 0%nat
  else match l with
       | [] => None
       | _ :: t => S <$> index_of_chars sub t
       end.

Definition includes (s sub : string) : bool :=
  match index_of_chars (chars sub) (chars s) with Some _ => true | None => false end.

(** [s.split(c)] for a one-character separator. *)
Fixpoint split_chars (c : ascii) (l : list ascii) (cur : list ascii) : list (list ascii) :=
  match l with
  | [] => [rev cur]
  | x :: t => if Ascii.eqb x c then rev cur :: split_chars c t [] else split_chars c t (x :: cur)
  end.
Definition split (s : string) (c : ascii) : list string :=
  map str (split_chars c (chars s) []).

(** [parts.join(sep)] *)
Fixpoint join (sep : string) (l : list string) : string :=
  match l with
  | [] => ""
  | [x] => x
  | x :: t => x ++ sep ++ join sep t
  end.

(** [s.replace(pat, by)] for a string pattern: the first occurrence only. *)
Definition replace_first (s pat by_ : string) : string :=
  match index_of_chars (chars pat) (chars s) with
  | None => s
  | Some i =>
      str (firstn i (chars s) ++ chars by_ ++ skipn (i + String.length pat) (chars s))
  end.

(** [s.slice(a, b)] and [s.slice(a)] for indices within the string. *)
Definition slice (s : string) (a b : nat) : string :=
  str (firstn (b - a) (skipn a (chars s))).
Definition slice_from (s : string) (a : nat) : string := str (skipn a (chars s)).

(** ** [parseInt] on a string, radix 10 (16 after a [0x] prefix) *)

Definition digit_val (c : ascii) : Z := Z.of_nat (code c - code "0").

Definition hex_val (c : ascii) : option Z :=
  if is_digit c then Some (digit_val c)
  else if in_range "a" "f" c then Some (Z.of_nat (code c - code "a" + 10))
  else if in_range "A" "F" c then Some (Z.of_nat (code c - code "A" + 10))
  else None.

Fixpoint dec_digits (l : list ascii) (acc : option Z) : option Z :=
  match l with
  | c :: t =>
      if is_digit c
      then dec_digits t (Some (10 * default 0%Z acc + digit_val c)%Z)
      else acc
  | [] => acc
  end.

Fixpoint hex_digits (l : list ascii) (acc : option Z) : option Z :=
  match l with
  | c :: t =>
      match hex_val c with
      | Some d => hex_digits t (Some (16 * default 0%Z acc + d)%Z)
      | None => acc
      end
  | [] => acc
  end.

Definition parseInt (s : string) : number :=
  let l := drop_while is_space (chars s) in
  let '(neg, l) :=
    match l with
    | "-"%char :: t => (true, t)
    | "+"%char :: t => (false, t)
    | _ => (false, l)
    end in
  let mag :=
    match l with
    | "0"%char :: ("x"%char | "X"%char) :: t => hex_digits t None
    | _ => dec_digits l None
    end in
  match mag with
  | None => NaN
  | Some z => of_Z (if neg then - z else z)
  end.

(** ** Regular expressions

    The patterns of the source are written as terms of [regex]; [rx] is the
    backtracking matcher of the language: alternatives are tried from left
    to right, a greedy quantifier tries one more iteration before it lets
    the rest of the pattern go on, a lazy one the other way round, and an
    iteration that consumes nothing is refused.

    Where a comment quotes a pattern of the source, a blank is put between
    a star and a closing parenthesis that follows it. *)

Inductive citem :=
| ILit (c : ascii)
| IRange (lo hi : ascii)
| IDigit
| ISpace
| IWord.

Inductive regex :=
| REps
| RChr (c : ascii)
| RAny                                  (* .  *)
| RSet (neg : bool) (items : list citem) (* [...] and [^...] *)
| RSeq (r1 r2 : regex)
| RAlt (r1 r2 : regex)
| RStar (greedy : bool) (r : regex)
| RGroup (i : nat) (r : regex)          (* the i-th capturing group *)
| RBol                                  (* ^ *)
| REol.                                 (* $ *)

Definition citem_matches (c : ascii) (it : citem) : bool :=
  match it with
  | ILit d => Ascii.eqb c d
  | IRange lo hi => in_range lo hi c
  | IDigit => is_digit c
  | ISpace => is_space c
  | IWord => is_word c
  end.

Definition set_matches (icase : bool) (items : list citem) (c : ascii) : bool :=
  existsb (citem_matches c) items
  || (icase && (existsb (citem_matches (lower_char c)) items
                || existsb (citem_matches (upper_char c)) items)).

Definition chr_matches (icase : bool) (d c : ascii) : bool :=
  if icase then Ascii.eqb (lower_char d) (lower_char c) else Ascii.eqb d c.

(** The state of a match: the position reached, what is left of the input
    there, and the groups captured so far. *)
Record rstate := RState {
  pos : nat;
  rest : list ascii;
  caps : list (nat * string)
}.

Definition step1 (st : rstate) (ok : ascii -> bool) (k : rstate -> option rstate)
  : option rstate :=
  match rest st with
  | c :: t => if ok c then k (RState (S (pos st)) t (caps st)) else None
  | [] => None
  end.

Definition or_else {A} (a : option A) (b : option A) : option A :=
  match a with Some x => Some x | None => b end.

Fixpoint rx (icase : bool) (r : regex) (st : rstate) (k : rstate -> option rstate)
  {struct r} : option rstate :=
  match r with
  | REps => k st
  | RChr d => step1 st (chr_matches icase d) k
  | RAny => step1 st (fun c => negb (is_line_terminator c)) k
  | RSet neg items => step1 st (fun c => xorb neg (set_matches icase items c)) k
  | RSeq r1 r2 => rx icase r1 st (fun st1 => rx icase r2 st1 k)
  | RAlt r1 r2 => or_else (rx icase r1 st k) (rx icase r2 st k)
  | RStar greedy r1 =>
      (fix loop (n : nat) (st : rstate) {struct n} : option rstate :=
         match n with
         | O => k st
         | S n' =>
             let more :=
               rx icase r1 st
                 (fun st1 => if (pos st <? pos st1)%nat then loop n' st1 else None) in
             if greedy then or_else more (k st) else or_else (k st) more
         end) (S (length (rest st))) st
  | RGroup i r1 =>
      rx icase r1 st
        (fun st1 =>
           k (RState (pos st1) (rest st1)
                ((i, str (firstn (pos st1 - pos st) (rest st))) :: caps st1)))
  | RBol => if (pos st =? 0)%nat then k st else None
  | REol => match rest st with [] => k st | _ => None end
  end.

(** Derived forms. *)
Definition rplus (r : regex) : regex := RSeq r (RStar true r).     (* r+  *)
Definition rplus_lazy (r : regex) : regex := RSeq r (RStar false r). (* r+? *)
Definition rstar (r : regex) : regex := RStar true r.              (* r*  *)
Definition ropt (r : regex) : regex := RAlt r REps.                (* r?  *)
Fixpoint rseq (l : list regex) : regex :=
  match l with
  | [] => REps
  | [r] => r
  | r :: t => RSeq r (rseq t)
  end.
Fixpoint ralt (l : list regex) : regex :=
  match l with
  | [] => REps
  | [r] => r
  | r :: t => RAlt r (ralt t)
  end.
Definition rstr (s : string) : regex := rseq (map RChr (chars s)).
Definition ws : regex := RSet false [ISpace].       (* \s *)
Definition digit : regex := RSet false [IDigit].    (* \d *)

(** The outcome of a successful match. *)
Record rmatch := RMatch {
  m_start : nat;
  m_end : nat;
  m_caps : list (nat * string)
}.

(** The i-th group of a match ([undefined] when it took no part). *)
Fixpoint group (i : nat) (cs : list (nat * string)) : option string :=
  match cs with
  | [] => None
  | (j, s) :: t => if (i =? j)%nat then Some s else group i t
  end.
Definition m_group (m : rmatch) (i : nat) : option string := group i (m_caps m).
Definition m_text (input : list ascii) (m : rmatch) : string :=
  str (firstn (m_end m - m_start m) (skipn (m_start m) input)).

(** A match that starts exactly at position [p]. *)
Definition match_at (icase : bool) (r : regex) (input : list ascii) (p : nat)
  : option rmatch :=
  match rx icase r (RState p (skipn p input) []) Some with
  | Some st => Some (RMatch p (pos st) (caps st))
  | None => None
  end.

(** The leftmost match that starts at [p] or later; [n] bounds the number of
    start positions tried. *)
Fixpoint search_from (icase : bool) (r : regex) (input : list ascii) (p n : nat)
  : option rmatch :=
  match match_at icase r input p with
  | Some m => Some m
  | None =>
      match n with
      | O => None
      | S n' => search_from icase r input (S p) n'
      end
  end.

Definition exec_from (icase : bool) (r : regex) (input : list ascii) (p : nat)
  : option rmatch :=
  if (p <=? length input)%nat
  then search_from icase r input p (length input - p)
  else None.

(** [s.match(r)] without the [g] flag, and [r.test(s)]. *)
Definition rmatch_of (icase : bool) (r : regex) (s : string) : option rmatch :=
  exec_from icase r (chars s) 0.
Definition test (icase : bool) (r : regex) (s : string) : bool :=
  match rmatch_of icase r s with Some _ => true | None => false end.

(** [s.matchAll(r)] with the [g] flag: the successive matches, each search
    starting where the previous match ended (one further after an empty
    match). *)
Fixpoint match_all_from (icase : bool) (r : regex) (input : list ascii)
  (p fuel : nat) : list rmatch :=
  match fuel with
  | O => []
  | S fuel' =>
      match exec_from icase r input p with
      | None => []
      | Some m =>
          let next := if (m_end m =? m_start m)%nat then S (m_end m) else m_end m in
          m :: match_all_from icase r input next fuel'
      end
  end.
Definition matchAll (icase : bool) (r : regex) (s : string) : list rmatch :=
  match_all_from icase r (chars s) 0 (S (String.length s)).

(** [s.replace(r, by)] with the [g] flag and a replacement without [$]. *)
Fixpoint replace_matches (input : list ascii) (ms : list rmatch) (from : nat)
  (by_ : list ascii) : list ascii :=
  match ms with
  | [] => skipn from input
  | m :: t =>
      firstn (m_start m - from) (skipn from input) ++ by_
      ++ replace_matches input t (m_end m) by_
  end.
Definition replace_all (icase : bool) (r : regex) (s by_ : string) : string :=
  str (replace_matches (chars s) (matchAll icase r s) 0 (chars by_)).

(** [s.split(r)] for a separator pattern without groups. *)
Fixpoint split_rx_loop (icase : bool) (r : regex) (input : list ascii)
  (p q fuel : nat) : list string :=
  match fuel with
  | O => [str (skipn p input)]
  | S fuel' =>
      if (length input <=? q)%nat then [str (skipn p input)]
      else
        match match_at icase r input q with
        | None => split_rx_loop icase r input p (S q) fuel'
        | Some m =>
            if (m_end m =? p)%nat
            then split_rx_loop icase r input p (S q) fuel'
            else str (firstn (q - p) (skipn p input))
                 :: split_rx_loop icase r input (m_end m) (m_end m) fuel'
        end
  end.
Definition split_rx (icase : bool) (r : regex) (s : string) : list string :=
  match chars s with
  | [] => match match_at icase r [] 0 with Some _ => [] | None => [""] end
  | input => split_rx_loop icase r input 0 0 (2 * S (length input))
  end.

(** ** Rows: objects with scalar properties, in insertion order *)

Abbreviation row := (list (string * scalar)).

(** [r[k]] *)
Fixpoint get (r : row) (k : string) : scalar :=
  match r with
  | [] => SUndefined
  | (k', v) :: t => if String.eqb k' k then v else get t k
  end.

(** [{...r, [k]: v}]: an existing property keeps its place and takes the new
    value, a new one goes last.  (JavaScript lists a property named by an
    array index before the others; the properties proved of the code do
    not depend on the place of a new property.) *)
Fixpoint set (r : row) (k : string) (v : scalar) : row :=
  match r with
  | [] => [(k, v)]
  | (k', v') :: t => if String.eqb k' k then (k, v) :: t else (k', v') :: set t k v
  end.

(** [Object.keys(r)] *)
Definition keys (r : row) : list string := map fst r.

(** ** Exceptions *)

Inductive error :=
| TypeError (msg : string)
| SyntaxError (msg : string).

Inductive result (A : Type) :=
| Ok (a : A)
| Throw (e : error).
Arguments Ok {A} a.
Arguments Throw {A} e.

#[global] Instance result_ret : MRet result := fun A a => Ok a.
#[global] Instance result_fmap : FMap result := fun A B f m =>
  match m with
  | Ok a => Ok (f a)
  | Throw e => Throw e
  end.
#[global] Instance result_bind : MBind result := fun A B f m =>
  match m with
  | Ok a => f a
  | Throw e => Throw e
  end.

Definition returns {A} (m : result A) : Prop := exists a, m = Ok a.
Definition throws {A} (m : result A) : Prop := exists e, m = Throw e.

(** [xs.forEach((x, i) => ...)] where the body pushes to one output array
    and may throw: the pushes of the elements in order, up to the first
    exception. *)
Fixpoint for_each_i {A B} (f : A -> nat -> result (list B)) (xs : list A) (i : nat)
  : result (list B) :=
  match xs with
  | [] => Ok []
  | x :: t =>
      ys ← f x i;
      zs ← for_each_i f t (S i);
      Ok (ys ++ zs)
  end.

(** ** JSON *)

Local Unset Elimination Schemes.
Inductive json :=
| JScalar (v : scalar)
| JArray (items : list json)
| JObject (fields : list (string * json)).
Local Set Elimination Schemes.

(** [Array.isArray(parsed) && parsed.includes(x)] for a primitive [x]. *)
Definition json_array_includes (parsed : json) (x : scalar) : bool :=
  match parsed with
  | JArray items =>
      existsb (fun it => match it with JScalar v => strict_eq v x | _ => false end) items
  | _ => false
  end.

(** The double quote character. *)
Definition dquote : string := String (ascii_of_nat 34) EmptyString.

(** [JSON.stringify] of a string without control characters, and of an array
    of such strings. *)
Definition json_quote (s : string) : string :=
  let esc c :=
    if Ascii.eqb c (ascii_of_nat 34) then [ascii_of_nat 92; ascii_of_nat 34]
    else if Ascii.eqb c (ascii_of_nat 92) then [ascii_of_nat 92; ascii_of_nat 92]
    else [c] in
  dquote ++ str (concat (map esc (chars s))) ++ dquote.
Definition json_stringify_strings (l : list string) : string :=
  "[" ++ join "," (map json_quote l) ++ "]".

(** What the host provides and the model leaves open: the JSON parser
    ([None] when [JSON.parse] throws a SyntaxError) and the decimal rendering
    of a number. *)
Class Host := {
  JSON_parse : string -> option json;
  number_to_string : number -> string
}.

(** [String(v)] and the conversion of a value inside a template literal. *)
Definition to_string `{Host} (v : scalar) : string :=
  match v with
  | SUndefined => "undefined"
  | SNull => "null"
  | SBool true => "true"
  | SBool false => "false"
  | SNum n => number_to_string n
  | SStr s => s
  end.

(** [parseInt(v)] for a value that is not a number: only a string can start
    with digits. *)
Definition parseInt_value (v : scalar) : number :=
  match v with
  | SStr s => parseInt s
  | _ => NaN
  end.

(** An array index or a length, in decimal. *)
Definition nat_to_string (n : nat) : string := pretty n.
Definition int_to_string (z : Z) : string := pretty z.

(** The host of the examples.  It renders an integer in decimal and rejects
    every text as JSON: the examples render integers only and parse no text
    that is JSON. *)
Definition example_number_to_string (n : number) : string :=
  match n with
  | Fin q => int_to_string (Qfloor q)
  | PInf => "Infinity"
  | NInf => "-Infinity"
  | NaN => "NaN"
  end.
Definition example_host : Host :=
  {| JSON_parse := fun _ => None; number_to_string := example_number_to_string |}.

End Js.


(* ===================================================================== *)
(** * The arithmetic of binary64 numbers *)
(* ===================================================================== *)

(** The numbers of JavaScript are the binary64 numbers of IEEE 754: an
    operation returns the double nearest to the exact result, the even one
    of two that are as near, and an infinity from [2^1024] on.  [Ieee] has
    the operations of [Js] with that rounding; as in [Js], negative zero is
    identified with zero.  The functions whose properties depend on the
    rounding ([normalizeWeights], [calculateWeightsFromPairwise] and
    [validatePrioritization], module [Rounded]) are embedded on them. *)

Module Ieee.
Import Js.

(** [2^e] *)
Definition pow2 (e : Z) : Q := Qpower 2 e.

(** The integer nearest to [y]; of two that are as near, the even one. *)
Definition round_half_even (y : Q) : Z :=
  let f := Qfloor y in
  match (y - inject_Z f ?= 1 # 2)%Q with
  | Lt => f
  | Gt => (f + 1)%Z
  | Eq => if Z.even f then f else (f + 1)%Z
  end.

(** For [a > 0], the exponent [e] with [2^e <= a < 2^(e+1)]. *)
Definition floor_log2 (a : Q) : Z :=
  let e0 := (Z.log2 (Qnum a) - Z.log2 (Zpos (Qden a)))%Z in
  if Qle_bool (pow2 e0) a then e0 else (e0 - 1)%Z.

(** The exponent of the last place of the doubles around [a > 0]: 53
    significant bits, and no place below [2^-1074]. *)
Definition last_place (a : Q) : Z := Z.max (floor_log2 a - 52) (-1074).

(** The double nearest to [a > 0]; none from [2^1024] on. *)
Definition round_magnitude (a : Q) : option Q :=
  let p := last_place a in
  let r := (inject_Z (round_half_even (a * pow2 (- p))) * pow2 p)%Q in
  if Qle_bool (pow2 1024) r then None else Some r.

(** The double nearest to a rational. *)
Definition round_double (q : Q) : number :=
  match Qnum q with
  | Z0 => Fin 0
  | Zpos _ => match round_magnitude q with Some r => fin r | None => PInf end
  | Zneg _ => match round_magnitude (- q) with Some r => fin (- r) | None => NInf end
  end.

Definition dbl (a : number) : number :=
  match a with
  | Fin q => round_double q
  | _ => a
  end.

(** [a + b], [a - b] and [a / b] *)
Definition add (a b : number) : number := dbl (num_add a b).
Definition sub (a b : number) : number := dbl (num_sub a b).
Definition div (a b : number) : number := dbl (num_div a b).

(** The decimal literal [m * 10^-e] of the source: the double nearest to
    it. *)
Definition literal (m : Z) (e : nat) : number := dbl (decimal m e).

(** [xs.reduce((sum, x) => sum + x, 0)] *)
Definition sum (xs : list number) : number := fold_left add xs (of_nat 0).

(** ** Vocabulary of the statements about rounding *)

(** The rounding unit, [2^-53], and half of the least positive double,
    [2^-1075]. *)
Definition unit_roundoff : Q := pow2 (-53).
Definition half_least : Q := pow2 (-1075).

(** The doubles are multiples of [2^-1074]. *)
Definition grid (q : Q) : Prop := exists k : Z, (q == inject_Z k * pow2 (-1074))%Q.

(** A multiple of [2^-1074] between 0 and [B]; between 0 and [2^1000]. *)
Definition on_grid_to (B : Q) (a : number) : Prop :=
  exists q, a = Fin q /\ grid q /\ (0 <= q <= B)%Q.
Definition on_grid (a : number) : Prop := on_grid_to (pow2 1000) a.

(** The rational that a finite number denotes, and the sum of the entries
    of a list without rounding. *)
Definition rat (a : number) : Q := match a with Fin q => q | _ => 0%Q end.
Definition exact_sum (xs : list number) : Q :=
  fold_right (fun a acc => (rat a + acc)%Q) 0%Q xs.

(** ** The binary64 numbers of the kernel, to compare with *)

(** The number that a binary64 value of the kernel denotes. *)
Definition of_float (x : float) : number :=
  match Prim2SF x with
  | S754_zero _ => Fin 0
  | S754_infinity s => if s then NInf else PInf
  | S754_nan => NaN
  | S754_finite s m e => fin ((if s then -1 else 1) * inject_Z (Zpos m) * pow2 e)
  end.

(** The quotient of two integers, computed by the kernel. *)
Definition ratio (a b : Z) : float :=
  PrimFloat.div (PrimFloat.of_uint63 (Uint63.of_Z a)) (PrimFloat.of_uint63 (Uint63.of_Z b)).

(** Numbers with and without an exact binary form, an integer above [2^53],
    a negative number, zero, a subnormal number, a number beyond the largest
    double (an infinity) and half of the least double (rounded to 0). *)
Definition samples : list float :=
  [ratio 1 10; ratio 3 10; ratio 1 3; ratio 58 100; ratio 9007199254740993 1;
   PrimFloat.opp (ratio 7 100); ratio 0 1;
   Z.ldexp (ratio 1 3) (-1060)%Z; Z.ldexp (ratio 5 7) 1024%Z;
   Z.ldexp (ratio 3 1) (-1075)%Z].
Definition sample_pairs : list (float * float) :=
  flat_map (fun x => map (fun y => (x, y)) samples) samples.

End Ieee.

(* ===================================================================== *)
(** * [src/lib/prioritizationEngine.ts]: AHP weights and consistency *)
(* ===================================================================== *)

Module Prioritization.
Import Js.

Inductive category := client | worker | task | constraint.

Record PrioritizationCriteria := {
  id : string;
  name : string;
  description : string;
  crit_category : category;
  weight : number;
  minWeight : number;
  maxWeight : number;
  unit : option string
}.

Record PairwiseComparison := {
  criterion1 : string;
  criterion2 : string;
  value : number  (* 1-9 scale where 1 = equal, 9 = extremely more important *)
}.

(** [generatePairwiseComparisons]: one comparison of value 1 for every pair
    [i < j], in the order of the two nested loops. *)
Fixpoint generatePairwiseComparisons (criteria : list PrioritizationCriteria)
  : list PairwiseComparison :=
  match criteria with
  | [] => []
  | c :: later =>
      map (fun d => {| criterion1 := id c; criterion2 := id d; value := of_nat 1 |}) later
      ++ generatePairwiseComparisons later
  end.

(** [criteria.findIndex(c => c.id === x)]; [None] stands for [-1]. *)
Fixpoint findIndex (criteria : list PrioritizationCriteria) (x : string) : option nat :=
  match criteria with
  | [] => None
  | c :: later => if String.eqb (id c) x then Some 0%nat else S <$> findIndex later x
  end.

Abbreviation matrix := (list (list number)).

(** [Array(n).fill(0).map(() => Array(n).fill(0))] *)
Definition zeros (n : nat) : matrix := replicate n (replicate n (of_nat 0)).

(** [m[i][j] = v], for [i] and [j] within the matrix. *)
Definition set_cell (m : matrix) (i j : nat) (v : number) : matrix :=
  alter (fun row => <[j := v]> row) i m.

(** The loop that initialises the diagonal with 1s. *)
Definition set_diagonal (n : nat) (m : matrix) : matrix :=
  fold_left (fun m i => set_cell m i i (of_nat 1)) (seq 0 n) m.

(** The [comparisons.forEach] that fills the matrix. *)
Definition fill_comparisons (criteria : list PrioritizationCriteria)
  (comparisons : list PairwiseComparison) (m : matrix) : matrix :=
  fold_left
    (fun m comp =>
       match findIndex criteria (criterion1 comp), findIndex criteria (criterion2 comp) with
       | Some i, Some j =>
           set_cell (set_cell m i j (value comp)) j i (num_div (of_nat 1) (value comp))
       | _, _ => m
       end)
    comparisons m.

(** [xs.reduce((sum, val) => sum + val, 0)] *)
Definition sum (xs : list number) : number := fold_left num_add xs (of_nat 0).

(** [xs.reduce((acc, val, i) => f acc val i, init)] *)
Fixpoint reduce_i {A B} (f : B -> A -> nat -> B) (xs : list A) (i : nat) (acc : B) : B :=
  match xs with
  | [] => acc
  | x :: t => reduce_i f t (S i) (f acc x i)
  end.

(** [xs[i]] in an arithmetic context: a missing entry is [undefined], which
    converts to NaN. *)
Definition at_index (xs : list number) (i : nat) : number := nth i xs NaN.

Definition calculateWeightsFromPairwise (comparisons : list PairwiseComparison)
  (criteria : list PrioritizationCriteria) : list number :=
  let n := length criteria in
  let m := fill_comparisons criteria comparisons (set_diagonal n (zeros n)) in
  let rowSums := map sum m in
  let totalSum := sum rowSums in
  map (fun s => num_div s totalSum) rowSums.

(** Random Index values for different matrix sizes. *)
Definition randomIndex : list number :=
  [of_nat 0; of_nat 0; decimal 58 2; decimal 9 1; decimal 112 2; decimal 124 2;
   decimal 132 2; decimal 141 2; decimal 145 2; decimal 149 2].

Definition calculateConsistencyRatio (comparisons : list PairwiseComparison)
  (criteria : list PrioritizationCriteria) : number :=
  let n := length criteria in
  let weights := calculateWeightsFromPairwise comparisons criteria in
  let m := fill_comparisons criteria comparisons (zeros n) in
  let weightedSums :=
    map (fun row =>
           reduce_i (fun acc val j => num_add acc (num_mul val (at_index weights j)))
             row 0 (of_nat 0)) m in
  let lambdaMax :=
    num_div
      (reduce_i (fun acc val i => num_add acc (num_div val (at_index weights i)))
         weightedSums 0 (of_nat 0))
      (of_nat n) in
  let consistencyIndex :=
    num_div (num_sub lambdaMax (of_nat n)) (num_sub (of_nat n) (of_nat 1)) in
  num_div consistencyIndex (at_index randomIndex (Nat.min n (length randomIndex - 1))).

(** A criterion with the given id (the other fields play no part in the
    weighting). *)
Definition criterion (i : string) : PrioritizationCriteria :=
  {| id := i; name := i; description := ""; crit_category := constraint;
     weight := of_nat 0; minWeight := of_nat 0; maxWeight := of_nat 1; unit := None |}.

(** ** Vocabulary of the statements about the comparison matrix *)

(** [m[a][b]], when the matrix has such a cell. *)
Definition entry (m : matrix) (a b : nat) : option number :=
  m !! a ≫= fun row => row !! b.

(** The comparison names the criteria of the indices [a] and [b], in one
    order or the other. *)
Definition hits (criteria : list PrioritizationCriteria) (comp : PairwiseComparison)
  (a b : nat) : bool :=
  match findIndex criteria (criterion1 comp), findIndex criteria (criterion2 comp) with
  | Some i, Some j => ((a =? i)%nat && (b =? j)%nat) || ((a =? j)%nat && (b =? i)%nat)
  | _, _ => false
  end.

(** The matrix has [n] rows of [n] cells. *)
Definition shape (n : nat) (m : matrix) : Prop :=
  length m = n /\ Forall (fun row => length row = n) m.

(** The rational value of a natural number. *)
Definition q_of_nat (n : nat) : Q := inject_Z (Z.of_nat n).

(** The sum of [f] over the [len] indices from [i]. *)
Fixpoint qsum_from (f : nat -> Q) (i len : nat) : Q :=
  match len with
  | O => 0
  | S len' => f i + qsum_from f (S i) len'
  end.

(** The inputs of the examples. *)
Definition two_criteria : list PrioritizationCriteria := [criterion "a"; criterion "b"].
Definition three_criteria : list PrioritizationCriteria :=
  [criterion "a"; criterion "b"; criterion "c"].
Definition repeated_criteria : list PrioritizationCriteria :=
  [criterion "a"; criterion "a"; criterion "b"].

(** ** Profiles, the preset tables and [validatePrioritization] *)

Record PrioritizationProfile := {
  profile_id : string;
  profile_name : string;
  profile_description : string;
  profile_criteria : list PrioritizationCriteria;
  isCustom : bool
}.

(** The configuration, without its [exportData], which the functions below
    do not read. *)
Record PrioritizationConfig := {
  profile : PrioritizationProfile;
  pairwiseComparisons : list PairwiseComparison;
  consistencyRatio : number;
  isValid : bool
}.

(** [{ ...criterion, weight: w }] *)
Definition with_weight (criterion : PrioritizationCriteria) (w : number)
  : PrioritizationCriteria :=
  {| id := id criterion; name := name criterion; description := description criterion;
     crit_category := crit_category criterion; weight := w;
     minWeight := minWeight criterion; maxWeight := maxWeight criterion;
     unit := unit criterion |}.





Record PrioritizationCheck := {
  check_isValid : bool;
  check_errors : list string
}.

Section validatePrioritization.
(** [x.toFixed(digits)], the rendering of a number of the host. *)
Variable toFixed : number -> nat -> string.

Definition validatePrioritization (config : PrioritizationConfig) : PrioritizationCheck :=
  let errors : list string := [] in
  (* Check if weights sum to 1 (with tolerance) *)
  let totalWeight :=
    fold_left (fun sum criterion => num_add sum (weight criterion))
      (profile_criteria (profile config)) (of_nat 0) in
  let errors :=
    if num_gtb (Math_abs (num_sub totalWeight (of_nat 1))) (decimal 1 2)
    then errors ++ ["Weights must sum to 1.0 (current sum: " +:+ toFixed totalWeight 3 +:+ ")"]
    else errors in
  (* Check for negative weights *)
  let negativeWeights :=
    List.filter (fun criterion => num_ltb (weight criterion) (of_nat 0))
      (profile_criteria (profile config)) in
  let errors :=
    if (0 <? length negativeWeights)%nat
    then errors ++ ["All weights must be non-negative"]
    else errors in
  (* Check consistency ratio for pairwise comparisons *)
  let errors :=
    if num_gtb (consistencyRatio config) (decimal 1 1)
    then errors ++ ["Consistency ratio (" +:+ toFixed (consistencyRatio config) 3
                    +:+ ") is too high. Consider revising pairwise comparisons."]
    else errors in
  {| check_isValid := (length errors =? 0)%nat; check_errors := errors |}.

End validatePrioritization.

(** [criteria.map((criterion, index) => ({ ...criterion, weight: ws[index] }))],
    the step of the panel's handlers (src/components/PrioritizationPanel.tsx)
    that stores a vector of weights into the criteria. *)
Definition store_weights (criteria : list PrioritizationCriteria) (ws : list number)
  : list PrioritizationCriteria :=
  imap (fun index criterion => with_weight criterion (at_index ws index)) criteria.

(** ** Vocabulary of the statements about signs *)

(** A finite number that is not negative. *)
Definition nonneg (a : number) : Prop := exists q, a = Fin q /\ (0 <= q)%Q.

(** A configuration of the given profile and ratio, as the panel builds it. *)
Definition config_of (p : PrioritizationProfile) (comparisons : list PairwiseComparison)
  (ratio : number) : PrioritizationConfig :=
  {| profile := p; pairwiseComparisons := comparisons; consistencyRatio := ratio;
     isValid := true |}.

(** A profile of the given criteria, one comparison of value 3 of the
    criterion [a] with the criterion [b], and a [toFixed] that renders
    nothing, for the examples. *)
Definition custom_profile (criteria : list PrioritizationCriteria) : PrioritizationProfile :=
  {| profile_id := "custom"; profile_name := "Custom Profile";
     profile_description := "User-defined prioritization profile";
     profile_criteria := criteria; isCustom := true |}.
Definition three_to_one : list PairwiseComparison :=
  [{| criterion1 := "a"; criterion2 := "b"; value := of_nat 3 |}].
Definition no_digits : number -> nat -> string := fun _ _ => "".

(** A configuration whose weight and ratio are NaN. *)
Definition nan_config : PrioritizationConfig :=
  config_of (custom_profile [with_weight (criterion "a") NaN]) [] NaN.

End Prioritization.

(* ===================================================================== *)
(** * [src/lib/prioritizationEngine.ts] on binary64 numbers *)
(* ===================================================================== *)

Module Rounded.
Import Js Prioritization.

(** [normalizeWeights]: divide every entry by the sum; the division is not
    guarded. *)
Definition normalizeWeights (weights : list number) : list number :=
  let sum := Ieee.sum weights in
  map (fun weight => Ieee.div weight sum) weights.

(** [calculateWeightsFromPairwise] *)
Definition fill_comparisons (criteria : list PrioritizationCriteria)
  (comparisons : list PairwiseComparison) (m : matrix) : matrix :=
  fold_left
    (fun m comp =>
       match findIndex criteria (criterion1 comp), findIndex criteria (criterion2 comp) with
       | Some i, Some j =>
           set_cell (set_cell m i j (value comp)) j i (Ieee.div (of_nat 1) (value comp))
       | _, _ => m
       end)
    comparisons m.

Definition calculateWeightsFromPairwise (comparisons : list PairwiseComparison)
  (criteria : list PrioritizationCriteria) : list number :=
  let n := length criteria in
  let m := fill_comparisons criteria comparisons (set_diagonal n (zeros n)) in
  let rowSums := map Ieee.sum m in
  let totalSum := Ieee.sum rowSums in
  map (fun sum => Ieee.div sum totalSum) rowSums.

Section validatePrioritization.
(** [x.toFixed(digits)], the rendering of a number of the host. *)
Variable toFixed : number -> nat -> string.

Definition validatePrioritization (config : PrioritizationConfig) : PrioritizationCheck :=
  let errors : list string := [] in
  (* Check if weights sum to 1 (with tolerance) *)
  let totalWeight :=
    fold_left (fun sum criterion => Ieee.add sum (weight criterion))
      (profile_criteria (profile config)) (of_nat 0) in
  let errors :=
    if num_gtb (Math_abs (Ieee.sub totalWeight (of_nat 1))) (Ieee.literal 1 2)
    then errors ++ ["Weights must sum to 1.0 (current sum: " +:+ toFixed totalWeight 3 +:+ ")"]
    else errors in
  (* Check for negative weights *)
  let negativeWeights :=
    List.filter (fun criterion => num_ltb (weight criterion) (of_nat 0))
      (profile_criteria (profile config)) in
  let errors :=
    if (0 <? length negativeWeights)%nat
    then errors ++ ["All weights must be non-negative"]
    else errors in
  (* Check consistency ratio for pairwise comparisons *)
  let errors :=
    if num_gtb (consistencyRatio config) (Ieee.literal 1 1)
    then errors ++ ["Consistency ratio (" +:+ toFixed (consistencyRatio config) 3
                    +:+ ") is too high. Consider revising pairwise comparisons."]
    else errors in
  {| check_isValid := (length errors =? 0)%nat; check_errors := errors |}.

End validatePrioritization.

(** ** Vocabulary of the statements about the weights *)

(** A weight: a double that is not negative and not above [2^1000] (the
    panel passes weights between 0 and 1). *)
Definition weight_range (a : number) : Prop :=
  exists q, a = Fin q /\ Ieee.dbl a = a /\ (0 <= q <= Ieee.pow2 1000)%Q.

(** The largest number of weights the statements speak of. *)
Definition many : Z := 2 ^ 20.

(** The tolerance for [n] weights: [(4 n + 2) 2^-53]. *)
Definition tolerance (n : nat) : Q := ((4 * q_of_nat n + 2) * Ieee.unit_roundoff)%Q.

(** The entries are finite and not negative, and their sum is 1 up to the
    tolerance, both as the code sums them and without rounding. *)
Definition sums_to_one (tol : Q) (xs : list number) : Prop :=
  Forall (fun a => exists q, a = Fin q /\ (0 <= q)%Q) xs
  /\ (exists t, Ieee.sum xs = Fin t /\ (Qabs (t - 1) <= tol)%Q)
  /\ (Qabs (Ieee.exact_sum xs - 1) <= tol)%Q.

(** The value of a comparison: a double between [2^-400] and [2^400] (the
    scale of the panel goes from 1/9 to 9). *)
Definition comparison_range (comp : PairwiseComparison) : Prop :=
  exists q, value comp = Fin q /\ Ieee.dbl (value comp) = value comp
            /\ (Ieee.pow2 (-400) <= q <= Ieee.pow2 400)%Q.

(** A finite number that is positive. *)
Definition positive_finite (a : number) : Prop := exists q, a = Fin q /\ (0 < q)%Q.

(** The cells of the matrix are doubles between 0 and [2^401], and those of
    its diagonal are not below [2^-401]. *)
Definition ranged (m : matrix) : Prop :=
  (forall a b x, entry m a b = Some x -> Ieee.on_grid_to (Ieee.pow2 401) x)
  /\ (forall a x, entry m a a = Some x ->
        exists q, x = Fin q /\ (Ieee.pow2 (-401) <= q)%Q).

(** The configurations of the examples: the weights of the two criteria
    come from the comparison of value 3, and from the weights 0.1 and 0.3 of
    two sliders. *)
Definition pairwise_config : PrioritizationConfig :=
  config_of
    (custom_profile
       (store_weights two_criteria (calculateWeightsFromPairwise three_to_one two_criteria)))
    three_to_one (of_nat 0).
Definition slider_config : PrioritizationConfig :=
  config_of
    (custom_profile
       (store_weights two_criteria (normalizeWeights [Ieee.literal 1 1; Ieee.literal 3 1])))
    [] (of_nat 0).


End Rounded.

(* ===================================================================== *)
(** * [src/lib/aiEngine.ts]: corrections and the natural-language search *)
(* ===================================================================== *)

Module AiEngine.
Import Js.

Inductive suggestion_type :=
| missing_value | format_error | range_error | reference_error | duplicate_error.

(** The row index of a suggestion is an array index: the rules take it from
    the index of [forEach]. *)
Record AICorrectionSuggestion := {
  type : suggestion_type;
  rowIndex : nat;
  column : string;
  currentValue : scalar;
  suggestedValue : scalar;
  confidence : number;
  reason : string;
  autoApply : bool
}.

Record AISearchResult := {
  matchedRows : list nat;
  query : string;
  explanation : string
}.

Record condition := {
  cond_column : string;
  operator : string;
  cond_value : scalar
}.

(** ** Helper functions *)

(** [headers.find(p)] *)
Definition find_header (p : string -> bool) (headers : list string) : option string :=
  List.find p headers.

Fixpoint findColumnByPattern_loop (headers patterns : list string) : option string :=
  match patterns with
  | [] => None
  | pattern :: later =>
      match find_header (fun header => includes (toLowerCase header) (toLowerCase pattern))
              headers with
      | Some found =>
          if truthy (SStr found) then Some found
          else findColumnByPattern_loop headers later
      | None => findColumnByPattern_loop headers later
      end
  end.

Definition findColumnByPattern (data : list row) (patterns : list string) : option string :=
  match data with
  | [] => None
  | first :: _ => findColumnByPattern_loop (keys first) patterns
  end.

(** Pattern [ /^[^\s@]+@[^\s@]+\.[^\s@]+$/ ] *)
Definition emailRegex : regex :=
  let part := rplus (RSet true [ISpace; ILit "@"]) in
  rseq [RBol; part; RChr "@"; part; RChr "."; part; REol].

Definition isValidEmail (email : string) : bool := test false emailRegex email.

(** ** The correction rules *)

(** A constant table read by its own keys. *)
Fixpoint lookup_table {A} (table : list (string * A)) (k : string) : option A :=
  match table with
  | [] => None
  | (k', v) :: t => if String.eqb k' k then Some v else lookup_table t k
  end.

Definition domainFixes : list (string * string) :=
  [("gmial.com", "gmail.com"); ("gmal.com", "gmail.com"); ("gmai.com", "gmail.com");
   ("hotmai.com", "hotmail.com"); ("hotmal.com", "hotmail.com");
   ("yaho.com", "yahoo.com"); ("outlok.com", "outlook.com")].

Definition smart_email_correction (data : list row) (entityType : string)
  : result (list AICorrectionSuggestion) :=
  match findColumnByPattern data ["email"] with
  | None => Ok []
  | Some emailColumn =>
      for_each_i
        (fun r index =>
           match get r emailColumn with
           | SStr email =>
               if truthy (SStr email) then
                 let correctedEmail := toLowerCase (trim email) in
                 (* Fix common domain typos *)
                 let correctedEmail :=
                   match nth_error (split correctedEmail "@") 1 with
                   | Some domain =>
                       match (if truthy (SStr domain) then lookup_table domainFixes domain
                              else None) with
                       | Some fixed => replace_first correctedEmail domain fixed
                       | None => correctedEmail
                       end
                   | None => correctedEmail
                   end in
                 (* Add missing @ symbol *)
                 let correctedEmail :=
                   if negb (includes correctedEmail "@") && includes correctedEmail "."
                   then
                     match split correctedEmail "." with
                     | first :: second :: more =>
                         first +:+ "@" +:+ join "." (second :: more)
                     | _ => correctedEmail
                     end
                   else correctedEmail in
                 if negb (String.eqb correctedEmail email) && isValidEmail correctedEmail
                 then Ok [{| type := format_error; rowIndex := index;
                             column := emailColumn; currentValue := SStr email;
                             suggestedValue := SStr correctedEmail;
                             confidence := decimal 9 1;
                             reason := "Fixed common email format issues";
                             autoApply := true |}]
                 else Ok []
               else Ok []
           | _ => Ok []
           end)
        data 0
  end.

Definition smart_phone_correction (data : list row) (entityType : string)
  : result (list AICorrectionSuggestion) :=
  match findColumnByPattern data ["phone"; "phone_number"; "contact"] with
  | None => Ok []
  | Some phoneColumn =>
      for_each_i
        (fun r index =>
           match get r phoneColumn with
           | SStr phone =>
               if truthy (SStr phone) then
                 (* Remove all non-digit characters *)
                 let digits := replace_all false (RSet true [IDigit]) phone "" in
                 if (String.length digits =? 10)%nat then
                   let formattedPhone :=
                     "(" +:+ slice digits 0 3 +:+ ") " +:+ slice digits 3 6 +:+ "-"
                     +:+ slice_from digits 6 in
                   if negb (String.eqb formattedPhone phone)
                   then Ok [{| type := format_error; rowIndex := index;
                               column := phoneColumn; currentValue := SStr phone;
                               suggestedValue := SStr formattedPhone;
                               confidence := decimal 95 2;
                               reason := "Standardized phone number format";
                               autoApply := true |}]
                   else Ok []
                 else Ok []
               else Ok []
           | _ => Ok []
           end)
        data 0
  end.

Definition roleSkillMap : list (string * list string) :=
  [("developer", ["javascript"; "python"; "java"; "react"; "node.js"; "sql"]);
   ("designer", ["figma"; "sketch"; "adobe"; "ui/ux"; "prototyping"; "wireframing"]);
   ("manager", ["leadership"; "project management"; "communication"; "agile"; "scrum"]);
   ("analyst", ["data analysis"; "sql"; "excel"; "python"; "statistics"; "reporting"]);
   ("engineer", ["java"; "python"; "c++"; "system design"; "algorithms"; "databases"])].

(** [role.toLowerCase()] and the like: only a string has the method, on any
    other value the call throws a TypeError. *)
Definition not_a_function (what : string) : error :=
  TypeError (what +:+ ".toLowerCase is not a function").

Definition smart_skill_suggestions (data : list row) (entityType : string)
  : result (list AICorrectionSuggestion) :=
  match findColumnByPattern data ["skills"; "requiredskills"; "required_skills"],
        findColumnByPattern data ["role"; "position"; "job"] with
  | Some skillsColumn, Some roleColumn =>
      for_each_i
        (fun r index =>
           let role := get r roleColumn in
           let skills := get r skillsColumn in
           if truthy role && negb (truthy skills) then
             match role with
             | SStr roleText =>
                 let roleLower := toLowerCase roleText in
                 let suggestedSkills := default [] (lookup_table roleSkillMap roleLower) in
                 if (0 <? length suggestedSkills)%nat
                 then Ok [{| type := missing_value; rowIndex := index;
                             column := skillsColumn; currentValue := SNull;
                             suggestedValue := SStr (json_stringify_strings suggestedSkills);
                             confidence := decimal 8 1;
                             reason := "Suggested skills based on role: " +:+ roleText;
                             autoApply := false |}]
                 else Ok []
             | _ => Throw (not_a_function "role")
             end
           else Ok [])
        data 0
  | _, _ => Ok []
  end.

Definition title_has (titleLower word : string) : bool := includes titleLower word.

Definition smart_duration_estimation (data : list row) (entityType : string)
  : result (list AICorrectionSuggestion) :=
  let durationColumn := findColumnByPattern data ["duration"] in
  let titleColumn := findColumnByPattern data ["title"; "name"] in
  let priorityColumn :=
    findColumnByPattern data ["prioritylevel"; "priority_level"; "priority"] in
  match durationColumn, titleColumn with
  | Some durationColumn, Some titleColumn =>
      for_each_i
        (fun r index =>
           let duration := get r durationColumn in
           let title := get r titleColumn in
           let priority :=
             match priorityColumn with Some c => get r c | None => SNull end in
           if negb (truthy duration) && truthy title then
             match title with
             | SStr titleText =>
                 (* Simple duration estimation based on title keywords *)
                 let titleLower := toLowerCase titleText in
                 let estimatedDuration :=
                   if title_has titleLower "review" || title_has titleLower "test"
                   then of_nat 2
                   else if title_has titleLower "design" || title_has titleLower "plan"
                   then of_nat 7
                   else if title_has titleLower "implement" || title_has titleLower "develop"
                   then of_nat 10
                   else if title_has titleLower "research" || title_has titleLower "analysis"
                   then of_nat 5
                   else of_nat 5 in
                 (* Adjust based on priority *)
                 let estimatedDuration :=
                   if truthy priority then
                     let priorityNum :=
                       match priority with SNum n => n | _ => parseInt_value priority end in
                     if num_geb priorityNum (of_nat 4)
                     then Math_max (of_nat 1) (num_sub estimatedDuration (of_nat 2))
                     else estimatedDuration
                   else estimatedDuration in
                 Ok [{| type := missing_value; rowIndex := index;
                        column := durationColumn; currentValue := SNull;
                        suggestedValue := SNum estimatedDuration;
                        confidence := decimal 7 1;
                        reason := "Estimated duration based on task title: "
                                  +:+ dquote +:+ titleText +:+ dquote;
                        autoApply := false |}]
             | _ => Throw (not_a_function "title")
             end
           else Ok [])
        data 0
  | _, _ => Ok []
  end.

Record AIValidationRule := {
  rule_name : string;
  rule_description : string;
  validate : list row -> string -> result (list AICorrectionSuggestion)
}.

Definition aiValidationRules : list AIValidationRule :=
  [ {| rule_name := "smart_email_correction";
       rule_description := "AI-powered email format correction";
       validate := smart_email_correction |};
    {| rule_name := "smart_phone_correction";
       rule_description := "AI-powered phone number format correction";
       validate := smart_phone_correction |};
    {| rule_name := "smart_skill_suggestions";
       rule_description := "AI-powered skill suggestions based on role";
       validate := smart_skill_suggestions |};
    {| rule_name := "smart_duration_estimation";
       rule_description := "AI-powered task duration estimation";
       validate := smart_duration_estimation |} ].

(** [generateAIValidationSuggestions]: the suggestions of the rules, one rule
    after the other; an exception of a rule ends the call. *)
Definition generateAIValidationSuggestions (data : list row) (entityType : string)
  : result (list AICorrectionSuggestion) :=
  for_each_i (fun rule _ => validate rule data entityType) aiValidationRules 0.

(** ** Natural language query parser *)

Definition letters_spaces : regex := RSet false [IRange "a" "z"; IRange "A" "Z"; ISpace].

(** Pattern [ /duration\s+(?:of\s+)?(?:more\s+than|greater\s+than|>\s* )(\d+)/ ] *)
Definition durationRegex : regex :=
  rseq [rstr "duration"; rplus ws; ropt (rseq [rstr "of"; rplus ws]);
        ralt [rseq [rstr "more"; rplus ws; rstr "than"];
              rseq [rstr "greater"; rplus ws; rstr "than"];
              rseq [RChr ">"; rstar ws]];
        RGroup 1 (rplus digit)].

(** Pattern [ /duration\s+(?:of\s+)?(?:less\s+than|<\s* )(\d+)/ ] *)
Definition durationLessRegex : regex :=
  rseq [rstr "duration"; rplus ws; ropt (rseq [rstr "of"; rplus ws]);
        ralt [rseq [rstr "less"; rplus ws; rstr "than"];
              rseq [RChr "<"; rstar ws]];
        RGroup 1 (rplus digit)].

(** [(?:.*\s+)?priority\s+(?:level\s+)?], the head of the priority patterns. *)
Definition priorityHead : list regex :=
  [ropt (rseq [rstar RAny; rplus ws]); rstr "priority"; rplus ws;
   ropt (rseq [rstr "level"; rplus ws])].

(** Pattern [ /(?:.*\s+)?priority\s+(?:level\s+)?(?:greater\s+than|more\s+than|>\s* )\s*(\d+)/ ] *)
Definition priorityGreaterRegex : regex :=
  rseq (priorityHead ++
        [ralt [rseq [rstr "greater"; rplus ws; rstr "than"];
               rseq [rstr "more"; rplus ws; rstr "than"];
               rseq [RChr ">"; rstar ws]];
         rstar ws; RGroup 1 (rplus digit)]).

(** Pattern [ /(?:.*\s+)?priority\s+(?:level\s+)?(?:less\s+than|<\s* )\s*(\d+)/ ] *)
Definition priorityLessRegex : regex :=
  rseq (priorityHead ++
        [ralt [rseq [rstr "less"; rplus ws; rstr "than"];
               rseq [RChr "<"; rstar ws]];
         rstar ws; RGroup 1 (rplus digit)]).

(** Pattern [ /(?:.*\s+)?priority\s+(?:level\s+)?(\d+)/ ] *)
Definition priorityExactRegex : regex :=
  rseq (priorityHead ++ [RGroup 1 (rplus digit)]).

(** Pattern [ /phase\s+(\d+)/ ] *)
Definition phaseRegex : regex :=
  rseq [rstr "phase"; rplus ws; RGroup 1 (rplus digit)].

(** Pattern [ /skill[s]?\s+(?:of\s+)?([a-zA-Z\s,]+)/ ] *)
Definition skillRegex : regex :=
  rseq [rstr "skill"; ropt (RSet false [ILit "s"]); rplus ws;
        ropt (rseq [rstr "of"; rplus ws]);
        RGroup 1 (rplus (RSet false [IRange "a" "z"; IRange "A" "Z"; ISpace; ILit ","]))].

(** Pattern [ /<word>\s+(?:of\s+)?([a-zA-Z\s]+)/ ] for role, group and category. *)
Definition wordOfRegex (word : string) : regex :=
  rseq [rstr word; rplus ws; ropt (rseq [rstr "of"; rplus ws]);
        RGroup 1 (rplus letters_spaces)].

Definition mk_condition (c op : string) (v : scalar) : condition :=
  {| cond_column := c; operator := op; cond_value := v |}.

(** The first group of a match, as the code reads it. *)
Definition group1 (m : rmatch) : string := default "" (m_group m 1).

(** The condition of one pattern, if the pattern matches. *)
Definition number_condition (lowerQuery : string) (r : regex) (c op : string)
  : list condition :=
  match rmatch_of false r lowerQuery with
  | Some m => [mk_condition c op (SNum (parseInt (group1 m)))]
  | None => []
  end.
Definition text_condition (lowerQuery : string) (r : regex) (c : string)
  : list condition :=
  match rmatch_of false r lowerQuery with
  | Some m => [mk_condition c "=" (SStr (trim (group1 m)))]
  | None => []
  end.
Definition keyword_condition (lowerQuery word : string) : list condition :=
  if includes lowerQuery word then [mk_condition "grouptag" "=" (SStr word)] else [].

Definition parseNaturalLanguageQuery (query : string) : string * list condition :=
  let lowerQuery := toLowerCase query in
  (* Parse duration conditions *)
  let duration_gt := number_condition lowerQuery durationRegex "duration" ">" in
  let duration_lt := number_condition lowerQuery durationLessRegex "duration" "<" in
  (* Parse priority conditions *)
  let priority_gt :=
    number_condition lowerQuery priorityGreaterRegex "prioritylevel" ">" in
  let priority_lt :=
    number_condition lowerQuery priorityLessRegex "prioritylevel" "<" in
  (* Parse exact priority level (only if no other priority conditions found) *)
  let priority_eq :=
    match priority_gt, priority_lt with
    | [], [] => number_condition lowerQuery priorityExactRegex "prioritylevel" "="
    | _, _ => []
    end in
  (* Parse phase conditions *)
  let phase := number_condition lowerQuery phaseRegex "preferredphases" "includes" in
  (* Parse skill conditions *)
  let skills :=
    match rmatch_of false skillRegex lowerQuery with
    | Some m =>
        map (fun skill => mk_condition "requiredskills" "includes" (SStr (trim skill)))
          (List.filter (fun s => (0 <? String.length s)%nat)
             (split_rx false (rplus (RSet false [ILit ","; ISpace])) (group1 m)))
    | None => []
    end in
  (* Parse role/group conditions *)
  let role := text_condition lowerQuery (wordOfRegex "role") "workergroup" in
  let group_ := text_condition lowerQuery (wordOfRegex "group") "grouptag" in
  (* Parse specific group keywords *)
  let enterprise := keyword_condition lowerQuery "enterprise" in
  let startup := keyword_condition lowerQuery "startup" in
  let small := keyword_condition lowerQuery "small" in
  (* Parse category conditions *)
  let category := text_condition lowerQuery (wordOfRegex "category") "category" in
  ("AND",
   duration_gt ++ duration_lt ++ priority_gt ++ priority_lt ++ priority_eq ++ phase
   ++ skills ++ role ++ group_ ++ enterprise ++ startup ++ small ++ category).

(** ** Execute natural language search *)

Section search.
Context `{Host}.

(** The row value of a [>] or [<] condition: a string is read with
    [parseInt], and the value must then be a number that is not NaN. *)
Definition numeric_value (value : scalar) : option number :=
  match (match value with SStr s => SNum (parseInt s) | _ => value end) with
  | SNum n => if isNaN n then None else Some n
  | _ => None
  end.

(** [matchesCondition].  The parser gives a number to every condition with
    the operator [>] or [<]; a cell is a scalar, so the branch of [includes]
    for a value that is already an array is not taken. *)
Definition matchesCondition (value : scalar) (c : condition) : result bool :=
  if String.eqb (operator c) ">" then
    Ok match numeric_value value, cond_value c with
       | Some numValue, SNum bound => num_gtb numValue bound
       | _, _ => false
       end
  else if String.eqb (operator c) "<" then
    Ok match numeric_value value, cond_value c with
       | Some numValue, SNum bound => num_ltb numValue bound
       | _, _ => false
       end
  else if String.eqb (operator c) "=" then
    Ok (strict_eq value (cond_value c))
  else if String.eqb (operator c) "includes" then
    match value with
    | SStr text =>
        match JSON_parse text with
        | Some parsed => Ok (json_array_includes parsed (cond_value c))
        | None =>
            (* the catch block *)
            match cond_value c with
            | SStr wanted => Ok (includes (toLowerCase text) (toLowerCase wanted))
            | _ => Throw (TypeError "condition.value.toLowerCase is not a function")
            end
        end
    | _ => Ok false
    end
  else Ok false.

(** The loop over the conditions of one row, left at the first condition
    that fails. *)
Fixpoint row_matches (r : row) (conditions : list condition) : result bool :=
  match conditions with
  | [] => Ok true
  | c :: later =>
      ok ← matchesCondition (get r (cond_column c)) c;
      if ok : bool then row_matches r later else Ok false
  end.

Definition executeNaturalLanguageSearch (data : list row) (query : string)
  : result AISearchResult :=
  let parsed := parseNaturalLanguageQuery query in
  matched ← for_each_i
              (fun r index =>
                 matches ← row_matches r (snd parsed);
                 Ok (if matches : bool then [index] else []))
              data 0;
  Ok {| matchedRows := matched;
        query := query;
        explanation := "Found " +:+ nat_to_string (length matched)
                       +:+ " rows matching: " +:+ query |}.

End search.

(** The rows of the search example. *)
Definition duration_rows : list row :=
  [[("duration", SNum (of_nat 3))];
   [("duration", SNum (of_nat 7))];
   [("duration", SStr "10")]].

(** ** Applying suggestions *)

(** An element of a data array: a row, or [undefined] where the array has a
    hole. *)
Abbreviation slot := (option row).

(** [{...x}] of an array element: the properties of a row, none of
    [undefined]. *)
Definition spread (x : option slot) : row :=
  match x with
  | Some (Some r) => r
  | _ => []
  end.

(** [xs[i] = x] for an array index [i] (below [2^32 - 1]): within the array
    the element is replaced; beyond its end the array grows, with holes up
    to [i]. *)
Definition array_set {A} (xs : list (option A)) (i : nat) (x : option A)
  : list (option A) :=
  if (i <? length xs)%nat then <[i := x]> xs
  else xs ++ replicate (i - length xs) None ++ [x].

(** The test [suggestion.autoApply || suggestion.confidence > 0.8]. *)
Definition applies (s : AICorrectionSuggestion) : bool :=
  autoApply s || num_gtb (confidence s) (decimal 8 1).

(** The assignment in the body of the loop. *)
Definition merge (newData : list slot) (s : AICorrectionSuggestion) : list slot :=
  array_set newData (rowIndex s)
    (Some (set (spread (newData !! rowIndex s)) (column s) (suggestedValue s))).

Definition applyAISuggestions (data : list slot) (suggestions : list AICorrectionSuggestion)
  : list slot :=
  let newData := data in
  fold_left (fun newData s => if applies s then merge newData s else newData)
    suggestions newData.

(** *** The same function on a store of objects

    [applyAISuggestions_store] follows the source on a store in which arrays
    and rows are objects with an address: the spread [[...data]] allocates
    the array that is returned, every merge allocates the new row and writes
    its address into that array. *)

Inductive object :=
| ORow (r : row)
| OArray (elems : list (option positive)).

Abbreviation store := (gmap positive object).

Definition alloc (h : store) (o : object) : store * positive :=
  let l := fresh (dom h) in (<[l := o]> h, l).

Definition read_row (h : store) (a : option (option positive)) : row :=
  match a with
  | Some (Some l) => match h !! l with Some (ORow r) => r | _ => [] end
  | _ => []
  end.

Definition merge_store (newData : positive) (h : store) (s : AICorrectionSuggestion)
  : store :=
  match h !! newData with
  | Some (OArray elems) =>
      let '(h1, l) :=
        alloc h (ORow (set (read_row h (elems !! rowIndex s)) (column s) (suggestedValue s))) in
      <[newData := OArray (array_set elems (rowIndex s) (Some l))]> h1
  | _ => h
  end.

Definition applyAISuggestions_store (h : store) (data : positive)
  (suggestions : list AICorrectionSuggestion) : option (store * positive) :=
  match h !! data with
  | Some (OArray elems) =>
      let '(h0, newData) := alloc h (OArray elems) in
      Some (fold_left (fun h s => if applies s then merge_store newData h s else h)
              suggestions h0,
            newData)
  | _ => None
  end.

(** The rows an array of the store holds. *)
Definition read_slot (h : store) (a : option positive) : slot :=
  match a with
  | Some l => match h !! l with Some (ORow r) => Some r | _ => None end
  | None => None
  end.
Definition read_array (h : store) (a : positive) : option (list slot) :=
  match h !! a with
  | Some (OArray elems) => Some (map (read_slot h) elems)
  | _ => None
  end.

(** ** Vocabulary of the statements about [applyAISuggestions] *)

(** A suggestion is accepted when its [autoApply] flag is set or its
    confidence is strictly greater than 0.8. *)
Definition accepted (s : AICorrectionSuggestion) : Prop :=
  autoApply s = true \/ num_ltb (decimal 8 1) (confidence s) = true.

#[global] Instance accepted_dec s : Decision (accepted s).
Proof. unfold accepted. apply _. Defined.

(** An array of the store is well formed when its elements are addresses of
    rows of the store. *)
Definition well_formed (h : store) (a : positive) : Prop :=
  exists elems,
    h !! a = Some (OArray elems)
    /\ forall l, Some l ∈ elems -> exists r, h !! l = Some (ORow r).

(** A suggestion with the given target, value, confidence and flag. *)
Definition suggest (i : nat) (c : string) (v : scalar) (conf : number) (auto : bool)
  : AICorrectionSuggestion :=
  {| type := format_error; rowIndex := i; column := c; currentValue := SUndefined;
     suggestedValue := v; confidence := conf; reason := ""; autoApply := auto |}.

(** Two rows used in the examples. *)
Definition frame_data : list slot :=
  [Some [("email", SStr "a@gmial.com"); ("name", SStr "Ann")];
   Some [("email", SStr "b@x.org"); ("name", SStr "Bob")]].

(** A store that holds the two rows and the array of their addresses. *)
Definition frame_store : store :=
  <[1%positive := OArray [Some 2%positive; Some 3%positive]]>
    (<[2%positive := ORow [("email", SStr "a@gmial.com"); ("name", SStr "Ann")]]>
       (<[3%positive := ORow [("email", SStr "b@x.org"); ("name", SStr "Bob")]]> ∅)).

(** A row with a numeric role and no skills, and a row whose phases are a
    range text. *)
Definition numeric_role_rows : list row :=
  [[("workerid", SStr "W1"); ("role", SNum (of_nat 5)); ("skills", SStr "")]].
Definition range_phase_rows : list row :=
  [[("taskid", SStr "T1"); ("preferredphases", SStr "1-3")]].

(** ** Vocabulary of the statements about the rules and the search *)

(** The cell of a row of the data, [undefined] where the row or the property
    is missing. *)
Definition cell (data : list slot) (i : nat) (k : string) : scalar :=
  get (spread (data !! i)) k.

(** The suggestion is accepted and writes the cell. *)
Definition writes (i : nat) (k : string) (s : AICorrectionSuggestion) : bool :=
  applies s && (rowIndex s =? i)%nat && String.eqb (column s) k.

(** The row index of every accepted suggestion is an array index: below
    [2^32 - 1]. *)
Definition indexed (suggestions : list AICorrectionSuggestion) : Prop :=
  forall s, In s suggestions -> applies s = true ->
    (Z.of_nat (rowIndex s) < 2 ^ 32 - 1)%Z.

(** One more than the largest row index of an accepted suggestion. *)
Definition reach (suggestions : list AICorrectionSuggestion) : nat :=
  fold_right Nat.max 0%nat (map (fun s => S (rowIndex s)) (List.filter applies suggestions)).

(** What every suggestion of the rules satisfies: it points at a row of the
    data and at a header of the first row, and it proposes a change. *)
Definition well_targeted (data : list row) (s : AICorrectionSuggestion) : Prop :=
  rowIndex s < length data
  /\ (exists first rest, data = first :: rest /\ In (column s) (keys first))
  /\ suggestedValue s <> currentValue s.


(** A condition that [matchesCondition] can evaluate on every cell: the
    operator [includes] comes with a string. *)
Definition safe (c : condition) : Prop :=
  operator c <> "includes" \/ is_string (cond_value c) = true.

(** The suggestions of one rule for the row of index [j] and the column
    [col]. *)
Definition rule_output (col : string) (j : nat) (s : AICorrectionSuggestion) : Prop :=
  rowIndex s = j /\ column s = col /\ suggestedValue s <> currentValue s.

(** Two rows with a mistyped mail domain and an unformatted phone number,
    and the suggestions of the rules for them. *)
Definition typo_rows : list row :=
  [[("email", SStr "ann@gmial.com"); ("phone", SStr "5551234567")];
   [("email", SStr "bob@yahoo.com"); ("phone", SStr "(555) 123-4567")]].
Definition typo_suggestions : list AICorrectionSuggestion :=
  match generateAIValidationSuggestions typo_rows "client" with
  | Ok suggestions => suggestions
  | Throw _ => []
  end.

End AiEngine.

(* ===================================================================== *)
(** * The validator, [src/unnamed/part_003] *)
(* ===================================================================== *)

Module Validation.
Import Js.

Inductive error_type := error | warning | info.
Inductive severity_level := high | medium | low.

Record ValidationError := {
  type : error_type;
  message : string;
  rowIndex : option nat;
  column : option string;
  value : option scalar;
  severity : severity_level
}.

(** ** Helper functions for data parsing *)

(** [for (let i = start; i <= end; i++) phases.push(i)] for finite bounds. *)
Definition for_range (a b : number) : list number :=
  match a, b with
  | Fin x, Fin y =>
      map (fun k => num_add a (of_nat k)) (seq 0 (Z.to_nat (Qfloor (y - x) + 1)))
  | _, _ => []
  end.

(** [parsePhaseRange] of the validator.  A cell is a scalar, so the branch
    for a value that is already an array is not taken. *)
Definition parsePhaseRange (value : scalar) : list number :=
  if negb (truthy value) then []
  else
    match value with
    | SStr text =>
        (* Handle range syntax like "1-3" or "2-4,6" *)
        flat_map
          (fun part =>
             let trimmed := trim part in
             if includes trimmed "-" then
               let bounds := map (fun s => parseInt (trim s)) (split trimmed "-") in
               let start := nth 0 bounds NaN in
               let end_ := nth 1 bounds NaN in
               if negb (isNaN start) && negb (isNaN end_) && num_leb start end_
               then for_range start end_
               else []
             else
               let num := parseInt trimmed in
               if negb (isNaN num) then [num] else [])
          (split text ",")
    | _ => []
    end.

(** Helper function to find column by pattern. *)
Fixpoint findColumnByPattern_loop (headers patterns : list string) : option string :=
  match patterns with
  | [] => None
  | pattern :: later =>
      match List.find (fun header => includes (toLowerCase header) (toLowerCase pattern))
              headers with
      | Some found =>
          if truthy (SStr found) then Some found
          else findColumnByPattern_loop headers later
      | None => findColumnByPattern_loop headers later
      end
  end.

Definition findColumnByPattern (data : list row) (patterns : list string) : option string :=
  match data with
  | [] => None
  | first :: _ => findColumnByPattern_loop (keys first) patterns
  end.

(** [xs.map((x, index) => (x, index))] *)
Fixpoint indexed_from {A} (xs : list A) (i : nat) : list (A * nat) :=
  match xs with
  | [] => []
  | x :: t => (x, i) :: indexed_from t (S i)
  end.
Definition indexed {A} (xs : list A) : list (A * nat) := indexed_from xs 0.

(** [ids.indexOf(id)]; [None] stands for [-1]. *)
Fixpoint indexOf (ids : list scalar) (id : scalar) : option nat :=
  match ids with
  | [] => None
  | x :: t => if strict_eq x id then Some 0%nat else S <$> indexOf t id
  end.

Definition same_index (found : option nat) (index : nat) : bool :=
  match found with
  | Some i => (i =? index)%nat
  | None => false
  end.

(** ** The duplicate-identifier rules

    [duplicate_client_ids], [duplicate_worker_ids] and [duplicate_task_ids]
    have the same body, up to the patterns of the id column and the label of
    the message. *)
Section duplicates.
Context `{Host}.

Definition duplicate_ids (patterns : list string) (label : string)
  (data : list row) (entityType : string) : list ValidationError :=
  match findColumnByPattern data patterns with
  | None => []
  | Some idColumn =>
      let ids :=
        List.filter
          (fun id => negb (strict_eq id SUndefined) && negb (strict_eq id (SStr "")))
          (map (fun r => get r idColumn) data) in
      let duplicates :=
        map fst
          (List.filter (fun '(id, index) => negb (same_index (indexOf ids id) index))
             (indexed ids)) in
      flat_map
        (fun duplicateId =>
           let duplicateRows :=
             List.filter (fun '(r, _) => strict_eq (get r idColumn) duplicateId)
               (indexed data) in
           map (fun '(_, index) =>
                  {| type := error;
                     message := label +:+ to_string duplicateId;
                     rowIndex := Some index;
                     column := Some idColumn;
                     value := Some duplicateId;
                     severity := high |})
             duplicateRows)
        duplicates
  end.

Definition duplicate_client_ids : list row -> string -> list ValidationError :=
  duplicate_ids ["clientid"; "client_id"; "id"] "Duplicate ClientID: ".
Definition duplicate_worker_ids : list row -> string -> list ValidationError :=
  duplicate_ids ["workerid"; "worker_id"; "id"] "Duplicate WorkerID: ".
Definition duplicate_task_ids : list row -> string -> list ValidationError :=
  duplicate_ids ["taskid"; "task_id"; "id"] "Duplicate TaskID: ".

End duplicates.

(** ** The rule [preferred_phases_format] *)
Definition preferred_phases_format (data : list row) (entityType : string)
  : list ValidationError :=
  match findColumnByPattern data ["preferredphases"; "preferred_phases"; "phases"] with
  | None => []
  | Some phasesColumn =>
      flat_map
        (fun '(r, index) =>
           let phases := get r phasesColumn in
           if truthy phases && negb (strict_eq phases (SStr "")) then
             let phaseList := parsePhaseRange phases in
             if (length phaseList =? 0)%nat
             then [{| type := warning;
                      message := "PreferredPhases should contain valid phase numbers or ranges";
                      rowIndex := Some index;
                      column := Some phasesColumn;
                      value := Some phases;
                      severity := medium |}]
             else []
           else [])
        (indexed data)
  end.

(** ** The other helper functions for data parsing *)

(** [parseCommaSeparated].  A cell is a scalar, so the branch for a value
    that is already an array is not taken. *)
Definition parseCommaSeparated (value : scalar) : list string :=
  if negb (truthy value) then []
  else
    match value with
    | SStr text =>
        List.filter (fun s => (0 <? String.length s)%nat) (map trim (split text ","))
    | _ => []
    end.

(** [parsed === null] *)
Definition is_null (parsed : json) : bool :=
  match parsed with JScalar SNull => true | _ => false end.

(** [value !== undefined && value !== ''], the guard of the rules on one
    cell. *)
Definition present (value : scalar) : bool :=
  negb (strict_eq value SUndefined) && negb (strict_eq value (SStr "")).

(** [typeof x === 'number' ? x : parseInt(x)] *)
Definition number_of (x : scalar) : number :=
  match x with SNum n => n | _ => parseInt_value x end.

(** An error of a rule on the cell [value] of the row [index]. *)
Definition cell_error (t : error_type) (msg : string) (index : nat) (col : string)
  (v : scalar) (s : severity_level) : ValidationError :=
  {| type := t; message := msg; rowIndex := Some index; column := Some col;
     value := Some v; severity := s |}.

(** ** The rules on the columns and on single cells *)

(** [required_columns] of the three entities has one body, up to the list
    of the required columns. *)
Definition required_columns (requiredColumns : list string)
  (data : list row) (entityType : string) : list ValidationError :=
  match data with
  | [] => []
  | first :: _ =>
      let headers := keys first in
      let missingColumns :=
        List.filter
          (fun col =>
             negb (existsb (fun header => includes (toLowerCase header) (toLowerCase col))
                     headers))
          requiredColumns in
      if (0 <? length missingColumns)%nat
      then [{| type := error;
               message := "Missing required columns: " +:+ join ", " missingColumns;
               rowIndex := None; column := None; value := None; severity := high |}]
      else []
  end.

Definition priority_level_validation (data : list row) (entityType : string)
  : list ValidationError :=
  match findColumnByPattern data ["prioritylevel"; "priority_level"; "priority"] with
  | None => []
  | Some priorityColumn =>
      flat_map
        (fun '(r, index) =>
           let priority := get r priorityColumn in
           if present priority then
             let priorityNum := number_of priority in
             if isNaN priorityNum || num_ltb priorityNum (of_nat 1)
                || num_gtb priorityNum (of_nat 5)
             then [cell_error error "PriorityLevel must be between 1 and 5" index
                     priorityColumn priority medium]
             else []
           else [])
        (indexed data)
  end.

(** [max_load_validation], [duration_validation] and
    [max_concurrent_validation] have the same body, up to the patterns of
    the column and the message. *)
Definition at_least_one (patterns : list string) (msg : string)
  (data : list row) (entityType : string) : list ValidationError :=
  match findColumnByPattern data patterns with
  | None => []
  | Some col =>
      flat_map
        (fun '(r, index) =>
           let x := get r col in
           if present x then
             let num := number_of x in
             if isNaN num || num_ltb num (of_nat 1)
             then [cell_error error msg index col x medium]
             else []
           else [])
        (indexed data)
  end.

Definition max_load_validation : list row -> string -> list ValidationError :=
  at_least_one ["maxloadperphase"; "max_load_per_phase"; "maxload"]
    "MaxLoadPerPhase must be >= 1".
Definition duration_validation : list row -> string -> list ValidationError :=
  at_least_one ["duration"] "Duration must be >= 1".
Definition max_concurrent_validation : list row -> string -> list ValidationError :=
  at_least_one ["maxconcurrent"; "max_concurrent"; "concurrent"]
    "MaxConcurrent must be >= 1".

(** [requested_tasks_format], [skills_format] and [required_skills_format]
    have the same body, up to the patterns of the column and the message. *)
Definition comma_separated_format (patterns : list string) (msg : string)
  (data : list row) (entityType : string) : list ValidationError :=
  match findColumnByPattern data patterns with
  | None => []
  | Some col =>
      flat_map
        (fun '(r, index) =>
           let x := get r col in
           if truthy x && negb (strict_eq x (SStr "")) then
             let items := parseCommaSeparated x in
             if (length items =? 0)%nat
             then [cell_error warning msg index col x medium]
             else []
           else [])
        (indexed data)
  end.

Definition requested_tasks_format : list row -> string -> list ValidationError :=
  comma_separated_format ["requestedtaskids"; "requested_task_ids"; "requestedtasks"]
    "RequestedTaskIDs should contain valid task IDs".
Definition skills_format : list row -> string -> list ValidationError :=
  comma_separated_format ["skills"] "Skills should contain valid skill tags".
Definition required_skills_format : list row -> string -> list ValidationError :=
  comma_separated_format ["requiredskills"; "required_skills"; "skills"]
    "RequiredSkills should contain valid skill tags".

(** [qualification_level_validation] and [category_validation] have the
    same body, up to the patterns of the column and the message. *)
Definition valid_string (patterns : list string) (msg : string)
  (data : list row) (entityType : string) : list ValidationError :=
  match findColumnByPattern data patterns with
  | None => []
  | Some col =>
      flat_map
        (fun '(r, index) =>
           let x := get r col in
           if present x then
             if match x with
                | SStr s => (String.length (trim s) =? 0)%nat
                | _ => true
                end
             then [cell_error warning msg index col x low]
             else []
           else [])
        (indexed data)
  end.

Definition qualification_level_validation : list row -> string -> list ValidationError :=
  valid_string ["qualificationlevel"; "qualification_level"; "qualification"]
    "QualificationLevel should be a valid string".
Definition category_validation : list row -> string -> list ValidationError :=
  valid_string ["category"] "Category should be a valid string".

Section json_rules.
Context `{Host}.

(** [parseJSON].  A cell is a scalar, so the branch for a value that is
    already an object is not taken. *)
Definition parseJSON (value : scalar) : json :=
  if negb (truthy value) then JScalar SNull
  else
    match value with
    | SStr text =>
        match JSON_parse text with
        | Some parsed => parsed
        | None => JScalar SNull
        end
    | _ => JScalar SNull
    end.

Definition attributes_json_validation (data : list row) (entityType : string)
  : list ValidationError :=
  match findColumnByPattern data ["attributesjson"; "attributes_json"; "attributes"] with
  | None => []
  | Some attributesColumn =>
      flat_map
        (fun '(r, index) =>
           let attributes := get r attributesColumn in
           if truthy attributes && negb (strict_eq attributes (SStr "")) then
             let parsed := parseJSON attributes in
             if is_null parsed
             then [cell_error error "AttributesJSON must be valid JSON" index
                     attributesColumn attributes medium]
             else []
           else [])
        (indexed data)
  end.

(** [typeof slot === 'number' && slot > 0] on an item of a parsed array. *)
Definition positive_item (item : json) : bool :=
  match item with
  | JScalar (SNum n) => num_gtb n (of_nat 0)
  | _ => false
  end.

(** [JSON.parse(x)] of a cell: the text of the cell is parsed. *)
Definition JSON_parse_value (x : scalar) : option json := JSON_parse (to_string x).

Definition available_slots_format (data : list row) (entityType : string)
  : list ValidationError :=
  match findColumnByPattern data ["availableslots"; "available_slots"; "slots"] with
  | None => []
  | Some slotsColumn =>
      flat_map
        (fun '(r, index) =>
           let slots := get r slotsColumn in
           if truthy slots then
             match JSON_parse_value slots with
             | Some slotsArray =>
                 if match slotsArray with
                    | JArray items => negb (forallb positive_item items)
                    | _ => true
                    end
                 then [cell_error error "AvailableSlots must be an array of positive numbers"
                         index slotsColumn slots medium]
                 else []
             | None =>
                 (* the catch block *)
                 [cell_error error "AvailableSlots must be a valid JSON array of numbers"
                    index slotsColumn slots medium]
             end
           else [])
        (indexed data)
  end.

End json_rules.

(** ** Cross-entity validation rules *)

Record CrossEntityData := {
  clients : option (list row);
  workers : option (list row);
  tasks : option (list row)
}.

(** The [value] of an error: the cell, for a rule on cells; the missing ids
    or skills and the two counts, for the cross-entity rules. *)
Inductive reported :=
| Cell (v : scalar)
| Strings (l : list string)
| Concurrency (maxConcurrent : number) (qualifiedWorkers : nat).

(** A [ValidationError] with any of these values. *)
Record Finding := {
  f_type : error_type;
  f_message : string;
  f_rowIndex : option nat;
  f_column : option string;
  f_value : option reported;
  f_severity : severity_level
}.

Definition finding_of (e : ValidationError) : Finding :=
  {| f_type := type e; f_message := message e; f_rowIndex := rowIndex e;
     f_column := column e; f_value := Cell <$> value e; f_severity := severity e |}.

(** [set.has(s)] for a string [s]. *)
Definition has_string (xs : list scalar) (s : string) : bool :=
  existsb (fun y => strict_eq y (SStr s)) xs.

Definition client_task_references (data : list row) (entityType : string)
  (crossEntityData : option CrossEntityData) : list Finding :=
  match crossEntityData ≫= tasks with
  | None => []
  | Some ts =>
      if negb (String.eqb entityType "client") then []
      else
        match findColumnByPattern data
                ["requestedtaskids"; "requested_task_ids"; "requestedtasks"] with
        | None => []
        | Some tasksColumn =>
            let existingTaskIds :=
              List.filter
                (fun id => negb (strict_eq id SNull) && negb (strict_eq id (SStr "")))
                (map (fun task =>
                        match findColumnByPattern ts ["taskid"; "task_id"; "id"] with
                        | Some idColumn => get task idColumn
                        | None => SNull
                        end) ts) in
            flat_map
              (fun '(r, index) =>
                 let requestedTasks := get r tasksColumn in
                 if truthy requestedTasks then
                   let taskIds := parseCommaSeparated requestedTasks in
                   let missingTasks :=
                     List.filter (fun taskId => negb (has_string existingTaskIds taskId))
                       taskIds in
                   if (0 <? length missingTasks)%nat
                   then [{| f_type := error;
                            f_message := "RequestedTaskIDs reference non-existent tasks: "
                                         +:+ join ", " missingTasks;
                            f_rowIndex := Some index;
                            f_column := Some tasksColumn;
                            f_value := Some (Strings missingTasks);
                            f_severity := high |}]
                   else []
                 else [])
              (indexed data)
        end
  end.

(** The skills of a worker, read from the skills column of the workers. *)
Definition worker_skills (ws : list row) (worker : row) : option (list string) :=
  match findColumnByPattern ws ["skills"] with
  | Some workerSkillsColumn => Some (parseCommaSeparated (get worker workerSkillsColumn))
  | None => None
  end.

Definition task_worker_skill_coverage (data : list row) (entityType : string)
  (crossEntityData : option CrossEntityData) : list Finding :=
  match crossEntityData ≫= workers with
  | None => []
  | Some ws =>
      if negb (String.eqb entityType "task") then []
      else
        match findColumnByPattern data ["requiredskills"; "required_skills"; "skills"] with
        | None => []
        | Some skillsColumn =>
            (* Collect all worker skills *)
            let allWorkerSkills :=
              flat_map (fun worker => map toLowerCase (default [] (worker_skills ws worker)))
                ws in
            flat_map
              (fun '(r, index) =>
                 let requiredSkills := get r skillsColumn in
                 if truthy requiredSkills then
                   let skillList := parseCommaSeparated requiredSkills in
                   let missingSkills :=
                     List.filter
                       (fun skill =>
                          negb (existsb (String.eqb (toLowerCase skill)) allWorkerSkills))
                       skillList in
                   if (0 <? length missingSkills)%nat
                   then [{| f_type := error;
                            f_message := "RequiredSkills not covered by any worker: "
                                         +:+ join ", " missingSkills;
                            f_rowIndex := Some index;
                            f_column := Some skillsColumn;
                            f_value := Some (Strings missingSkills);
                            f_severity := high |}]
                   else []
                 else [])
              (indexed data)
        end
  end.

(** An object whose keys are numbers, in the order in which the keys were
    added.  The key of the source is the rendering of the number, which
    determines the number. *)
Abbreviation counters := (list (number * number)).

(** [x || 0] on a number. *)
Definition or_zero (x : number) : number := if truthy (SNum x) then x else of_nat 0.

(** [o[k] || 0] *)
Fixpoint counter (o : counters) (k : number) : number :=
  match o with
  | [] => of_nat 0
  | (k', v) :: t => if num_eqb k' k then or_zero v else counter t k
  end.

(** [o[k] = (o[k] || 0) + d] *)
Fixpoint bump (o : counters) (k d : number) : counters :=
  match o with
  | [] => [(k, num_add (of_nat 0) d)]
  | (k', v) :: t =>
      if num_eqb k' k then (k', num_add (or_zero v) d) :: t else (k', v) :: bump t k d
  end.

(** An array index: an integer from 0 to 2^32 - 2. *)
Definition is_array_index (k : number) : bool :=
  match k with
  | Fin q =>
      Qeq_bool q (inject_Z (Qfloor q)) && (0 <=? Qfloor q)%Z && (Qfloor q <=? 4294967294)%Z
  | _ => false
  end.

Fixpoint insert_by_key (e : number * number) (l : counters) : counters :=
  match l with
  | [] => [e]
  | e' :: t => if num_ltb (fst e') (fst e) then e' :: insert_by_key e t else e :: l
  end.

(** [Object.entries(o)]: the keys that are array indices in ascending order,
    then the other keys in the order in which they were added. *)
Definition entries (o : counters) : counters :=
  fold_right insert_by_key [] (List.filter (fun e => is_array_index (fst e)) o)
  ++ List.filter (fun e => negb (is_array_index (fst e))) o.

Section cross_rules.
Context `{Host}.

Definition phase_slot_saturation (data : list row) (entityType : string)
  (crossEntityData : option CrossEntityData) : list Finding :=
  match crossEntityData ≫= workers with
  | None => []
  | Some ws =>
      if negb (String.eqb entityType "task") then []
      else
        match findColumnByPattern data ["duration"],
              findColumnByPattern data ["preferredphases"; "preferred_phases"; "phases"] with
        | Some durationColumn, Some phasesColumn =>
            (* Calculate total worker slots per phase *)
            let phaseSlots :=
              fold_left
                (fun (phaseSlots : counters) worker =>
                   match findColumnByPattern ws
                           ["availableslots"; "available_slots"; "slots"] with
                   | Some slotsColumn =>
                       match JSON_parse_value (get worker slotsColumn) with
                       | Some (JArray slots) =>
                           fold_left
                             (fun (phaseSlots : counters) phase =>
                                match phase with
                                | JScalar (SNum n) =>
                                    if num_gtb n (of_nat 0)
                                    then bump phaseSlots n (of_nat 1)
                                    else phaseSlots
                                | _ => phaseSlots
                                end)
                             slots phaseSlots
                       | _ => phaseSlots  (* not an array, or the catch block *)
                       end
                   | None => phaseSlots
                   end)
                ws [] in
            (* Calculate task workload per phase *)
            let phaseWorkload :=
              fold_left
                (fun (phaseWorkload : counters) r =>
                   let duration := get r durationColumn in
                   let phases := get r phasesColumn in
                   if truthy duration && truthy phases then
                     let durationNum := number_of duration in
                     let phaseList := parsePhaseRange phases in
                     if negb (isNaN durationNum) && (0 <? length phaseList)%nat
                     then fold_left (fun o phase => bump o phase durationNum)
                            phaseList phaseWorkload
                     else phaseWorkload
                   else phaseWorkload)
                data [] in
            (* Check for saturation *)
            flat_map
              (fun '(key, workload) =>
                 let phase := number_to_string key in
                 let phaseNum := parseInt phase in
                 let availableSlots := counter phaseSlots phaseNum in
                 if num_gtb workload (num_mul availableSlots (of_nat 2))
                 then [{| f_type := warning;
                          f_message := "Phase " +:+ phase +:+ " may be overloaded: "
                                       +:+ number_to_string workload +:+ " workload vs "
                                       +:+ number_to_string availableSlots
                                       +:+ " available slots";
                          f_rowIndex := None;
                          f_column := None;
                          f_value := None;
                          f_severity := medium |}]
                 else [])
              (entries phaseWorkload)
        | _, _ => []
        end
  end.

Definition max_concurrency_feasibility (data : list row) (entityType : string)
  (crossEntityData : option CrossEntityData) : list Finding :=
  match crossEntityData ≫= workers with
  | None => []
  | Some ws =>
      if negb (String.eqb entityType "task") then []
      else
        match findColumnByPattern data ["maxconcurrent"; "max_concurrent"; "concurrent"],
              findColumnByPattern data ["requiredskills"; "required_skills"; "skills"] with
        | Some maxConcurrentColumn, Some skillsColumn =>
            flat_map
              (fun '(r, index) =>
                 let maxConcurrent := get r maxConcurrentColumn in
                 let requiredSkills := get r skillsColumn in
                 if truthy maxConcurrent && truthy requiredSkills then
                   let maxConcurrentNum := number_of maxConcurrent in
                   let skillList := parseCommaSeparated requiredSkills in
                   if negb (isNaN maxConcurrentNum) && (0 <? length skillList)%nat then
                     (* Count qualified workers *)
                     let qualifiedWorkers :=
                       length
                         (List.filter
                            (fun worker =>
                               match worker_skills ws worker with
                               | Some workerSkills =>
                                   forallb
                                     (fun skill =>
                                        existsb
                                          (fun ws =>
                                             String.eqb (toLowerCase ws) (toLowerCase skill))
                                          workerSkills)
                                     skillList
                               | None => false
                               end)
                            ws) in
                     if num_gtb maxConcurrentNum (of_nat qualifiedWorkers)
                     then [{| f_type := warning;
                              f_message := "MaxConcurrent (" +:+ number_to_string maxConcurrentNum
                                           +:+ ") exceeds qualified workers ("
                                           +:+ nat_to_string qualifiedWorkers +:+ ")";
                              f_rowIndex := Some index;
                              f_column := Some maxConcurrentColumn;
                              f_value := Some (Concurrency maxConcurrentNum qualifiedWorkers);
                              f_severity := medium |}]
                     else []
                   else []
                 else [])
              (indexed data)
        | _, _ => []
        end
  end.

(** ** The rule tables and [validateData] *)

Record ValidationRule := {
  rule_name : string;
  validate : list row -> string -> option CrossEntityData -> list Finding;
  rule_description : string
}.

(** A rule of an entity: it does not read the cross-entity data. *)
Definition entity_rule (n d : string) (v : list row -> string -> list ValidationError)
  : ValidationRule :=
  {| rule_name := n;
     validate := fun data entityType _ => map finding_of (v data entityType);
     rule_description := d |}.

Definition client_rules : list ValidationRule :=
  [ entity_rule "required_columns" "Check for missing required columns"
      (required_columns ["clientid"; "clientname"; "prioritylevel"]);
    entity_rule "duplicate_client_ids" "Check for duplicate ClientIDs" duplicate_client_ids;
    entity_rule "priority_level_validation" "Validate PriorityLevel is between 1-5"
      priority_level_validation;
    entity_rule "requested_tasks_format" "Validate RequestedTaskIDs format (comma-separated)"
      requested_tasks_format;
    entity_rule "attributes_json_validation" "Validate AttributesJSON format"
      attributes_json_validation ].

Definition worker_rules : list ValidationRule :=
  [ entity_rule "required_columns" "Check for missing required columns"
      (required_columns
         ["workerid"; "workername"; "skills"; "availableslots"; "maxloadperphase"]);
    entity_rule "duplicate_worker_ids" "Check for duplicate WorkerIDs" duplicate_worker_ids;
    entity_rule "skills_format" "Validate Skills format (comma-separated)" skills_format;
    entity_rule "available_slots_format"
      "Validate AvailableSlots format (array of phase numbers)" available_slots_format;
    entity_rule "max_load_validation" "Validate MaxLoadPerPhase is positive"
      max_load_validation;
    entity_rule "qualification_level_validation" "Validate QualificationLevel format"
      qualification_level_validation ].

Definition task_rules : list ValidationRule :=
  [ entity_rule "required_columns" "Check for missing required columns"
      (required_columns
         ["taskid"; "taskname"; "duration"; "requiredskills"; "preferredphases";
          "maxconcurrent"]);
    entity_rule "duplicate_task_ids" "Check for duplicate TaskIDs" duplicate_task_ids;
    entity_rule "duration_validation" "Validate Duration is >= 1" duration_validation;
    entity_rule "required_skills_format" "Validate RequiredSkills format (comma-separated)"
      required_skills_format;
    entity_rule "preferred_phases_format" "Validate PreferredPhases format (range or list)"
      preferred_phases_format;
    entity_rule "max_concurrent_validation" "Validate MaxConcurrent is positive"
      max_concurrent_validation;
    entity_rule "category_validation" "Validate Category format" category_validation ].

(** The descriptions of the second, third and fourth rule are written in
    the source with the signs for "at least" and "at most", which are spelt
    out here. *)
Definition crossEntityValidationRules : list ValidationRule :=
  [ {| rule_name := "client_task_references";
       validate := client_task_references;
       rule_description := "Check if RequestedTaskIDs reference existing tasks" |};
    {| rule_name := "task_worker_skill_coverage";
       validate := task_worker_skill_coverage;
       rule_description := "Check if every RequiredSkill maps to at least 1 worker" |};
    {| rule_name := "phase_slot_saturation";
       validate := phase_slot_saturation;
       rule_description :=
         "Check if sum of task durations per phase is at most total worker slots" |};
    {| rule_name := "max_concurrency_feasibility";
       validate := max_concurrency_feasibility;
       rule_description :=
         "Check if MaxConcurrent is at most count of qualified, available workers" |} ].

(** The names every object inherits: [validationRules[entityType]] is then
    not an array, and the call of its [forEach] throws. *)
Definition inherited_names : list string :=
  ["constructor"; "__defineGetter__"; "__defineSetter__"; "hasOwnProperty";
   "__lookupGetter__"; "__lookupSetter__"; "isPrototypeOf"; "propertyIsEnumerable";
   "toString"; "valueOf"; "__proto__"; "toLocaleString"].

(** [validationRules[entityType] || []] *)
Definition validationRules (entityType : string) : result (list ValidationRule) :=
  if String.eqb entityType "client" then Ok client_rules
  else if String.eqb entityType "worker" then Ok worker_rules
  else if String.eqb entityType "task" then Ok task_rules
  else if existsb (String.eqb entityType) inherited_names
  then Throw (TypeError "entityRules.forEach is not a function")
  else Ok [].

Record Summary := {
  totalErrors : nat;
  totalWarnings : nat;
  errorTypes : list (string * nat);
  affectedRows : list nat
}.

Record ValidationResult := {
  errors : list Finding;
  summary : Summary
}.

(** [errorTypes[m] = (errorTypes[m] || 0) + 1] *)
Fixpoint count_message (errorTypes : list (string * nat)) (m : string)
  : list (string * nat) :=
  match errorTypes with
  | [] => [(m, 1%nat)]
  | (m', n) :: t =>
      if String.eqb m' m then (m', S n) :: t else (m', n) :: count_message t m
  end.

(** [set.add(i)] on a set of numbers, kept in the order of its insertions. *)
Definition set_add (s : list nat) (i : nat) : list nat :=
  if existsb (Nat.eqb i) s then s else s ++ [i].

Fixpoint insert_sorted (i : nat) (l : list nat) : list nat :=
  match l with
  | [] => [i]
  | j :: t => if (i <=? j)%nat then i :: l else j :: insert_sorted i t
  end.

(** [xs.sort((a, b) => a - b)] *)
Definition sort_numbers (xs : list nat) : list nat := fold_right insert_sorted [] xs.

Definition is_type (t : error_type) (e : Finding) : bool :=
  match f_type e, t with
  | error, error | warning, warning | info, info => true
  | _, _ => false
  end.

(** The part of [validateData] that follows the rules. *)
Definition summarize (allErrors : list Finding) : ValidationResult :=
  let '(errorTypes, affectedRows) :=
    fold_left
      (fun '(errorTypes, affectedRows) e =>
         (count_message errorTypes (f_message e),
          match f_rowIndex e with
          | Some i => set_add affectedRows i
          | None => affectedRows
          end))
      allErrors ([], []) in
  {| errors := allErrors;
     summary :=
       {| totalErrors := length (List.filter (is_type error) allErrors);
          totalWarnings := length (List.filter (is_type warning) allErrors);
          errorTypes := errorTypes;
          affectedRows := sort_numbers affectedRows |} |}.

(** Main validation function. *)
Definition validateData (data : list row) (entityType : string)
  (crossEntityData : option CrossEntityData) : result ValidationResult :=
  (* Run entity-specific validations *)
  entityRules ← validationRules entityType;
  let allErrors :=
    flat_map (fun rule => validate rule data entityType crossEntityData) entityRules in
  (* Run cross-entity validations *)
  let allErrors :=
    allErrors
    ++ flat_map (fun rule => validate rule data entityType crossEntityData)
         crossEntityValidationRules in
  (* Generate summary *)
  Ok (summarize allErrors).

End cross_rules.

(** Function to get errors for a specific row. *)
Definition getRowErrors (errors : list Finding) (rowIndex : nat) : list Finding :=
  List.filter (fun e => bool_decide (f_rowIndex e = Some rowIndex)) errors.

(** Function to get errors for a specific cell. *)
Definition getCellErrors (errors : list Finding) (rowIndex : nat) (column : string)
  : list Finding :=
  List.filter
    (fun e => bool_decide (f_rowIndex e = Some rowIndex) && bool_decide (f_column e = Some column))
    errors.

(** ** Vocabulary of the statements about the duplicate rules *)

(** The number of values of [vals] that are [===] to [v]. *)
Definition occurrences (v : scalar) (vals : list scalar) : nat :=
  length (List.filter (fun x => strict_eq x v) vals).

(** The number of errors that carry the row index [i]. *)
Definition errors_at (i : nat) (errors : list ValidationError) : nat :=
  length (List.filter (fun e => bool_decide (rowIndex e = Some i)) errors).

(** The list [duplicates] of the rules, read from left to right: a value is
    kept when an earlier value is [===] to it (or when it is not [===] to
    itself, like NaN). *)
Fixpoint later_occurrences (seen ids : list scalar) : list scalar :=
  match ids with
  | [] => []
  | x :: t =>
      (if existsb (fun y => strict_eq y x) seen || negb (strict_eq x x) then [x] else [])
      ++ later_occurrences (seen ++ [x]) t
  end.

(** The rows of the examples. *)
Definition client (id name : string) : row :=
  [("clientid", SStr id); ("clientname", SStr name); ("prioritylevel", SNum (of_nat 1))].
Definition three_same_ids : list row :=
  [client "C1" "Ann"; client "C1" "Bob"; client "C1" "Cy"].
Definition two_same_ids : list row :=
  [client "C1" "Ann"; client "C2" "Bob"; client "C1" "Cy"].
Definition task_row (id : string) : row :=
  [("taskid", SStr id); ("taskname", SStr "t")].

(** ** Vocabulary of the statements about [validateData] *)

(** What every error of the rules satisfies on the data it was computed
    from: it is an error or a warning, its row index is an index of the data
    and its column is a header of the first row, which is not empty. *)
Definition sound_finding (data : list row) (e : Finding) : Prop :=
  f_type e <> info
  /\ (forall i, f_rowIndex e = Some i -> i < length data)
  /\ (forall c, f_column e = Some c ->
        c <> "" /\ exists first rest, data = first :: rest /\ In c (keys first)).

(** The count of a message in [errorTypes]. *)
Fixpoint message_count (errorTypes : list (string * nat)) (m : string) : nat :=
  match errorTypes with
  | [] => 0
  | (m', n) :: t => if String.eqb m' m then n else message_count t m
  end.

(** A phase is an integer that is not negative. *)
Definition is_phase (p : number) : Prop := exists z, (0 <= z)%Z /\ p = of_Z z.

(** A cell that holds no text of more than eight characters, and the data of
    such cells.  The numbers that [parseInt] reads in such a text are below
    [2^32]: they are doubles, the sums of the loop of [parsePhaseRange] are
    exact, and the loop is short. *)
Definition short_cell (value : scalar) : Prop :=
  forall text, value = SStr text -> String.length text <= 8.

(** The errors of a rule that reads one column, cell by cell. *)
Definition on_cell (col : string) (index : nat) (e : Finding) : Prop :=
  f_type e <> info /\ f_rowIndex e = Some index /\ f_column e = Some col.

End Validation.

(* ===================================================================== *)
(** * [src/lib/naturalLanguageRuleConverter.ts] *)
(* ===================================================================== *)

Module RuleConverter.
Import Js.

Record NaturalLanguageRule := {
  text : string
}.

(** The data the converter is given: the three collections, each optional. *)
Record dataset := {
  clients : option (list row);
  workers : option (list row);
  tasks : option (list row)
}.

Inductive rule_type :=
| coRun | slotRestriction | loadLimit | phaseWindow | patternMatch | precedenceOverride.

Inductive parameters :=
| CoRunParams (tasks : list scalar) (description : string)
| SlotRestrictionParams (groupType groupName : string) (minCommonSlots : number)
    (description : string)
| LoadLimitParams (workerGroup : string) (maxSlotsPerPhase : number) (description : string)
| PhaseWindowParams (taskId : scalar) (allowedPhases : list number) (description : string)
| PatternMatchParams (regex ruleTemplate requiredSkill : string) (minWorkers : number)
    (description : string)
| PrecedenceOverrideParams (description : string).

Record validation_info := {
  canApply : bool;
  reason : string;
  suggestions : list string
}.

Record ParsedRule := {
  type : rule_type;
  confidence : number;
  params : parameters;
  validation : validation_info
}.

(** ** Natural language patterns for rule detection *)

Definition any_of (l : list string) : regex := ralt (map rstr l).
Definition lazy_text (i : nat) : regex := RGroup i (rplus_lazy RAny).  (* (.+?) *)
Definition greedy_text (i : nat) : regex := RGroup i (rplus RAny).    (* (.+)  *)
Definition digits (i : nat) : regex := RGroup i (rplus digit).        (* (\d+) *)
Definition tasks_or_work : regex := ralt [rseq [rstr "task"; ropt (RChr "s")]; rstr "work"].
Definition sp : regex := rplus ws.                                   (* \s+ *)
Definition opt_word (w : string) : regex := ropt (rseq [rstr w; sp]). (* (?:w\s+)? *)
Definition slots_word : regex := rseq [rstr "slot"; ropt (RChr "s")]. (* slots? *)
Definition phases_word : regex :=                                   (* (?:phases?|phase) *)
  ralt [rseq [rstr "phase"; ropt (RChr "s")]; rstr "phase"].
Definition colon : regex := rseq [rstar ws; RChr ":"; rstar ws].      (* \s*:\s* *)

Definition coRunPatterns : list regex :=
  [ (* /(?:tasks?|work)\s+(.+?)\s+(?:must|should|need to)\s+(?:run|execute|work)\s+together/gi *)
    rseq [tasks_or_work; sp; lazy_text 1; sp; any_of ["must"; "should"; "need to"]; sp;
          any_of ["run"; "execute"; "work"]; sp; rstr "together"];
    (* /(?:co-run|co run|concurrent)\s+(?:tasks?|work)\s+(.+)/gi *)
    rseq [any_of ["co-run"; "co run"; "concurrent"]; sp; tasks_or_work; sp; greedy_text 1];
    (* /(?:tasks?|work)\s+(.+?)\s+(?:are|is)\s+(?:always|usually)\s+(?:run|executed)\s+together/gi *)
    rseq [tasks_or_work; sp; lazy_text 1; sp; any_of ["are"; "is"]; sp;
          any_of ["always"; "usually"]; sp; any_of ["run"; "executed"]; sp; rstr "together"];
    (* /(?:group|bundle)\s+(?:tasks?|work)\s+(.+)/gi *)
    rseq [any_of ["group"; "bundle"]; sp; tasks_or_work; sp; greedy_text 1] ].

Definition slotRestrictionPatterns : list regex :=
  [ (* /(?:client|worker)\s+(?:group\s+)?(.+?)\s+(?:must|should|need to)\s+have\s+(?:at least\s+)?(\d+)\s+(?:common\s+)?slots?/gi *)
    rseq [any_of ["client"; "worker"]; sp; opt_word "group"; lazy_text 1; sp;
          any_of ["must"; "should"; "need to"]; sp; rstr "have"; sp; opt_word "at least";
          digits 2; sp; opt_word "common"; slots_word];
    (* /(?:minimum|min)\s+(\d+)\s+(?:common\s+)?slots?\s+for\s+(?:client|worker)\s+(?:group\s+)?(.+)/gi *)
    rseq [any_of ["minimum"; "min"]; sp; digits 1; sp; opt_word "common"; slots_word; sp;
          rstr "for"; sp; any_of ["client"; "worker"]; sp; opt_word "group"; greedy_text 2];
    (* /(?:slot\s+)?restriction\s+for\s+(?:client|worker)\s+(?:group\s+)?(.+?)\s*:\s*(\d+)/gi *)
    rseq [opt_word "slot"; rstr "restriction"; sp; rstr "for"; sp;
          any_of ["client"; "worker"]; sp; opt_word "group"; lazy_text 1; colon; digits 2] ].

Definition loadLimitPatterns : list regex :=
  [ (* /(?:worker\s+)?group\s+(.+?)\s+(?:limited to|max|maximum)\s+(\d+)\s+(?:slots?|load)\s+per\s+phase/gi *)
    rseq [opt_word "worker"; rstr "group"; sp; lazy_text 1; sp;
          any_of ["limited to"; "max"; "maximum"]; sp; digits 2; sp;
          ralt [slots_word; rstr "load"]; sp; rstr "per"; sp; rstr "phase"];
    (* /(?:load\s+)?limit\s+for\s+(?:worker\s+)?group\s+(.+?)\s*:\s*(\d+)/gi *)
    rseq [opt_word "load"; rstr "limit"; sp; rstr "for"; sp; opt_word "worker";
          rstr "group"; sp; lazy_text 1; colon; digits 2];
    (* /(?:worker\s+)?group\s+(.+?)\s+cannot\s+exceed\s+(\d+)\s+(?:slots?|load)/gi *)
    rseq [opt_word "worker"; rstr "group"; sp; lazy_text 1; sp; rstr "cannot"; sp;
          rstr "exceed"; sp; digits 2; sp; ralt [slots_word; rstr "load"]] ].

Definition phaseWindowPatterns : list regex :=
  [ (* /(?:task|work)\s+(.+?)\s+(?:must|should|can only)\s+(?:run|execute|work)\s+(?:in|during|on)\s+(?:phases?|phase)\s+(.+)/gi *)
    rseq [any_of ["task"; "work"]; sp; lazy_text 1; sp;
          any_of ["must"; "should"; "can only"]; sp; any_of ["run"; "execute"; "work"]; sp;
          any_of ["in"; "during"; "on"]; sp; phases_word; sp; greedy_text 2];
    (* /(?:phase\s+)?window\s+for\s+(?:task|work)\s+(.+?)\s*:\s*(.+)/gi *)
    rseq [opt_word "phase"; rstr "window"; sp; rstr "for"; sp; any_of ["task"; "work"]; sp;
          lazy_text 1; colon; greedy_text 2];
    (* /(?:task|work)\s+(.+?)\s+(?:restricted to|limited to)\s+(?:phases?|phase)\s+(.+)/gi *)
    rseq [any_of ["task"; "work"]; sp; lazy_text 1; sp;
          any_of ["restricted to"; "limited to"]; sp; phases_word; sp; greedy_text 2] ].

Definition patternMatchPatterns : list regex :=
  [ (* /(?:pattern|regex)\s+(.+?)\s+(?:for|matching)\s+(.+)/gi *)
    rseq [any_of ["pattern"; "regex"]; sp; lazy_text 1; sp; any_of ["for"; "matching"]; sp;
          greedy_text 2];
    (* /(?:rule|condition)\s+(?:when|if)\s+(.+?)\s+(?:then|apply)\s+(.+)/gi *)
    rseq [any_of ["rule"; "condition"]; sp; any_of ["when"; "if"]; sp; lazy_text 1; sp;
          any_of ["then"; "apply"]; sp; greedy_text 2];
    (* /(?:custom|user-defined)\s+(?:rule|condition)\s+(.+)/gi *)
    rseq [any_of ["custom"; "user-defined"]; sp; any_of ["rule"; "condition"]; sp;
          greedy_text 1] ].

Definition precedenceOverridePatterns : list regex :=
  [ (* /(?:precedence|priority)\s+(?:order|override)\s+(.+)/gi *)
    rseq [any_of ["precedence"; "priority"]; sp; any_of ["order"; "override"]; sp;
          greedy_text 1];
    (* /(?:global|specific)\s+(?:rules?|rule)\s+(?:vs|versus)\s+(.+)/gi *)
    rseq [any_of ["global"; "specific"]; sp;
          ralt [rseq [rstr "rule"; ropt (RChr "s")]; rstr "rule"]; sp;
          any_of ["vs"; "versus"]; sp; greedy_text 1];
    (* /(?:rule\s+)?priority\s+(.+)/gi *)
    rseq [opt_word "rule"; rstr "priority"; sp; greedy_text 1] ].

(** The matches of the patterns of a family, in the order of the two nested
    loops [for (pattern) for (match of text.matchAll(pattern))]. *)
Definition all_matches (patterns : list regex) (text : string) : list rmatch :=
  flat_map (fun pattern => matchAll true pattern text) patterns.

Definition group1 (m : rmatch) : string := default "" (m_group m 1).
Definition group2 (m : rmatch) : string := default "" (m_group m 2).

(** ** Phase range parsing *)

Definition for_range (a b : number) : list number :=
  match a, b with
  | Fin x, Fin y =>
      map (fun k => num_add a (of_nat k)) (seq 0 (Z.to_nat (Qfloor (y - x) + 1)))
  | _, _ => []
  end.

Definition phases_prefix : regex := ropt (rseq [rstr "phase"; ropt (RChr "s"); sp]).

Definition parsePhaseRange (text : string) : list number :=
  (* Handle ranges like "1-3" or "phases 1 to 3":
     /(?:phases?\s+)?(\d+)\s*(?:to|-)\s*(\d+)/i *)
  match rmatch_of true
          (rseq [phases_prefix; digits 1; rstar ws; any_of ["to"; "-"]; rstar ws; digits 2])
          text with
  | Some rangeMatch =>
      for_range (parseInt (group1 rangeMatch)) (parseInt (group2 rangeMatch))
  | None =>
      (* Handle lists like "1, 2, 3" or "phases 1, 2, 3":
         /(?:phases?\s+)?(\d+(?:\s*,\s*\d+)* )/i *)
      match rmatch_of true
              (rseq [phases_prefix;
                     RGroup 1 (rseq [rplus digit;
                                     rstar (rseq [rstar ws; RChr ","; rstar ws; rplus digit])])])
              text with
      | Some listMatch =>
          List.filter (fun n => negb (isNaN n))
            (map (fun n => parseInt (trim n)) (split (group1 listMatch) ","))
      | None =>
          (* Handle single numbers: /(?:phase\s+)?(\d+)/i *)
          match rmatch_of true (rseq [opt_word "phase"; digits 1]) text with
          | Some singleMatch =>
              let phase := parseInt (group1 singleMatch) in
              if negb (isNaN phase) then [phase] else []
          | None => []
          end
      end
  end.

(** ** Extraction helpers *)

(** [xs.includes(x)] and [[...new Set(xs)]]. *)
Definition same_value_zero (a b : scalar) : bool :=
  match a, b with
  | SNum NaN, SNum NaN => true
  | _, _ => strict_eq a b
  end.
Definition array_includes (xs : list scalar) (x : scalar) : bool :=
  existsb (fun y => same_value_zero y x) xs.
Fixpoint unique_from (seen xs : list scalar) : list scalar :=
  match xs with
  | [] => []
  | x :: t =>
      if array_includes seen x then unique_from seen t
      else x :: unique_from (seen ++ [x]) t
  end.
Definition unique (xs : list scalar) : list scalar := unique_from [] xs.

(** [word.replace(/[^\w]/g, '')] *)
Definition clean (word : string) : string := replace_all false (RSet true [IWord]) word "".

(** [text.split(/\s+/)] *)
Definition words_of (text : string) : list string := split_rx false (rplus ws) text.

Fixpoint fold_result {A S} (f : S -> A -> result S) (xs : list A) (s : S) : result S :=
  match xs with
  | [] => Ok s
  | x :: t => s' ← f s x; fold_result f t s'
  end.

(** Task ID extraction. *)
Definition extractTaskIds (text : string) (data : dataset) : result (list scalar) :=
  match tasks data with
  | None => Ok (unique [])
  | Some ts =>
      (* Look for exact task IDs *)
      let existingTaskIds := map (fun t => get t "taskid") ts in
      let byId :=
        flat_map
          (fun word =>
             let cleanWord := clean word in
             if array_includes existingTaskIds (SStr cleanWord) then [SStr cleanWord] else [])
          (words_of text) in
      (* Look for task names and convert to IDs *)
      taskNameToId ←
        fold_result
          (fun (table : row) task =>
             let taskname := get task "taskname" in
             if truthy taskname then
               match taskname with
               | SStr nm => Ok (set table (toLowerCase nm) (get task "taskid"))
               | _ => Throw (TypeError "task.taskname.toLowerCase is not a function")
               end
             else Ok table)
          ts [];
      let byName :=
        flat_map
          (fun word =>
             if truthy (get taskNameToId word) then [get taskNameToId word] else [])
          (words_of (toLowerCase text)) in
      Ok (unique (byId ++ byName))
  end.

Inductive group_type := client_group | worker_group.

Definition group_type_name (g : group_type) : string :=
  match g with client_group => "client" | worker_group => "worker" end.

(** The distinct group values of the collection that [groupType] selects. *)
Definition groups_of (data : dataset) (groupType : group_type) : list scalar :=
  match groupType with
  | client_group => unique (map (fun c => get c "grouptag") (default [] (clients data)))
  | worker_group => unique (map (fun w => get w "workergroup") (default [] (workers data)))
  end.

(** The second loop of [extractGroupName]: the first group whose lower-case
    form occurs in the text; a group that is not a string has no
    [toLowerCase]. *)
Fixpoint first_partial (text : string) (groups : list scalar) : result (option string) :=
  match groups with
  | [] => Ok None
  | SStr g :: later =>
      if includes (toLowerCase text) (toLowerCase g) then Ok (Some g)
      else first_partial text later
  | _ :: _ => Throw (TypeError "group.toLowerCase is not a function")
  end.

(** Group name extraction. *)
Definition extractGroupName (text : string) (data : dataset) (groupType : group_type)
  : result (option string) :=
  let groups := groups_of data groupType in
  match List.find (fun cleanWord => array_includes groups (SStr cleanWord))
          (map clean (words_of (toLowerCase text))) with
  | Some cleanWord => Ok (Some cleanWord)
  | None => first_partial text groups  (* Try to match partial names *)
  end.

(** Number extraction: /(\d+)/ *)
Definition extractNumber (text : string) : option number :=
  match rmatch_of false (digits 1) text with
  | Some m => Some (parseInt (group1 m))
  | None => None
  end.

(** ** Main parsing function *)

Section parsing.
Context `{Host}.

(** [xs.join(', ')] for ids and for numbers. *)
Definition join_values (xs : list scalar) : string := join ", " (map to_string xs).
Definition join_numbers (xs : list number) : string :=
  join ", " (map number_to_string xs).

(** The state of the search for the best match. *)
Record best := Best {
  bestMatch : option ParsedRule;
  highestConfidence : number
}.

(** [if (confidence > highestConfidence) { bestMatch = rule; highestConfidence = confidence }] *)
Definition consider (b : best) (rule : ParsedRule) : best :=
  if num_gtb (confidence rule) (highestConfidence b)
  then Best (Some rule) (confidence rule)
  else b.

Definition try_coRun (text : string) (data : dataset) (b : best) : result best :=
  fold_result
    (fun b m =>
       let taskText := group1 m in
       taskIds ← extractTaskIds taskText data;
       if (2 <=? length taskIds)%nat then
         let confidence :=
           Math_min (decimal 9 1)
             (num_add (decimal 5 1) (num_mul (of_nat (length taskIds)) (decimal 1 1))) in
         Ok (consider b
               {| type := coRun;
                  confidence := confidence;
                  params := CoRunParams taskIds
                              ("Tasks " +:+ join_values taskIds +:+ " must run together");
                  validation :=
                    {| canApply := (2 <=? length taskIds)%nat;
                       reason := if (2 <=? length taskIds)%nat then "Valid co-run rule"
                                 else "Need at least 2 tasks";
                       suggestions := [] |} |})
       else Ok b)
    (all_matches coRunPatterns text) b.

(** [n && n > 0] for the result of [extractNumber]. *)
Definition positive_number (n : option number) : option number :=
  match n with
  | Some x => if truthy (SNum x) && num_gtb x (of_nat 0) then Some x else None
  | None => None
  end.

Definition try_slotRestriction (text : string) (data : dataset) (b : best) : result best :=
  fold_result
    (fun b m =>
       let groupText := group1 m in
       let slotsText := group2 m in
       match positive_number (extractNumber slotsText) with
       | Some minSlots =>
           (* Try to determine group type *)
           let isClientGroup := includes text "client" || includes text "customer" in
           let isWorkerGroup := includes text "worker" || includes text "employee" in
           let groupType :=
             if isClientGroup then client_group
             else if isWorkerGroup then worker_group else client_group in
           groupName ← extractGroupName groupText data groupType;
           match groupName with
           | Some groupName =>
               if truthy (SStr groupName) then
                 Ok (consider b
                       {| type := slotRestriction;
                          confidence := decimal 8 1;
                          params :=
                            SlotRestrictionParams (group_type_name groupType) groupName minSlots
                              (group_type_name groupType +:+ " group " +:+ groupName
                               +:+ " requires minimum " +:+ number_to_string minSlots
                               +:+ " common slots");
                          validation :=
                            {| canApply := true;
                               reason := "Valid slot restriction rule";
                               suggestions := [] |} |})
               else Ok b
           | None => Ok b
           end
       | None => Ok b
       end)
    (all_matches slotRestrictionPatterns text) b.

Definition try_loadLimit (text : string) (data : dataset) (b : best) : result best :=
  fold_result
    (fun b m =>
       let groupText := group1 m in
       let limitText := group2 m in
       match positive_number (extractNumber limitText) with
       | Some maxSlots =>
           groupName ← extractGroupName groupText data worker_group;
           match groupName with
           | Some groupName =>
               if truthy (SStr groupName) then
                 Ok (consider b
                       {| type := loadLimit;
                          confidence := decimal 8 1;
                          params :=
                            LoadLimitParams groupName maxSlots
                              ("Worker group " +:+ groupName +:+ " limited to "
                               +:+ number_to_string maxSlots +:+ " slots per phase");
                          validation :=
                            {| canApply := true;
                               reason := "Valid load limit rule";
                               suggestions := [] |} |})
               else Ok b
           | None => Ok b
           end
       | None => Ok b
       end)
    (all_matches loadLimitPatterns text) b.

Definition try_phaseWindow (text : string) (data : dataset) (b : best) : result best :=
  fold_result
    (fun b m =>
       let taskText := group1 m in
       let phaseText := group2 m in
       taskIds ← extractTaskIds taskText data;
       let phases := parsePhaseRange phaseText in
       match taskIds, phases with
       | first :: _, _ :: _ =>
           Ok (consider b
                 {| type := phaseWindow;
                    confidence := decimal 7 1;
                    params :=
                      PhaseWindowParams first phases
                        ("Task " +:+ to_string first +:+ " restricted to phases "
                         +:+ join_numbers phases);
                    validation :=
                      {| canApply := true;
                         reason := "Valid phase window rule";
                         suggestions := [] |} |})
       | _, _ => Ok b
       end)
    (all_matches phaseWindowPatterns text) b.

Definition try_patternMatch (text : string) (b : best) : result best :=
  fold_result
    (fun b m =>
       let patternText := group1 m in
       (* Simple regex pattern detection *)
       let regex :=
         if includes patternText "skill" || includes patternText "javascript"
            || includes patternText "python"
         then ".*(skill|javascript|python).*"
         else if includes patternText "priority" || includes patternText "high"
         then ".*(priority|high).*"
         else ".*" +:+ replace_all false (RSet true [IWord; ISpace]) patternText ".*"
              +:+ ".*" in
       Ok (consider b
             {| type := patternMatch;
                confidence := decimal 6 1;
                params :=
                  PatternMatchParams regex "skill-requirement" "skill" (of_nat 1)
                    ("Pattern match rule: " +:+ patternText);
                validation :=
                  {| canApply := true;
                     reason := "Valid pattern match rule";
                     suggestions :=
                       ["Consider refining the regex pattern for better accuracy"] |} |}))
    (all_matches patternMatchPatterns text) b.

Definition try_precedenceOverride (text : string) (b : best) : result best :=
  fold_result
    (fun b m =>
       let orderText := group1 m in
       Ok (consider b
             {| type := precedenceOverride;
                confidence := decimal 5 1;
                params := PrecedenceOverrideParams ("Precedence override: " +:+ orderText);
                validation :=
                  {| canApply := false;
                     reason := "Precedence override rules require manual configuration";
                     suggestions :=
                       ["Please specify the exact rule priority order manually"] |} |}))
    (all_matches precedenceOverridePatterns text) b.

Definition parseNaturalLanguageRule (rule : NaturalLanguageRule) (data : dataset)
  : result (option ParsedRule) :=
  let text := toLowerCase (text rule) in
  b ← try_coRun text data (Best None (of_nat 0));
  b ← try_slotRestriction text data b;
  b ← try_loadLimit text data b;
  b ← try_phaseWindow text data b;
  b ← try_patternMatch text b;
  b ← try_precedenceOverride text b;
  Ok (bestMatch b).

(** ** Validate rule against current data *)

Definition cannot_apply (why : string) (v : validation_info) : validation_info :=
  {| canApply := false; reason := why; suggestions := suggestions v |}.

Definition validateRuleAgainstData (rule : ParsedRule) (data : dataset) : ParsedRule :=
  let validation0 := validation rule in
  let validation1 :=
    match type rule, params rule with
    | coRun, CoRunParams ids _ =>
        let existingTasks := map (fun t => get t "taskid") (default [] (tasks data)) in
        let missingTasks :=
          List.filter (fun taskId => negb (array_includes existingTasks taskId)) ids in
        if (0 <? length missingTasks)%nat
        then cannot_apply ("Tasks not found: " +:+ join_values missingTasks) validation0
        else validation0
    | slotRestriction, SlotRestrictionParams groupType groupName _ _ =>
        if String.eqb groupType "client" then
          if negb (array_includes (groups_of data client_group) (SStr groupName))
          then cannot_apply ("Client group " +:+ dquote +:+ groupName +:+ dquote
                             +:+ " not found") validation0
          else validation0
        else if String.eqb groupType "worker" then
          if negb (array_includes (groups_of data worker_group) (SStr groupName))
          then cannot_apply ("Worker group " +:+ dquote +:+ groupName +:+ dquote
                             +:+ " not found") validation0
          else validation0
        else validation0
    | loadLimit, LoadLimitParams workerGroup _ _ =>
        if negb (array_includes (groups_of data worker_group) (SStr workerGroup))
        then cannot_apply ("Worker group " +:+ dquote +:+ workerGroup +:+ dquote
                           +:+ " not found") validation0
        else validation0
    | phaseWindow, PhaseWindowParams taskId _ _ =>
        let existingTasks := map (fun t => get t "taskid") (default [] (tasks data)) in
        if negb (array_includes existingTasks taskId)
        then cannot_apply ("Task " +:+ dquote +:+ to_string taskId +:+ dquote
                           +:+ " not found") validation0
        else validation0
    | _, _ => validation0
    end in
  {| type := type rule; confidence := confidence rule; params := params rule;
     validation := validation1 |}.

End parsing.

(** The data of the examples: tasks given by their ids. *)
Definition task_with_id (i : string) : row := [("taskid", SStr i)].
Definition tasks_only (ids : list string) : dataset :=
  {| clients := None; workers := None; tasks := Some (map task_with_id ids) |}.
Definition run_together : NaturalLanguageRule :=
  {| text := "Tasks T1 and T2 must run together" |}.
Definition run_together_lower : NaturalLanguageRule :=
  {| text := "Tasks t1 and t2 must run together" |}.

(** ** Vocabulary of the statements about the two passes *)

(** The ids of the tasks of the data, as [validateRuleAgainstData] reads
    them. *)
Definition existing_tasks (data : dataset) : list scalar :=
  map (fun t => get t "taskid") (default [] (tasks data)).

(** No word of the text names a property that every object inherits (of
    the lower-case names these are [constructor] and [__proto__]): the lookup
    of a word in the table of task names then finds own properties only. *)
Definition own_names_only (text : string) : Prop :=
  includes (toLowerCase text) "constructor" = false
  /\ includes (toLowerCase text) "__proto__" = false.

(** The best match so far, if any, is left as it is by
    [validateRuleAgainstData]. *)
Definition grounded `{Host} (data : dataset) (b : best) : Prop :=
  forall rule, bestMatch b = Some rule -> validateRuleAgainstData rule data = rule.

End RuleConverter.

(* ===================================================================== *)
(** * The schemas and the page, [src/unnamed/part_003] and [src/unnamed/part_002] *)
(* ===================================================================== *)

Module Page.
Import Js.

(** A schema: the canonical field names of an entity, each with its
    variations, in the order of the object literal. *)
Abbreviation schema := (list (string * list string)).

Definition client_schema : schema :=
  [("clientid", ["clientid"; "client_id"; "id"]);
   ("clientname", ["clientname"; "client_name"; "name"]);
   ("prioritylevel", ["prioritylevel"; "priority_level"; "priority"]);
   ("requestedtaskids", ["requestedtaskids"; "requested_task_ids"; "requestedtasks"]);
   ("grouptag", ["grouptag"; "group_tag"; "group"]);
   ("attributesjson", ["attributesjson"; "attributes_json"; "attributes"])].

Definition worker_schema : schema :=
  [("workerid", ["workerid"; "worker_id"; "id"]);
   ("workername", ["workername"; "worker_name"; "name"]);
   ("skills", ["skills"]);
   ("availableslots", ["availableslots"; "available_slots"; "slots"]);
   ("maxloadperphase", ["maxloadperphase"; "max_load_per_phase"; "maxload"]);
   ("workergroup", ["workergroup"; "worker_group"; "group"]);
   ("qualificationlevel", ["qualificationlevel"; "qualification_level"; "qualification"])].

Definition task_schema : schema :=
  [("taskid", ["taskid"; "task_id"; "id"]);
   ("taskname", ["taskname"; "task_name"; "name"]);
   ("category", ["category"]);
   ("duration", ["duration"]);
   ("requiredskills", ["requiredskills"; "required_skills"; "skills"]);
   ("preferredphases", ["preferredphases"; "preferred_phases"; "phases"]);
   ("maxconcurrent", ["maxconcurrent"; "max_concurrent"; "concurrent"])].

Definition schemas : list (string * schema) :=
  [("client", client_schema); ("worker", worker_schema); ("task", task_schema)].

(** ** [detectEntity] *)

(** The number of fields of the schema whose name occurs in a header. *)
Definition score (headers : list string) (fields : schema) : nat :=
  length
    (List.filter
       (fun f => existsb (fun h => includes (toLowerCase h) (toLowerCase f)) headers)
       (map fst fields)).

(** [xs.sort(cmp)]: the stable sort, by insertion from the left. *)
Fixpoint insert_sorted {A} (cmp : A -> A -> Z) (sorted : list A) (x : A) : list A :=
  match sorted with
  | [] => [x]
  | y :: t => if (cmp y x <=? 0)%Z then y :: insert_sorted cmp t x else x :: sorted
  end.
Definition sort {A} (cmp : A -> A -> Z) (xs : list A) : list A :=
  fold_left (insert_sorted cmp) xs [].

(** [detectEntity].  The table of the scores has the three entries of
    [schemas], so its first entry exists. *)
Definition detectEntity (headers : list string) : option string :=
  let scores := map (fun '(entity, fields) => (entity, score headers fields)) schemas in
  let scores :=
    sort (fun a b => (Z.of_nat (snd b) - Z.of_nat (snd a))%Z) scores in
  match scores with
  | first :: rest =>
      if (snd first =? 0)%nat
         || match rest with
            | second :: _ => (snd first =? snd second)%nat
            | [] => false
            end
      then None
      else Some (fst first)
  | [] => None
  end.

(** ** [mapHeaders] *)

(** [s.toLowerCase().replace(/\s+/g, "")] *)
Definition normalise (s : string) : string :=
  replace_all false (rplus ws) (toLowerCase s) "".

(** The body of the loop over the upload headers: the canonical name of the
    first field one of whose variations is the header, up to case and
    blanks; the header itself when there is none. *)
Definition canonical_of (entitySchema : schema) (header : string) : string :=
  match List.find
          (fun '(canonical, variations) =>
             existsb (fun variant => String.eqb (normalise variant) (normalise header))
               variations)
          entitySchema with
  | Some (canonical, _) => canonical
  | None => header
  end.

(** The names every object inherits. *)
Definition inherited_names : list string :=
  ["constructor"; "__defineGetter__"; "__defineSetter__"; "hasOwnProperty";
   "__lookupGetter__"; "__lookupSetter__"; "isPrototypeOf"; "propertyIsEnumerable";
   "toString"; "valueOf"; "__proto__"; "toLocaleString"].

(** [Object.entries(schemas[entity])]: the schema of an entity; no entry for
    a name that every object inherits; and no value otherwise, on which
    [Object.entries] throws. *)
Definition entries_of_schema (entity : string) : option schema :=
  match List.find (fun '(e, _) => String.eqb e entity) schemas with
  | Some (_, fields) => Some fields
  | None => if existsb (String.eqb entity) inherited_names then Some [] else None
  end.

(** [headerMap[header] = v] on an object whose values are strings: the
    property keeps its place if it exists and goes last otherwise; the
    assignment of a string to [__proto__] does nothing. *)
Fixpoint assign (headerMap : list (string * string)) (header v : string)
  : list (string * string) :=
  match headerMap with
  | [] => [(header, v)]
  | (h, v') :: t =>
      if String.eqb h header then (h, v) :: t else (h, v') :: assign t header v
  end.
Definition assign_own (headerMap : list (string * string)) (header v : string)
  : list (string * string) :=
  if String.eqb header "__proto__" then headerMap else assign headerMap header v.

Definition mapHeaders (uploadHeader : list string) (entity : string)
  : result (list (string * string)) :=
  match uploadHeader with
  | [] => Ok []
  | _ :: _ =>
      match entries_of_schema entity with
      | Some entitySchema =>
          Ok (fold_left
                (fun headerMap header =>
                   assign_own headerMap header (canonical_of entitySchema header))
                uploadHeader [])
      | None => Throw (TypeError "Cannot convert undefined or null to object")
      end
  end.

(** ** [remapDataRows] *)

Section remapDataRows.
(** The text of an inherited property, of the host: [String(x)] for the
    value [x] that every object inherits under the name. *)
Variable inherited_text : string -> string.

(** [headerMap[key] || key] *)
Definition mapped_key (headerMap : list (string * string)) (key : string) : string :=
  match List.find (fun '(h, _) => String.eqb h key) headerMap with
  | Some (_, v) => if truthy (SStr v) then v else key
  | None => if existsb (String.eqb key) inherited_names then inherited_text key else key
  end.

(** [newRow[mappedKey] = value], on the properties of the row and the flag
    that tells whether the row still inherits from [Object.prototype].  While
    it does, an assignment to [__proto__] adds no property, and the one of
    [null] ends the inheritance; from then on [__proto__] is a name like any
    other. *)
Definition assign_cell (newRow : row * bool) (mappedKey : string) (value : scalar)
  : row * bool :=
  let '(cells, inherits) := newRow in
  if String.eqb mappedKey "__proto__" && inherits
  then (cells, negb (strict_eq value SNull))
  else (set cells mappedKey value, inherits).

Definition remap_row (headerMap : list (string * string)) (r : row) : row :=
  fst (fold_left
         (fun newRow '(key, value) => assign_cell newRow (mapped_key headerMap key) value)
         r ([], true)).

Definition remapDataRows (data : list row) (headerMap : list (string * string))
  : list row :=
  map (remap_row headerMap) data.

End remapDataRows.

(** ** Vocabulary of the statements about the page *)

(** The score of an entity of [schemas]. *)
Definition entity_score (headers : list string) (entity : string) : nat :=
  match List.find (fun '(e, _) => String.eqb e entity) schemas with
  | Some (_, fields) => score headers fields
  | None => 0
  end.

Definition entities : list string := map fst schemas.

(** A text up to case and blanks, in the words of the comparison of
    [mapHeaders]: the capital letters in lower case, and no blank. *)
Definition nonblank (c : ascii) : bool := negb (is_space c).
Definition squeeze (s : string) : string :=
  str (List.filter (fun c => negb (is_space c)) (map lower_char (chars s))).

(** A text of ASCII characters: for these, the letters and the blanks of the
    model are those of JavaScript. *)
Definition ascii_text (s : string) : Prop := Forall (fun c => code c < 128) (chars s).

(** A field names a header when one of its variations is the header up to
    case and blanks. *)
Definition names (field : string * list string) (header : string) : Prop :=
  exists variant, In variant (snd field) /\ squeeze variant = squeeze header.

(** The name of a header by a schema: the canonical name of the first field
    that names it; the header itself when no field does. *)
Definition named (entitySchema : schema) (header name : string) : Prop :=
  (exists before field after,
     entitySchema = before ++ field :: after
     /\ Forall (fun f => ~ names f header) before
     /\ names field header
     /\ name = fst field)
  \/ (Forall (fun f => ~ names f header) entitySchema /\ name = header).

(** The headers of an upload with two columns for the id of a client, a row
    of such an upload, and a host text for the examples. *)
Definition client_headers : list string := ["Client ID"; "id"; "Name"; "Priority Level"].
Definition client_upload : row :=
  [("Client ID", SStr "C1"); ("id", SStr "7"); ("Name", SStr "Ann");
   ("Priority Level", SStr "3")].
Definition canonical_headers : list string := ["clientid"; "clientname"; "prioritylevel"].
Definition no_text : string -> string := fun _ => "".
Definition client_header_map : list (string * string) :=
  [("Client ID", "clientid"); ("id", "clientid"); ("Name", "clientname");
   ("Priority Level", "prioritylevel")].

End Page.

(* ===================================================================== *)
(** * Properties *)
(* ===================================================================== *)

Module JsFacts.
Import Js.

Example parseInt_digits : parseInt "10" = of_Z 10.
Proof. reflexivity. Qed.
Example parseInt_prefix : parseInt " 3]" = of_Z 3.
Proof. reflexivity. Qed.
Example parseInt_bracket : parseInt "[1" = NaN.
Proof. reflexivity. Qed.
Example parseInt_empty : parseInt "" = NaN.
Proof. reflexivity. Qed.
Example split_rx_spaces : split_rx false (rplus ws) "t1 and  t2" = ["t1"; "and"; "t2"].
Proof. vm_compute. reflexivity. Qed.
Example split_rx_leading : split_rx false (rplus ws) " a " = [""; "a"; ""].
Proof. vm_compute. reflexivity. Qed.
Example replace_all_nonword :
  replace_all false (RSet true [IWord]) "t-1," "" = "t1".
Proof. vm_compute. reflexivity. Qed.
Example lazy_group :
  (m_caps <$> rmatch_of true
     (rseq [RGroup 1 (rplus_lazy RAny); rplus ws; rstr "must"]) "a b must must")
  = Some [(1%nat, "a b")].
Proof. vm_compute. reflexivity. Qed.

Lemma map_fmap {A B} (f : A -> B) (l : list A) : map f l = f <$> l.
Proof. induction l as [|x l IH]; csimpl; by f_equal. Qed.

(** *** Strict equality *)

Lemma num_eqb_sym a b : num_eqb a b = num_eqb b a.
Proof.
  destruct a as [x| | |], b as [y| | |]; simpl; try done.
  destruct (Qeq_bool x y) eqn:E1, (Qeq_bool y x) eqn:E2; try done.
  - apply Qeq_bool_iff in E1. symmetry in E1. apply Qeq_bool_iff in E1. congruence.
  - apply Qeq_bool_iff in E2. symmetry in E2. apply Qeq_bool_iff in E2. congruence.
Qed.

Lemma num_eqb_trans a b c : num_eqb a b = true -> num_eqb b c = true -> num_eqb a c = true.
Proof.
  destruct a as [x| | |], b as [y| | |], c as [z| | |]; simpl; try done.
  rewrite !Qeq_bool_iff. intros -> ->. reflexivity.
Qed.

Lemma strict_eq_sym a b : strict_eq a b = strict_eq b a.
Proof.
  destruct a as [| |x|x|x], b as [| |y|y|y]; simpl; try done.
  - by destruct x, y.
  - apply num_eqb_sym.
  - apply String.eqb_sym.
Qed.

Lemma strict_eq_trans a b c :
  strict_eq a b = true -> strict_eq b c = true -> strict_eq a c = true.
Proof.
  destruct a as [| |x|x|x], b as [| |y|y|y], c as [| |z|z|z]; simpl; try done.
  - by destruct x, y, z.
  - apply num_eqb_trans.
  - rewrite !String.eqb_eq. congruence.
Qed.

Lemma strict_eq_refl_l a b : strict_eq a b = true -> strict_eq a a = true.
Proof.
  intros H. eapply strict_eq_trans; [exact H|]. by rewrite strict_eq_sym.
Qed.

(** *** Exact values of the arithmetic *)

Lemma exact_fin (q p : Q) : (q == p)%Q -> exact (fin q) p.
Proof.
  intros Hqp. exists (Qred q). split; [done|]. split.
  - by rewrite Qred_correct.
  - apply Qred_complete, Qred_correct.
Qed.

Lemma exact_of_Z (z : Z) : exact (of_Z z) (inject_Z z).
Proof.
  exists (z # 1)%Q. split; [done|]. split; [reflexivity|].
  apply Qred_identity. simpl. apply Z.gcd_1_r.
Qed.

Lemma exact_of_nat (n : nat) : exact (of_nat n) (inject_Z (Z.of_nat n)).
Proof. apply exact_of_Z. Qed.

Lemma exact_eq (a b : number) (p q : Q) :
  exact a p -> exact b q -> (p == q)%Q -> a = b.
Proof.
  intros (p' & -> & Hp & Hcp) (q' & -> & Hq & Hcq) Hpq.
  f_equal. rewrite <- Hcp, <- Hcq. apply Qred_complete.
  by rewrite Hp, Hq.
Qed.

Lemma exact_proper (a : number) (p q : Q) : exact a p -> (p == q)%Q -> exact a q.
Proof.
  intros (p' & -> & Hp & Hcp) Hpq. exists p'. split; [done|]. split; [|done].
  by rewrite Hp.
Qed.

Lemma exact_add (a b : number) (p q : Q) :
  exact a p -> exact b q -> exact (num_add a b) (p + q).
Proof.
  intros (p' & -> & Hp & _) (q' & -> & Hq & _). simpl.
  apply exact_fin. by rewrite Hp, Hq.
Qed.

Lemma exact_neg (a : number) (p : Q) : exact a p -> exact (num_neg a) (- p).
Proof.
  intros (p' & -> & Hp & _). simpl. apply exact_fin. by rewrite Hp.
Qed.

Lemma exact_sub (a b : number) (p q : Q) :
  exact a p -> exact b q -> exact (num_sub a b) (p - q).
Proof.
  intros Ha Hb. unfold num_sub, Qminus. apply exact_add; [done|]. by apply exact_neg.
Qed.

Lemma exact_mul (a b : number) (p q : Q) :
  exact a p -> exact b q -> exact (num_mul a b) (p * q).
Proof.
  intros (p' & -> & Hp & _) (q' & -> & Hq & _). simpl.
  apply exact_fin. by rewrite Hp, Hq.
Qed.

Lemma q_sign_nonzero (q : Q) : ~ (q == 0)%Q -> q_sign q <> Eq.
Proof.
  intros Hq Hs. apply Hq. unfold q_sign in Hs. apply Z.compare_eq in Hs.
  unfold Qeq. simpl. rewrite Hs. reflexivity.
Qed.

Lemma exact_div (a b : number) (p q : Q) :
  exact a p -> exact b q -> ~ (q == 0)%Q -> exact (num_div a b) (p / q).
Proof.
  intros (p' & -> & Hp & _) (q' & -> & Hq & _) Hq0. simpl.
  assert (Hs : q_sign q' <> Eq).
  { apply q_sign_nonzero. by rewrite Hq. }
  assert (He : exact (fin (p' / q')) (p / q)).
  { apply exact_fin. by rewrite Hp, Hq. }
  by destruct (q_sign q').
Qed.

End JsFacts.

(* --------------------------------------------------------------------- *)
(** ** [applyAISuggestions] *)
(* --------------------------------------------------------------------- *)

Module AiEngineSpec.
Import Js JsFacts AiEngine.

Lemma get_set_eq (r : row) (k : string) (v : scalar) : get (set r k v) k = v.
Proof.
  induction r as [|[k' v'] r IH]; simpl.
  - by rewrite String.eqb_refl.
  - destruct (String.eqb k' k) eqn:E; simpl.
    + by rewrite String.eqb_refl.
    + by rewrite E.
Qed.

Lemma get_set_ne (r : row) (k k' : string) (v : scalar) :
  k' <> k -> get (set r k v) k' = get r k'.
Proof.
  intros Hne. induction r as [|[k0 v0] r IH]; simpl.
  - destruct (String.eqb k k') eqn:E; [|done].
    apply String.eqb_eq in E. congruence.
  - destruct (String.eqb k0 k) eqn:E; simpl.
    + apply String.eqb_eq in E. subst k0.
      destruct (String.eqb k k') eqn:E'; [|done].
      apply String.eqb_eq in E'. congruence.
    + destruct (String.eqb k0 k'); [done|apply IH].
Qed.




Lemma applies_accepted s : applies s = true <-> accepted s.
Proof.
  unfold applies, accepted, num_gtb. rewrite orb_true_iff. tauto.
Qed.

Lemma applies_not_accepted s : applies s = false <-> ~ accepted s.
Proof.
  rewrite <- applies_accepted. destruct (applies s); split; congruence.
Qed.

Lemma apply_filter (suggestions : list AICorrectionSuggestion) : forall data,
  applyAISuggestions data suggestions
  = fold_left merge (filter accepted suggestions) data.
Proof.
  unfold applyAISuggestions.
  induction suggestions as [|s rest IH]; intros data; simpl; [done|].
  rewrite filter_cons. destruct (decide (accepted s)) as [Ha|Hn].
  - apply applies_accepted in Ha. rewrite Ha. simpl. apply IH.
  - apply applies_not_accepted in Hn. rewrite Hn. apply IH.
Qed.

Lemma array_set_length {A} (xs : list (option A)) i x :
  length (array_set xs i x) = Nat.max (length xs) (S i).
Proof.
  unfold array_set. destruct (Nat.ltb_spec i (length xs)).
  - rewrite length_insert. lia.
  - rewrite !length_app, length_replicate. simpl. lia.
Qed.

Lemma array_set_lookup_eq {A} (xs : list (option A)) i x : array_set xs i x !! i = Some x.
Proof.
  unfold array_set. destruct (Nat.ltb_spec i (length xs)).
  - by apply list_lookup_insert_eq.
  - rewrite lookup_app_r by done. rewrite lookup_app_r by (rewrite length_replicate; lia).
    rewrite length_replicate. by replace (i - length xs - (i - length xs)) with 0 by lia.
Qed.

Lemma array_set_lookup_ne {A} (xs : list (option A)) i j x :
  j <> i ->
  array_set xs i x !! j
  = match xs !! j with
    | Some y => Some y
    | None => if (j <? i)%nat then Some None else None
    end.
Proof.
  intros Hne. unfold array_set. destruct (Nat.ltb_spec i (length xs)) as [Hi|Hi].
  - rewrite list_lookup_insert_ne by done.
    destruct (xs !! j) eqn:E; [done|]. apply lookup_ge_None in E.
    destruct (Nat.ltb_spec j i); [lia|done].
  - destruct (xs !! j) eqn:E.
    + by rewrite lookup_app_l, E by (by eapply lookup_lt_Some).
    + apply lookup_ge_None in E. rewrite lookup_app_r by done.
      destruct (Nat.ltb_spec j i) as [Hj|Hj].
      * rewrite lookup_app_l by (rewrite length_replicate; lia).
        apply lookup_replicate_2. lia.
      * apply lookup_ge_None. rewrite length_app, length_replicate. simpl. lia.
Qed.

Lemma cell_merge (data : list slot) s i k :
  cell (merge data s) i k
  = if (rowIndex s =? i)%nat && String.eqb (column s) k then suggestedValue s
    else cell data i k.
Proof.
  unfold cell, merge. destruct (Nat.eqb_spec (rowIndex s) i) as [<-|Hne]; cbn [andb].
  - rewrite array_set_lookup_eq. cbn [spread].
    destruct (String.eqb_spec (column s) k) as [<-|Hk].
    + apply get_set_eq.
    + apply get_set_ne. congruence.
  - rewrite array_set_lookup_ne by congruence.
    destruct (data !! i) as [y|]; [done|]. by destruct (i <? rowIndex s)%nat.
Qed.









(** *** The store version *)

Lemma elem_of_array_set {A} (xs : list (option A)) i x y :
  Some y ∈ array_set xs i (Some x) -> y = x \/ Some y ∈ xs.
Proof.
  unfold array_set. destruct (i <? length xs)%nat eqn:E.
  - intros Hin. apply list_elem_of_lookup in Hin as [j Hj].
    destruct (decide (i = j)) as [->|Hne].
    + rewrite list_lookup_insert_eq in Hj by (by apply Nat.ltb_lt).
      left. congruence.
    + rewrite list_lookup_insert_ne in Hj by done.
      right. apply list_elem_of_lookup. eauto.
  - rewrite !elem_of_app. intros [Hin|[Hin|Hin]].
    + by right.
    + apply elem_of_replicate in Hin as [? _]. discriminate.
    + apply list_elem_of_singleton in Hin. left. congruence.
Qed.

Lemma map_array_set {A B} (f : option A -> option B) xs i x :
  f None = None ->
  map f (array_set xs i x) = array_set (map f xs) i (f x).
Proof.
  intros Hnone. unfold array_set. rewrite length_map.
  destruct (i <? length xs)%nat.
  - rewrite !map_fmap. apply list_fmap_insert.
  - rewrite !map_app. simpl. f_equal. f_equal.
    induction (i - length xs)%nat as [|n IH]; simpl; [done|].
    by rewrite Hnone, IH.
Qed.

Lemma read_row_spread (h : store) (elems : list (option positive)) i :
  read_row h (elems !! i) = spread (map (read_slot h) elems !! i).
Proof.
  rewrite map_fmap, list_lookup_fmap.
  destruct (elems !! i) as [[l|]|]; simpl; [|done..].
  by destruct (h !! l) as [[r|?]|].
Qed.

Section store_invariant.
Variable h0 : store.
Variable nd : positive.
Hypothesis nd_new : nd ∉ dom h0.

(** One merge on the store: nothing of the initial store changes, the
    array under construction stays well formed, and it reads as the merge
    on rows. *)
Lemma merge_store_step (hc : store) elems s :
  (forall l, l ∈ dom h0 -> hc !! l = h0 !! l) ->
  hc !! nd = Some (OArray elems) ->
  (forall l, Some l ∈ elems -> exists r, hc !! l = Some (ORow r)) ->
  (forall l, l ∈ dom h0 -> merge_store nd hc s !! l = h0 !! l)
  /\ exists elems',
       merge_store nd hc s !! nd = Some (OArray elems')
       /\ (forall l, Some l ∈ elems' -> exists r, merge_store nd hc s !! l = Some (ORow r))
       /\ map (read_slot (merge_store nd hc s)) elems'
          = merge (map (read_slot hc) elems) s.
Proof.
  intros Hold Hnd Hptr. unfold merge_store. rewrite Hnd. unfold alloc.
  set (l := fresh (dom hc)).
  set (newrow := set (read_row hc (elems !! rowIndex s)) (column s) (suggestedValue s)).
  assert (Hl : l ∉ dom hc) by apply is_fresh.
  assert (Hlnd : l <> nd).
  { intros ->. apply Hl. by apply elem_of_dom_2 in Hnd. }
  assert (Hkeep : forall l', is_Some (hc !! l') -> l' <> nd ->
            (<[nd := OArray (array_set elems (rowIndex s) (Some l))]>
               (<[l := ORow newrow]> hc)) !! l' = hc !! l').
  { intros l' Hsome Hne. rewrite lookup_insert_ne by done.
    rewrite lookup_insert_ne; [done|].
    intros ->. apply Hl. by apply elem_of_dom. }
  assert (Hrows : forall l', Some l' ∈ elems ->
            (<[nd := OArray (array_set elems (rowIndex s) (Some l))]>
               (<[l := ORow newrow]> hc)) !! l' = hc !! l').
  { intros l' Hin. destruct (Hptr l' Hin) as [r Hr].
    apply Hkeep; [by rewrite Hr|]. intros ->. congruence. }
  split.
  { intros l' Hin. rewrite <- (Hold l' Hin).
    apply Hkeep.
    - rewrite (Hold l' Hin). by apply elem_of_dom.
    - intros ->. by apply nd_new. }
  exists (array_set elems (rowIndex s) (Some l)).
  split; [apply lookup_insert_eq|].
  split.
  { intros l' Hin. apply elem_of_array_set in Hin as [->|Hin].
    - exists newrow. rewrite lookup_insert_ne by done. apply lookup_insert_eq.
    - rewrite (Hrows l' Hin). by apply Hptr. }
  rewrite map_array_set by done.
  unfold merge. f_equal.
  - apply map_ext_in. intros [l'|] Hin; simpl; [|done].
    rewrite Hrows; [done|]. by apply list_elem_of_In.
  - simpl. rewrite lookup_insert_ne by done. rewrite lookup_insert_eq.
    unfold newrow. by rewrite read_row_spread.
Qed.

Lemma merge_store_fold (suggestions : list AICorrectionSuggestion) :
  forall (hc : store) elems,
  (forall l, l ∈ dom h0 -> hc !! l = h0 !! l) ->
  hc !! nd = Some (OArray elems) ->
  (forall l, Some l ∈ elems -> exists r, hc !! l = Some (ORow r)) ->
  let h' := fold_left (fun h s => if applies s then merge_store nd h s else h)
              suggestions hc in
  (forall l, l ∈ dom h0 -> h' !! l = h0 !! l)
  /\ exists elems',
       h' !! nd = Some (OArray elems')
       /\ map (read_slot h') elems'
          = applyAISuggestions (map (read_slot hc) elems) suggestions.
Proof.
  unfold applyAISuggestions.
  induction suggestions as [|s rest IH]; intros hc elems Hold Hnd Hptr; simpl.
  - split; [done|]. by exists elems.
  - destruct (applies s).
    + destruct (merge_store_step hc elems s Hold Hnd Hptr)
        as (Hold' & elems' & Hnd' & Hptr' & Hread).
      destruct (IH _ _ Hold' Hnd' Hptr') as (Hold'' & elems'' & Hnd'' & Hread'').
      split; [done|]. exists elems''. split; [done|].
      by rewrite Hread'', Hread.
    + by apply IH.
Qed.
End store_invariant.

(** C10.  [applyAISuggestions] does not mutate its input.  On a store in
    which the input array is well formed, the call returns a newly allocated
    array; every object that existed before the call (the input array and
    its rows among them) is the same after it, so the input array reads
    as before; and the returned array reads as the rows with the accepted
    suggestions merged. *)
Theorem applyAISuggestions_does_not_mutate (h : store) (data : positive)
  (suggestions : list AICorrectionSuggestion) :
  well_formed h data ->
  exists h' newData input,
    applyAISuggestions_store h data suggestions = Some (h', newData)
    /\ (newData ∉ dom h)
    /\ (forall l, l ∈ dom h -> h' !! l = h !! l)
    /\ read_array h data = Some input
    /\ read_array h' data = Some input
    /\ read_array h' newData = Some (applyAISuggestions input suggestions).
Proof.
  intros (elems & Hdata & Hptr).
  unfold applyAISuggestions_store. rewrite Hdata. unfold alloc.
  set (nd := fresh (dom h)).
  assert (Hnd : nd ∉ dom h) by apply is_fresh.
  assert (Hold : forall l, l ∈ dom h -> (<[nd := OArray elems]> h) !! l = h !! l).
  { intros l Hl. apply lookup_insert_ne. intros ->. by apply Hnd. }
  assert (Hptr0 : forall l, Some l ∈ elems ->
            exists r, (<[nd := OArray elems]> h) !! l = Some (ORow r)).
  { intros l Hl. destruct (Hptr l Hl) as [r Hr]. exists r.
    rewrite Hold; [done|]. by apply elem_of_dom_2 in Hr. }
  destruct (merge_store_fold h nd Hnd suggestions (<[nd := OArray elems]> h) elems
              Hold (lookup_insert_eq _ _ _) Hptr0)
    as (Hkeep & elems' & Hnd' & Hread).
  assert (Hsame : map (read_slot (<[nd := OArray elems]> h)) elems
                  = map (read_slot h) elems).
  { apply map_ext_in. intros [l|] Hin; simpl; [|done].
    rewrite Hold; [done|].
    apply list_elem_of_In in Hin. destruct (Hptr l Hin) as [r Hr].
    by apply elem_of_dom_2 in Hr. }
  eexists _, nd, (map (read_slot h) elems).
  split; [reflexivity|]. split; [done|]. split; [done|].
  split. { unfold read_array. by rewrite Hdata. }
  split.
  { unfold read_array. rewrite Hkeep by (by apply elem_of_dom_2 in Hdata).
    rewrite Hdata. f_equal. apply map_ext_in. intros [l|] Hin; simpl; [|done].
    rewrite Hkeep; [done|].
    apply list_elem_of_In in Hin. destruct (Hptr l Hin) as [r Hr].
    by apply elem_of_dom_2 in Hr. }
  unfold read_array. rewrite Hnd'. by rewrite Hread, Hsame.
Qed.

Lemma applyAISuggestions_does_not_mutate_witness :
  exists h' newData input,
    applyAISuggestions_store frame_store 1
      [suggest 0 "email" (SStr "a@gmail.com") (decimal 9 1) true] = Some (h', newData)
    /\ (newData ∉ dom frame_store)
    /\ (forall l, l ∈ dom frame_store -> h' !! l = frame_store !! l)
    /\ read_array frame_store 1 = Some input
    /\ read_array h' 1 = Some input
    /\ read_array h' newData
       = Some (applyAISuggestions input
                 [suggest 0 "email" (SStr "a@gmail.com") (decimal 9 1) true]).
Proof.
  apply (applyAISuggestions_does_not_mutate frame_store 1).
  exists [Some 2%positive; Some 3%positive]. split; [reflexivity|].
  intros l Hl. apply list_elem_of_In in Hl. simpl in Hl.
  destruct Hl as [Hl|[Hl|[]]]; injection Hl as <-; eexists; reflexivity.
Defined.

(* --------------------------------------------------------------------- *)
(** ** The natural-language search *)
(* --------------------------------------------------------------------- *)

Section search.
Context `{Host}.

(** The duration pattern allows no blank between [than] and the number, so
    the query of the example yields no condition at all. *)
Lemma parse_duration_more_than :
  parseNaturalLanguageQuery "duration more than 5" = ("AND", []).
Proof. vm_compute. reflexivity. Qed.

(** With the operator written [>], where the pattern allows blanks, the
    condition is found and the string ["10"] is compared as the number 10. *)
Lemma search_duration_gt :
  matchedRows <$> executeNaturalLanguageSearch duration_rows "duration > 5"
  = Ok [1%nat; 2%nat].
Proof. vm_compute. reflexivity. Qed.

(** The priority patterns have the blank that the duration pattern lacks. *)
Lemma parse_priority_more_than :
  parseNaturalLanguageQuery "priority more than 5"
  = ("AND", [mk_condition "prioritylevel" ">" (SNum (of_nat 5))]).
Proof. vm_compute. reflexivity. Qed.

(** C2 on the code.  The query ["duration more than 5"] over the three rows
    returns all three indices, [[0; 1; 2]], not [[1; 2]]: no condition is
    parsed, and a row matches when all of no conditions hold. *)
Theorem search_duration_more_than_5 :
  executeNaturalLanguageSearch duration_rows "duration more than 5"
  = Ok {| matchedRows := [0%nat; 1%nat; 2%nat];
          query := "duration more than 5";
          explanation := "Found 3 rows matching: duration more than 5" |}.
Proof. vm_compute. reflexivity. Qed.

(** ** No function of the core is fatal? *)

(** C9 on the code.  [generateAIValidationSuggestions] throws a TypeError
    on a row whose role is the number 5 and whose skills are empty: the rule
    [smart_skill_suggestions] calls [role.toLowerCase()] without the test
    [typeof role === 'string'] that the email and phone rules make. *)
Theorem generateAIValidationSuggestions_throws :
  generateAIValidationSuggestions numeric_role_rows "worker"
  = Throw (TypeError "role.toLowerCase is not a function")
  /\ smart_skill_suggestions numeric_role_rows "worker"
     = Throw (TypeError "role.toLowerCase is not a function")
  /\ smart_email_correction numeric_role_rows "worker" = Ok []
  /\ smart_phone_correction numeric_role_rows "worker" = Ok [].
Proof. repeat split; vm_compute; reflexivity. Qed.

(** The search throws as well: the query ["phase 2"] gives an [includes]
    condition with the number 2; on a cell that is not JSON the catch block
    calls [toLowerCase] on that number. *)
Lemma search_phase_throws :
  JSON_parse "1-3" = None ->
  executeNaturalLanguageSearch range_phase_rows "phase 2"
  = Throw (TypeError "condition.value.toLowerCase is not a function").
Proof.
  intros Hparse. unfold executeNaturalLanguageSearch.
  change (parseNaturalLanguageQuery "phase 2")
    with ("AND", [mk_condition "preferredphases" "includes" (SNum (of_nat 2))]).
  simpl. unfold matchesCondition. simpl. by rewrite Hparse.
Qed.

End search.

End AiEngineSpec.

(* --------------------------------------------------------------------- *)
(** ** The rounding of binary64 numbers *)

Module IeeeFacts.
Import Js Ieee.
Local Open Scope Q_scope.
Local Abbreviation u := unit_roundoff.
Local Abbreviation eta := half_least.

(** The operations of [Ieee] return what the kernel computes on binary64
    numbers, on every pair of the samples. *)
Lemma agrees_with_binary64 :
  map (fun '(x, y) =>
         (of_float (PrimFloat.add x y), of_float (PrimFloat.sub x y),
          of_float (PrimFloat.div x y)))
    sample_pairs
  = map (fun '(x, y) =>
           (add (of_float x) (of_float y), sub (of_float x) (of_float y),
            div (of_float x) (of_float y)))
      sample_pairs.
Proof. vm_compute. reflexivity. Qed.

Lemma pow2_pos e : 0 < pow2 e.
Proof. apply Qpower_0_lt. reflexivity. Qed.

Lemma pow2_add a b : pow2 (a + b) == pow2 a * pow2 b.
Proof. apply Qpower_plus. discriminate. Qed.

Lemma pow2_le a b : (a <= b)%Z -> pow2 a <= pow2 b.
Proof. intros H. apply Qpower_le_compat_l; [done|]. discriminate. Qed.

Lemma pow2_lt a b : (a < b)%Z -> pow2 a < pow2 b.
Proof. intros H. apply Qpower_lt_compat_l; [done|]. reflexivity. Qed.

Lemma pow2_cancel p : pow2 (- p) * pow2 p == 1.
Proof. rewrite <- pow2_add. by replace (- p + p)%Z with 0%Z by lia. Qed.

Lemma pow2_Z k : (0 <= k)%Z -> inject_Z (2 ^ k) == pow2 k.
Proof. intros H. unfold pow2. by rewrite Zpower_Qpower. Qed.

Lemma pow2_succ e : pow2 (e + 1) == 2 * pow2 e.
Proof. rewrite pow2_add. unfold pow2 at 2. simpl. ring. Qed.

Lemma round_half_even_near y :
  y - (1 # 2) <= inject_Z (round_half_even y) <= y + (1 # 2).
Proof.
  unfold round_half_even.
  pose proof (Qfloor_le y) as Hlo. pose proof (Qlt_floor y) as Hhi.
  rewrite inject_Z_plus in Hhi. change (inject_Z 1) with 1 in Hhi.
  destruct (Qcompare_spec (y - inject_Z (Qfloor y)) (1 # 2)) as [He|Hl|Hg].
  - destruct (Z.even (Qfloor y)); [|rewrite inject_Z_plus; change (inject_Z 1) with 1]; lra.
  - lra.
  - rewrite inject_Z_plus. change (inject_Z 1) with 1. lra.
Qed.

Lemma round_half_even_Z k : round_half_even (inject_Z k) = k.
Proof.
  unfold round_half_even. rewrite Qfloor_Z.
  destruct (Qcompare_spec (inject_Z k - inject_Z k) (1 # 2)) as [He|Hl|Hg]; [lra|done|lra].
Qed.

Lemma round_half_even_proper y y' : y == y' -> round_half_even y = round_half_even y'.
Proof.
  intros H. unfold round_half_even.
  assert (Hf : Qfloor y = Qfloor y') by (by rewrite H).
  rewrite Hf. by rewrite H.
Qed.

Lemma round_half_even_nonneg y : 0 <= y -> (0 <= round_half_even y)%Z.
Proof.
  intros Hy. unfold round_half_even.
  assert (0 <= Qfloor y)%Z.
  { change 0%Z with (Qfloor 0). by apply Qfloor_resp_le. }
  destruct (_ ?= _); [destruct (Z.even _)|..]; lia.
Qed.

Lemma Z_to_Q_le (a b : Z) : (a <= b)%Z -> inject_Z a <= inject_Z b.
Proof. by rewrite <- Zle_Qle. Qed.

Lemma Z_to_Q_lt (a b : Z) : (a < b)%Z -> inject_Z a < inject_Z b.
Proof. by rewrite <- Zlt_Qlt. Qed.

(** The integer logarithm brackets a positive integer. *)
Lemma log2_bracket (n : Z) :
  (0 < n)%Z -> pow2 (Z.log2 n) <= inject_Z n /\ inject_Z n < pow2 (Z.log2 n + 1).
Proof.
  intros Hn. destruct (Z.log2_spec n Hn) as [Hlo Hhi].
  pose proof (Z.log2_nonneg n) as Hnn.
  split.
  - rewrite <- pow2_Z by done. by apply Z_to_Q_le.
  - rewrite <- pow2_Z by lia. apply Z_to_Q_lt. by rewrite <- Z.add_1_r in Hhi.
Qed.

Lemma Q_as_fraction (a : Q) : a * inject_Z (Zpos (Qden a)) == inject_Z (Qnum a).
Proof.
  destruct a as [n d]. unfold Qeq, Qmult, inject_Z. simpl. lia.
Qed.

Lemma floor_log2_spec (a : Q) :
  0 < a -> pow2 (floor_log2 a) <= a /\ a < pow2 (floor_log2 a + 1).
Proof.
  intros Ha. unfold floor_log2.
  set (n := Qnum a). set (d := Zpos (Qden a)).
  assert (Hn : (0 < n)%Z).
  { unfold n. destruct a as [k ?]. unfold Qlt in Ha. simpl in *. lia. }
  assert (Hd : (0 < d)%Z) by done.
  destruct (log2_bracket n Hn) as [Hn1 Hn2]. destruct (log2_bracket d Hd) as [Hd1 Hd2].
  pose proof (Q_as_fraction a) as Hfrac. fold n d in Hfrac.
  set (ln := Z.log2 n) in *. set (ld := Z.log2 d) in *.
  assert (Hdpos : 0 < inject_Z d) by (by apply (Z_to_Q_lt 0)).
  (* a < 2^(ln - ld + 1), and 2^(ln - ld - 1) < a *)
  assert (Hup : a < pow2 (ln - ld + 1)).
  { apply Qmult_lt_r with (z := pow2 ld); [apply pow2_pos|].
    rewrite <- pow2_add. replace (ln - ld + 1 + ld)%Z with (ln + 1)%Z by lia.
    apply Qle_lt_trans with (y := a * inject_Z d).
    - apply Qmult_le_l; [done|done].
    - by rewrite Hfrac. }
  assert (Hdown : pow2 (ln - ld - 1) < a).
  { apply Qmult_lt_r with (z := pow2 (ld + 1)); [apply pow2_pos|].
    rewrite <- pow2_add. replace (ln - ld - 1 + (ld + 1))%Z with ln by lia.
    apply Qle_lt_trans with (y := a * inject_Z d).
    - by rewrite Hfrac.
    - apply Qmult_lt_l; [done|done]. }
  destruct (Qle_bool (pow2 (ln - ld)) a) eqn:E.
  - apply Qle_bool_iff in E. by split.
  - split.
    + by apply Qlt_le_weak.
    + replace (ln - ld - 1 + 1)%Z with (ln - ld)%Z by lia.
      apply Qnot_le_lt. intros Hle. apply Qle_bool_iff in Hle. congruence.
Qed.

Lemma grid_proper q q' : q == q' -> grid q -> grid q'.
Proof. intros H [k Hk]. exists k. by rewrite <- H. Qed.

Lemma grid_zero : grid 0.
Proof. exists 0%Z. ring. Qed.

Lemma grid_add x y : grid x -> grid y -> grid (x + y).
Proof.
  intros [k Hk] [l Hl]. exists (k + l)%Z. rewrite inject_Z_plus, Hk, Hl. ring.
Qed.

Lemma grid_opp x : grid x -> grid (- x).
Proof. intros [k Hk]. exists (- k)%Z. rewrite inject_Z_opp, Hk. ring. Qed.

Lemma grid_scaled (m p : Z) : (-1074 <= p)%Z -> grid (inject_Z m * pow2 p).
Proof.
  intros Hp. exists (m * 2 ^ (p + 1074))%Z.
  rewrite inject_Z_mult, pow2_Z by lia.
  rewrite <- Qmult_assoc, <- pow2_add. by replace (p + 1074 + -1074)%Z with p by lia.
Qed.

Lemma last_place_spec (a : Q) :
  0 < a ->
  let p := last_place a in
  (-1074 <= p)%Z
  /\ (pow2 (-1022) <= a -> pow2 (p - 1) <= u * a)
  /\ (a < pow2 (-1022) -> p = (-1074)%Z).
Proof.
  intros Ha p. destruct (floor_log2_spec a Ha) as [Hlo Hhi].
  unfold p, last_place. set (e := floor_log2 a) in *.
  split; [lia|]. split.
  - intros Hn.
    assert (He : (-1022 <= e)%Z).
    { destruct (Z_lt_le_dec e (-1022)) as [Hlt|]; [|done]. exfalso.
      assert (pow2 (e + 1) <= pow2 (-1022)) by (apply pow2_le; lia). lra. }
    replace (Z.max (e - 52) (-1074) - 1)%Z with (-53 + e)%Z by lia.
    rewrite pow2_add. fold u. apply Qmult_le_l; [apply pow2_pos|done].
  - intros Hs.
    assert (He : (e < -1022)%Z).
    { destruct (Z_lt_le_dec e (-1022)) as [|Hge]; [done|]. exfalso.
      assert (pow2 (-1022) <= pow2 e) by (by apply pow2_le). lra. }
    lia.
Qed.

Lemma round_magnitude_spec (a : Q) :
  0 < a -> a < pow2 1023 ->
  exists r,
    round_magnitude a = Some r
    /\ 0 <= r /\ grid r
    /\ (pow2 (-1022) <= a -> (1 - u) * a <= r <= (1 + u) * a)
    /\ (a < pow2 (-1022) -> a - eta <= r <= a + eta)
    /\ (a < pow2 (-1022) -> grid a -> r == a).
Proof.
  intros Ha Hmax. unfold round_magnitude.
  destruct (last_place_spec a Ha) as (Hp & Hnormal & Hsub).
  set (p := last_place a) in *.
  set (y := a * pow2 (- p)). set (m := round_half_even y).
  set (r := inject_Z m * pow2 p).
  assert (Hy : y * pow2 p == a).
  { unfold y. rewrite <- Qmult_assoc, pow2_cancel. ring. }
  assert (Hynn : 0 <= y).
  { unfold y. apply Qmult_le_0_compat; [lra|]. apply Qlt_le_weak, pow2_pos. }
  pose proof (round_half_even_near y) as [Hm1 Hm2]. fold m in Hm1, Hm2.
  pose proof (round_half_even_nonneg y Hynn) as Hmnn. fold m in Hmnn.
  pose proof (pow2_pos p) as Hpp.
  assert (Hhalf : pow2 (p - 1) * 2 == pow2 p).
  { replace p with (p - 1 + 1)%Z at 2 by lia. rewrite pow2_succ. ring. }
  assert (Hnear : a - pow2 (p - 1) <= r /\ r <= a + pow2 (p - 1)).
  { unfold r. rewrite <- Hy. split.
    - apply Qle_trans with (y := (y - (1 # 2)) * pow2 p); [|by apply Qmult_le_compat_r; [|lra]].
      rewrite <- Hhalf. lra.
    - apply Qle_trans with (y := (y + (1 # 2)) * pow2 p); [by apply Qmult_le_compat_r; [|lra]|].
      rewrite <- Hhalf. lra. }
  assert (Hrnn : 0 <= r).
  { unfold r. apply Qmult_le_0_compat; [by apply (Z_to_Q_le 0)|lra]. }
  assert (Hsmall : pow2 (p - 1) <= u * a \/ pow2 (p - 1) == eta).
  { destruct (Qlt_le_dec a (pow2 (-1022))) as [Hs|Hn].
    - right. rewrite (Hsub Hs). reflexivity.
    - left. by apply Hnormal. }
  assert (Hu : u <= 1 # 2) by (vm_compute; discriminate).
  assert (Heta : eta <= pow2 1023) by (apply pow2_le; lia).
  assert (Hbound : r < pow2 1024).
  { assert (H1024 : pow2 1024 == 2 * pow2 1023) by (apply (pow2_succ 1023)).
    rewrite H1024. destruct Hnear as [_ Hr].
    destruct Hsmall as [Hs|Hs].
    - assert (u * a <= (1 # 2) * a) by (apply Qmult_le_compat_r; lra). lra.
    - rewrite Hs in Hr. lra. }
  exists r. split.
  { destruct (Qle_bool (pow2 1024) r) eqn:E; [|done].
    apply Qle_bool_iff in E. lra. }
  split; [done|]. split; [by apply grid_scaled|].
  split; [|split].
  - intros Hn. specialize (Hnormal Hn). destruct Hnear. split; lra.
  - intros Hs. rewrite (Hsub Hs) in Hnear. exact Hnear.
  - intros Hs [k Hk]. unfold r, m.
    assert (Hyk : y == inject_Z k).
    { unfold y. rewrite Hk, (Hsub Hs). rewrite <- Qmult_assoc.
      assert (Hc : pow2 (-1074) * pow2 (- -1074) == 1)
        by (rewrite Qmult_comm; apply pow2_cancel).
      rewrite Hc. ring. }
    rewrite (round_half_even_proper _ _ Hyk), round_half_even_Z.
    rewrite (Hsub Hs). by rewrite Hk.
Qed.

Lemma nonneg_cases (a : Q) : 0 <= a -> (Qnum a = 0%Z /\ a == 0) \/ (exists p, Qnum a = Zpos p) /\ 0 < a.
Proof.
  destruct a as [[|p|p] d]; unfold Qle, Qlt, Qeq; simpl; intros H.
  - left. split; [done|lia].
  - right. split; [by eexists|lia].
  - lia.
Qed.

Lemma Qred_fixed (r : Q) : Qred (Qred r) = Qred r.
Proof. apply Qred_complete, Qred_correct. Qed.

(** The rounding of a rational that is not negative and below [2^1023]. *)
Lemma round_double_spec (a : Q) :
  0 <= a -> a < pow2 1023 ->
  exists r,
    round_double a = Fin r /\ Qred r = r
    /\ 0 <= r /\ grid r
    /\ (pow2 (-1022) <= a -> (1 - u) * a <= r <= (1 + u) * a)
    /\ (a < pow2 (-1022) -> a - eta <= r <= a + eta)
    /\ (a < pow2 (-1022) -> grid a -> r == a).
Proof.
  intros Ha Hmax. unfold round_double.
  destruct (nonneg_cases a Ha) as [[Hz Hzero]|[[p Hp] Hpos]].
  - rewrite Hz. exists 0. split; [done|]. split; [done|]. split; [done|].
    split; [apply grid_zero|].
    pose proof (pow2_pos (-1022)). pose proof (pow2_pos (-1075)). unfold eta.
    split; [intros; lra|]. split; [intros; lra|]. intros. by rewrite Hzero.
  - rewrite Hp.
    destruct (round_magnitude_spec a Hpos Hmax) as (r & -> & Hr & Hg & Hn & Hs & He).
    exists (Qred r). unfold fin. rewrite Qred_fixed.
    pose proof (Qred_correct r) as Hc.
    split; [done|]. split; [done|]. split; [by rewrite Hc|].
    split; [by apply (grid_proper r); [symmetry|]|].
    split; [intros H; rewrite Hc; by apply Hn|].
    split; [intros H; rewrite Hc; by apply Hs|].
    intros H1 H2. rewrite Hc. by apply He.
Qed.

Lemma u_pos : 0 < u.
Proof. apply pow2_pos. Qed.

Lemma u_small : u <= 1 # 1024.
Proof. vm_compute. discriminate. Qed.

(** The sum of two doubles that are not negative is rounded with a relative
    error of at most [u], also where the result is subnormal. *)
Lemma round_add (x y : Q) :
  0 <= x -> 0 <= y -> grid x -> grid y -> x + y < pow2 1023 ->
  exists r,
    add (Fin x) (Fin y) = Fin r /\ Qred r = r /\ grid r
    /\ (1 - u) * (x + y) <= r <= (1 + u) * (x + y).
Proof.
  intros Hx Hy Gx Gy Hmax. unfold add, num_add, fin, dbl.
  pose proof (Qred_correct (x + y)) as Hc.
  destruct (round_double_spec (Qred (x + y))) as (r & -> & Hred & Hr & Hg & Hn & _ & He).
  { rewrite Hc. lra. }
  { by rewrite Hc. }
  exists r. split; [done|]. split; [done|]. split; [done|].
  destruct (Qlt_le_dec (Qred (x + y)) (pow2 (-1022))) as [Hs|Hnorm].
  - assert (Hex : r == x + y).
    { rewrite <- Hc. apply He; [done|]. apply (grid_proper (x + y)); [by symmetry|].
      by apply grid_add. }
    rewrite Hex. pose proof u_pos. split; nra.
  - rewrite <- Hc. by apply Hn.
Qed.

(** The quotient of two doubles, the divisor positive. *)
Lemma round_div (x s : Q) :
  0 <= x -> 0 < s -> x / s < pow2 1023 ->
  exists r,
    div (Fin x) (Fin s) = Fin r /\ Qred r = r /\ grid r /\ 0 <= r
    /\ (1 - u) * (x / s) - eta <= r <= (1 + u) * (x / s) + eta.
Proof.
  intros Hx Hs Hmax. unfold div, num_div, q_sign, fin, dbl.
  assert (Hsn : (Qnum s ?= 0)%Z = Gt).
  { destruct s as [n d]. unfold Qlt in Hs. simpl in *. apply Z.compare_gt_iff. lia. }
  rewrite Hsn.
  pose proof (Qred_correct (x / s)) as Hc.
  assert (Hq : 0 <= x / s).
  { apply Qle_shift_div_l; [done|]. lra. }
  destruct (round_double_spec (Qred (x / s))) as (r & -> & Hred & Hr & Hg & Hn & Hsm & _).
  { by rewrite Hc. }
  { by rewrite Hc. }
  exists r. split; [done|]. split; [done|]. split; [done|]. split; [done|].
  pose proof u_pos. pose proof (pow2_pos (-1075)) as Heta. fold eta in Heta.
  destruct (Qlt_le_dec (Qred (x / s)) (pow2 (-1022))) as [Hsub|Hnorm].
  - specialize (Hsm Hsub). rewrite Hc in Hsm. split; nra.
  - specialize (Hn Hnorm). rewrite Hc in Hn. split; lra.
Qed.

Lemma round_double_grid (q : Q) (r : Q) : round_double q = Fin r -> grid r.
Proof.
  unfold round_double, round_magnitude.
  destruct (Qnum q).
  - intros [= <-]. apply grid_zero.
  - destruct (Qle_bool _ _); [done|]. intros [= <-].
    apply (grid_proper (inject_Z (round_half_even (q * pow2 (- last_place q)))
                        * pow2 (last_place q))).
    + symmetry. apply Qred_correct.
    + apply grid_scaled. unfold last_place. lia.
  - destruct (Qle_bool _ _); [done|]. intros [= <-].
    eapply grid_proper; [symmetry; apply Qred_correct|].
    apply grid_opp, grid_scaled. unfold last_place. lia.
Qed.

End IeeeFacts.

(* --------------------------------------------------------------------- *)
(** ** Sums and quotients of binary64 numbers *)

Module RoundedFacts.
Import Js Ieee IeeeFacts Prioritization Rounded.
Local Open Scope Q_scope.
Local Abbreviation u := unit_roundoff.
Local Abbreviation eta := half_least.

Lemma q_of_nat_S k : q_of_nat (S k) == q_of_nat k + 1.
Proof. unfold q_of_nat. rewrite Nat2Z.inj_succ, <- Z.add_1_r, inject_Z_plus. reflexivity. Qed.

Lemma q_of_nat_nonneg k : 0 <= q_of_nat k.
Proof. unfold q_of_nat. apply (Z_to_Q_le 0). lia. Qed.

Lemma q_of_nat_le k (N : Z) : (Z.of_nat k <= N)%Z -> q_of_nat k <= inject_Z N.
Proof. apply Z_to_Q_le. Qed.

Lemma weight_on_grid a : weight_range a -> on_grid a.
Proof.
  intros (q & -> & Hd & Hq). exists q. split; [done|]. split; [|done].
  by apply (round_double_grid q).
Qed.

Lemma step_lo (x v S0 s0 w s1 : Q) :
  0 <= x <= 1 # 4 -> 0 < v <= 1 # 4 -> 0 <= S0 -> 0 <= w ->
  (1 - x) * S0 <= s0 -> (1 - v) * (s0 + w) <= s1 ->
  (1 - (x + v)) * (S0 + w) <= s1.
Proof.
  intros Hx Hv HS Hw Hs Hs1.
  assert (H1 : (1 - v) * ((1 - x) * S0 + w) <= (1 - v) * (s0 + w))
    by (apply Qmult_le_l; lra).
  assert (H2 : 0 <= x * v * S0 + x * w).
  { assert (0 <= x * v) by (apply Qmult_le_0_compat; lra).
    assert (0 <= x * v * S0) by (by apply Qmult_le_0_compat).
    assert (0 <= x * w) by (apply Qmult_le_0_compat; lra). lra. }
  assert (H3 : (1 - v) * ((1 - x) * S0 + w) == (1 - (x + v)) * (S0 + w) + (x * v * S0 + x * w))
    by ring.
  lra.
Qed.

Lemma step_hi (x v S0 s0 w s1 : Q) :
  0 <= x <= 1 # 4 -> 0 < v <= 1 # 4 -> 0 <= S0 -> 0 <= w ->
  s0 <= (1 + 2 * x) * S0 -> s1 <= (1 + v) * (s0 + w) ->
  s1 <= (1 + 2 * (x + v)) * (S0 + w).
Proof.
  intros Hx Hv HS Hw Hs Hs1.
  assert (H1 : (1 + v) * (s0 + w) <= (1 + v) * ((1 + 2 * x) * S0 + w))
    by (apply Qmult_le_l; lra).
  assert (H2 : 0 <= v * (1 - 2 * x) * S0 + (2 * x + v) * w).
  { assert (0 <= v * (1 - 2 * x)) by (apply Qmult_le_0_compat; lra).
    assert (0 <= v * (1 - 2 * x) * S0) by (by apply Qmult_le_0_compat).
    assert (0 <= (2 * x + v) * w) by (apply Qmult_le_0_compat; lra). lra. }
  assert (H3 : (1 + 2 * (x + v)) * (S0 + w)
               == (1 + v) * ((1 + 2 * x) * S0 + w)
                  + (v * (1 - 2 * x) * S0 + (2 * x + v) * w)) by ring.
  lra.
Qed.

Lemma many_u : inject_Z many * u <= 1 # 4.
Proof. vm_compute. discriminate. Qed.

Lemma count_u (k : nat) : (Z.of_nat k <= many)%Z -> 0 <= q_of_nat k * u <= 1 # 4.
Proof.
  intros Hk. pose proof u_pos. split.
  - apply Qmult_le_0_compat; [apply q_of_nat_nonneg|lra].
  - apply Qle_trans with (y := inject_Z many * u); [|apply many_u].
    apply Qmult_le_compat_r; [|lra]. by apply q_of_nat_le.
Qed.

Lemma room : 2 * (inject_Z many * pow2 1000) < pow2 1023.
Proof. vm_compute. reflexivity. Qed.

Lemma rounded_sum (B : Q) (xs : list number) :
  0 < B -> 2 * (inject_Z many * B) < pow2 1023 ->
  Forall (on_grid_to B) xs ->
  forall (k : nat) (s0 S0 : Q),
    (Z.of_nat (k + length xs) <= many)%Z ->
    grid s0 -> Qred s0 = s0 -> 0 <= S0 <= q_of_nat k * B ->
    (1 - q_of_nat k * u) * S0 <= s0 <= (1 + 2 * (q_of_nat k * u)) * S0 ->
    exists s,
      fold_left add xs (Fin s0) = Fin s /\ grid s /\ Qred s = s
      /\ (1 - q_of_nat (k + length xs) * u) * (S0 + exact_sum xs) <= s
      /\ s <= (1 + 2 * (q_of_nat (k + length xs) * u)) * (S0 + exact_sum xs)
      /\ 0 <= S0 + exact_sum xs <= q_of_nat (k + length xs) * B.
Proof.
  intros H1000 Hroom.
  induction 1 as [|a xs Ha Hxs IH]; intros k s0 S0 Hk Gs Hc HS Hs.
  - exists s0. rewrite Nat.add_0_r. simpl. rewrite Qplus_0_r. tauto.
  - destruct Ha as (w & -> & Gw & Hw).
    cbn [fold_left exact_sum fold_right rat length] in *.
    pose proof u_pos as Hu. pose proof u_small as Hu'.
    assert (Hx : 0 <= q_of_nat k * u <= 1 # 4) by (apply count_u; lia).
    set (x := q_of_nat k * u) in *.
    assert (Hs0 : 0 <= s0).
    { assert (0 <= (1 - x) * S0) by (apply Qmult_le_0_compat; lra). lra. }
    assert (Hmany : (q_of_nat k + 1) * B <= inject_Z many * B).
    { apply Qmult_le_compat_r; [|lra]. rewrite <- q_of_nat_S. apply q_of_nat_le. lia. }
    assert (Hs0' : s0 <= 2 * S0).
    { assert ((1 + 2 * x) * S0 <= 2 * S0) by (apply Qmult_le_compat_r; lra). lra. }
    destruct (round_add s0 w) as (s1 & -> & Hc1 & Gs1 & Hs1); [done|lra|done|done|lra|].
    assert (Hx' : q_of_nat (S k) * u == x + u) by (rewrite q_of_nat_S; unfold x; ring).
    destruct (IH (S k) s1 (S0 + w)) as (s & Hfold & Gs' & Hc' & Hlo & Hhi & Hsum).
    + lia.
    + done.
    + done.
    + rewrite q_of_nat_S. split; [lra|].
      assert ((q_of_nat k + 1) * B == q_of_nat k * B + B) by ring.
      lra.
    + rewrite Hx'. split.
      * apply (step_lo x u S0 s0 w s1); lra.
      * apply (step_hi x u S0 s0 w s1); lra.
    + exists s. replace (k + S (length xs))%nat with (S k + length xs)%nat by lia.
      split; [done|]. split; [done|]. split; [done|].
      assert (Heq : S0 + (w + exact_sum xs) == S0 + w + exact_sum xs) by ring.
      rewrite Heq. tauto.
Qed.

Lemma final_bounds (x v rho R t e : Q) :
  0 <= x <= 1 # 1024 -> 0 < v <= 1 # 1024 -> x * x <= (1 # 8192) * v ->
  0 <= e <= (1 # 4) * v ->
  1 - 2 * x <= rho <= 1 + 2 * x ->
  (1 - v) * rho - e <= R <= (1 + v) * rho + e ->
  (1 - x) * R <= t <= (1 + 2 * x) * R ->
  Qabs (R - 1) <= 4 * x + 2 * v /\ Qabs (t - 1) <= 4 * x + 2 * v.
Proof.
  intros Hx Hv Hxx He Hrho HR Ht.
  cut ((1 - (4 * x + 2 * v) <= R <= 1 + (4 * x + 2 * v))
       /\ (1 - (4 * x + 2 * v) <= t <= 1 + (4 * x + 2 * v))).
  { intros [H1 H2]. split; apply Qabs_Qle_condition; lra. }
  assert (Hxv : 0 <= x * v <= (1 # 1024) * v).
  { split; [apply Qmult_le_0_compat; lra|]. apply Qmult_le_compat_r; lra. }
  assert (Hr1 : (1 + v) * rho <= (1 + v) * (1 + 2 * x)) by (apply Qmult_le_l; lra).
  assert (Hr2 : (1 - v) * (1 - 2 * x) <= (1 - v) * rho) by (apply Qmult_le_l; lra).
  assert (E1 : (1 + v) * (1 + 2 * x) == 1 + 2 * x + v + 2 * (x * v)) by ring.
  assert (E2 : (1 - v) * (1 - 2 * x) == 1 - 2 * x - v + 2 * (x * v)) by ring.
  assert (HRhi : R <= 1 + 2 * x + (2 # 1) * v) by lra.
  assert (HRlo : 1 - 2 * x - (2 # 1) * v <= R) by lra.
  split; [lra|].
  assert (HRpos : 0 <= R) by lra.
  assert (Ht1 : (1 + 2 * x) * R <= (1 + 2 * x) * (1 + 2 * x + v + 2 * (x * v) + e))
    by (apply Qmult_le_l; lra).
  assert (Ht2 : (1 - x) * (1 - 2 * x - v + 2 * (x * v) - e) <= (1 - x) * R)
    by (apply Qmult_le_l; lra).
  assert (Hxe : 0 <= x * e <= (1 # 1024) * e).
  { split; [apply Qmult_le_0_compat; lra|]. apply Qmult_le_compat_r; lra. }
  assert (Hxxv : 0 <= x * (x * v) <= (1 # 1024) * (x * v)).
  { split; [apply Qmult_le_0_compat; lra|]. apply Qmult_le_compat_r; lra. }
  assert (Hxx0 : 0 <= x * x) by (apply Qmult_le_0_compat; lra).
  assert (E3 : (1 + 2 * x) * (1 + 2 * x + v + 2 * (x * v) + e)
               == 1 + 4 * x + 4 * (x * x) + v + 4 * (x * v) + 4 * (x * (x * v))
                  + e + 2 * (x * e)) by ring.
  assert (E4 : (1 - x) * (1 - 2 * x - v + 2 * (x * v) - e)
               == 1 - 3 * x + 2 * (x * x) - v + 3 * (x * v) - 2 * (x * (x * v))
                  - e + x * e) by ring.
  lra.
Qed.

Lemma exact_sum_nonneg (B : Q) (xs : list number) :
  Forall (on_grid_to B) xs ->
  0 <= exact_sum xs /\ Forall (fun a => rat a <= exact_sum xs) xs.
Proof.
  induction 1 as [|a xs (w & -> & _ & Hw) _ [IH1 IH2]]; cbn [exact_sum fold_right rat].
  - split; [lra|constructor].
  - fold (exact_sum xs). split; [lra|]. constructor; [cbn [rat]; lra|].
    eapply Forall_impl; [exact IH2|]. intros b Hb. cbn beta in *. lra.
Qed.

(** The quotients of the entries by a positive double: each is rounded, and
    so is their sum, up to the smallest half place for each entry. *)
Lemma rounded_quotients (s : Q) (xs : list number) :
  0 < s ->
  Forall (fun a => on_grid a /\ rat a <= 2 * s) xs ->
  Forall on_grid (map (fun a => div a (Fin s)) xs)
  /\ (1 - u) * (exact_sum xs / s) - q_of_nat (length xs) * eta
     <= exact_sum (map (fun a => div a (Fin s)) xs)
  /\ exact_sum (map (fun a => div a (Fin s)) xs)
     <= (1 + u) * (exact_sum xs / s) + q_of_nat (length xs) * eta.
Proof.
  intros Hs. pose proof u_pos as Hu. pose proof u_small as Hu'.
  assert (Heta : 0 < eta <= 1 # 4) by (split; [apply pow2_pos|vm_compute; discriminate]).
  induction 1 as [|a xs [(w & -> & Gw & Hw) Hle] _ (IH1 & IH2 & IH3)].
  - cbn [map exact_sum fold_right length]. split; [constructor|].
    assert (E : 0 / s == 0) by (unfold Qdiv; ring).
    assert (E' : q_of_nat 0 * eta == 0) by (unfold q_of_nat; simpl; ring).
    rewrite E, E'. split; ring_simplify; lra.
  - cbn [map exact_sum fold_right rat length] in *. fold (exact_sum xs).
    fold (exact_sum (map (fun a => div a (Fin s)) xs)).
    assert (Hq : w / s <= 2) by (apply Qle_shift_div_r; lra).
    assert (Hq0 : 0 <= w / s) by (apply Qle_shift_div_l; lra).
    destruct (round_div w s) as (r & Hr & Hc & Gr & Hr0 & Hr1 & Hr2); [lra|done|..].
    { apply Qle_lt_trans with (y := 2); [done|]. vm_compute. reflexivity. }
    rewrite Hr. cbn [rat].
    assert (Hr4 : r <= 4).
    { assert (u * (w / s) <= (1 # 1024) * 2).
      { apply Qle_trans with (y := (1 # 1024) * (w / s));
          [apply Qmult_le_compat_r; lra|apply Qmult_le_l; lra]. }
      lra. }
    split; [|split].
    + constructor; [|done].
      exists r. split; [done|]. split; [done|]. split; [done|].
      apply Qle_trans with (y := 4); [done|]. vm_compute. discriminate.
    + rewrite q_of_nat_S.
      assert (E : (w + exact_sum xs) / s == w / s + exact_sum xs / s) by (field; lra).
      rewrite E. lra.
    + rewrite q_of_nat_S.
      assert (E : (w + exact_sum xs) / s == w / s + exact_sum xs / s) by (field; lra).
      rewrite E. lra.
Qed.

Lemma zero_canonical (s : Q) : Qred s = s -> s == 0 -> s = 0.
Proof. intros Hc Hz. rewrite <- Hc. by rewrite (Qred_complete _ _ Hz). Qed.

Lemma zero_numerator (w : Q) : w == 0 -> Qnum w = 0%Z.
Proof. destruct w as [n d]. unfold Qeq. simpl. lia. Qed.

Lemma count_facts (n : nat) :
  (Z.of_nat n <= many)%Z ->
  let x := q_of_nat n * u in
  0 <= x <= 1 # 1024 /\ x * x <= (1 # 8192) * u /\ 0 <= q_of_nat n * eta <= (1 # 4) * u.
Proof.
  intros Hn x. pose proof u_pos as Hu. pose proof (q_of_nat_nonneg n) as Hnn.
  pose proof (q_of_nat_le n many Hn) as Hle.
  assert (Hx0 : 0 <= x) by (apply Qmult_le_0_compat; lra).
  assert (Hx1 : x <= inject_Z many * u) by (apply Qmult_le_compat_r; lra).
  assert (Hc1 : 0 < inject_Z many * u <= 1 # 8192)
    by (split; [vm_compute; reflexivity|vm_compute; discriminate]).
  split; [lra|]. split.
  - assert (H1 : x * x <= inject_Z many * u * x) by (apply Qmult_le_compat_r; lra).
    assert (H2 : inject_Z many * u * x == inject_Z many * u * q_of_nat n * u)
      by (unfold x; ring).
    assert (H3 : inject_Z many * u * q_of_nat n <= inject_Z many * u * inject_Z many)
      by (apply Qmult_le_l; lra).
    assert (H4 : inject_Z many * u * inject_Z many <= 1 # 8192) by (vm_compute; discriminate).
    assert (H5 : inject_Z many * u * q_of_nat n * u <= (1 # 8192) * u)
      by (apply Qmult_le_compat_r; lra).
    lra.
  - assert (He : 0 < eta) by apply pow2_pos.
    split; [apply Qmult_le_0_compat; lra|].
    apply Qle_trans with (y := inject_Z many * eta); [apply Qmult_le_compat_r; lra|].
    vm_compute. discriminate.
Qed.

Lemma zero_quotient (w : Q) : w == 0 -> div (Fin w) (Fin 0) = NaN.
Proof. intros Hw. unfold div, num_div, q_sign. simpl. by rewrite (zero_numerator w Hw). Qed.

(** The entries of a vector of doubles that are not negative, divided by
    their sum. *)
Lemma normalized (ws : list number) :
  Forall on_grid ws -> (Z.of_nat (length ws) <= many)%Z ->
  length (normalizeWeights ws) = length ws
  /\ (Ieee.sum ws = of_nat 0 <-> exact_sum ws == 0)
  /\ (Ieee.sum ws <> of_nat 0 -> sums_to_one (tolerance (length ws)) (normalizeWeights ws))
  /\ (Ieee.sum ws = of_nat 0 -> Forall (fun a => a = NaN) (normalizeWeights ws)).
Proof.
  intros Hgrid Hn.
  split; [apply length_map|].
  destruct (count_facts (length ws) Hn) as (Hx & Hxx & He).
  set (x := q_of_nat (length ws) * u) in *.
  pose proof u_pos as Hu. pose proof u_small as Hu'.
  destruct (rounded_sum (pow2 1000) ws (pow2_pos 1000) room Hgrid 0 0 0)
    as (s & Hsum & Gs & Hc & Hlo & Hhi & HS & _).
  { done. } { apply grid_zero. } { done. }
  { change (q_of_nat 0) with 0. lra. } { change (q_of_nat 0) with 0. lra. }
  cbn [Nat.add] in Hlo, Hhi. fold x in Hlo, Hhi.
  change (fold_left add ws (Fin 0)) with (Ieee.sum ws) in Hsum.
  destruct (exact_sum_nonneg _ ws Hgrid) as [_ Hentries].
  set (total := exact_sum ws) in *.
  assert (Hboth : Forall (fun a => on_grid a /\ rat a <= total) ws)
    by (apply Forall_and; by split).
  assert (Ht0 : 0 + total == total) by ring. rewrite Ht0 in Hlo, Hhi, HS. clear Ht0.
  assert (Hxt : 0 <= x * total <= (1 # 1024) * total).
  { split; [apply Qmult_le_0_compat; lra|]. apply Qmult_le_compat_r; lra. }
  assert (Hzero : Ieee.sum ws = of_nat 0 <-> total == 0).
  { rewrite Hsum. change (of_nat 0) with (Fin 0). split.
    - intros [= ->]. lra.
    - intros Hz. f_equal. apply (zero_canonical s Hc). lra. }
  split; [exact Hzero|]. split.
  - intros Hnz.
    assert (Hs : 0 < s).
    { destruct (Qlt_le_dec 0 s) as [|Hle]; [done|]. exfalso. apply Hnz. apply Hzero. lra. }
    assert (Htotal : 0 < total) by lra.
    unfold normalizeWeights. rewrite Hsum.
    destruct (rounded_quotients s ws Hs) as (Gout & Rlo & Rhi).
    { eapply Forall_impl; [exact Hboth|].
      intros a [Ga Ha]. split; [done|]. cbn beta in Ha. lra. }
    set (out := map (fun a => div a (Fin s)) ws) in *.
    assert (Hlen : length out = length ws) by apply length_map.
    destruct (rounded_sum (pow2 1000) out (pow2_pos 1000) room Gout 0 0 0)
      as (t & Hsum' & _ & _ & Tlo & Thi & _).
    { by rewrite Hlen. } { apply grid_zero. } { done. }
    { change (q_of_nat 0) with 0. lra. } { change (q_of_nat 0) with 0. lra. }
    cbn [Nat.add] in Tlo, Thi. rewrite Hlen in Tlo, Thi. fold x in Tlo, Thi.
    set (R := exact_sum out) in *.
    assert (Ht0 : 0 + R == R) by ring. rewrite Ht0 in Tlo, Thi. clear Ht0.
    assert (Hrho : 1 - 2 * x <= total / s <= 1 + 2 * x).
    { assert (Hxs : 0 <= x * s <= (1 # 1024) * s).
      { split; [apply Qmult_le_0_compat; lra|]. apply Qmult_le_compat_r; lra. }
      assert (Hxxt : 0 <= x * (x * total) <= (1 # 1024) * (x * total)).
      { split; [apply Qmult_le_0_compat; lra|]. apply Qmult_le_compat_r; lra. }
      split.
      - apply Qle_shift_div_l; [done|].
        assert (E : (1 - 2 * x) * s == s - 2 * (x * s)) by ring.
        assert (E' : (1 + 2 * x) * total == total + 2 * (x * total)) by ring.
        assert ((1 - 2 * x) * s <= (1 - 2 * x) * ((1 + 2 * x) * total))
          by (apply Qmult_le_l; lra).
        assert (E2 : (1 - 2 * x) * ((1 + 2 * x) * total) == total - 4 * (x * (x * total)))
          by ring.
        lra.
      - apply Qle_shift_div_r; [done|].
        assert ((1 + 2 * x) * ((1 - x) * total) <= (1 + 2 * x) * s)
          by (apply Qmult_le_l; lra).
        assert (E2 : (1 + 2 * x) * ((1 - x) * total)
                     == total + x * total - 2 * (x * (x * total))) by ring.
        lra. }
    destruct (final_bounds x u (total / s) R t (q_of_nat (length ws) * eta))
      as [HR Ht]; [lra|lra|done|done|done|by split|by split|].
    assert (Htol : tolerance (length ws) == 4 * x + 2 * u) by (unfold tolerance, x; ring).
    split; [|split].
    + eapply Forall_impl; [exact Gout|]. intros a (q & -> & _ & Hq). exists q. split; [done|lra].
    + exists t. split; [exact Hsum'|]. by rewrite Htol.
    + rewrite Htol. exact HR.
  - intros Hz. apply Hzero in Hz as Htz.
    assert (Hs0 : s = 0).
    { apply (zero_canonical s Hc). lra. }
    unfold normalizeWeights. rewrite Hsum, Hs0. apply Forall_map.
    eapply Forall_impl; [exact Hboth|].
    intros a [(w & -> & _ & Hw) Ha]. cbn [rat] in Ha. cbn beta. apply zero_quotient. lra.
Qed.

End RoundedFacts.

(* --------------------------------------------------------------------- *)
(** ** Weights and consistency ratio *)

Module PrioritizationSpec.
Import Js JsFacts Prioritization.

(** *** The comparison matrix, cell by cell *)

Lemma set_cell_entry (m : matrix) i j v a b :
  entry (set_cell m i j v) a b
  = (fun x => if (a =? i)%nat && (b =? j)%nat then v else x) <$> entry m a b.
Proof.
  unfold entry, set_cell.
  destruct (decide (a = i)) as [->|Hai].
  - rewrite Nat.eqb_refl. simpl. rewrite list_lookup_alter_eq.
    destruct (m !! i) as [row|]; simpl; [|done].
    destruct (decide (b = j)) as [->|Hbj].
    + rewrite Nat.eqb_refl. destruct (row !! j) as [x|] eqn:E; simpl.
      * apply list_lookup_insert_eq. by apply lookup_lt_Some in E.
      * apply lookup_ge_None. rewrite length_insert. by apply lookup_ge_None.
    + rewrite list_lookup_insert_ne by done.
      apply Nat.eqb_neq in Hbj. rewrite Hbj. by destruct (row !! b).
  - rewrite list_lookup_alter_ne by done.
    apply Nat.eqb_neq in Hai. rewrite Hai. simpl.
    by destruct (m !! a ≫= _).
Qed.

Lemma one_over_one : num_div (of_nat 1) (of_nat 1) = of_nat 1.
Proof. reflexivity. Qed.

Lemma fill_entry criteria (comps : list PairwiseComparison) : forall (m : matrix) a b,
  Forall (fun comp => value comp = of_nat 1) comps ->
  entry (fill_comparisons criteria comps m) a b
  = (fun x => if existsb (fun comp => hits criteria comp a b) comps then of_nat 1 else x)
      <$> entry m a b.
Proof.
  unfold fill_comparisons.
  induction comps as [|comp rest IH]; intros m a b Hval; cbn [fold_left existsb].
  - by destruct (entry m a b).
  - apply Forall_cons in Hval as [Hv Hrest]. rewrite IH by done.
    unfold hits at 2.
    destruct (findIndex criteria (criterion1 comp)) as [i|];
      [destruct (findIndex criteria (criterion2 comp)) as [j|]|];
      cbn [orb]; [|by destruct (entry m a b)..].
    rewrite !set_cell_entry, Hv, one_over_one.
    destruct (entry m a b) as [x|]; simpl; [|done]. f_equal.
    destruct ((a =? i)%nat && (b =? j)%nat), ((a =? j)%nat && (b =? i)%nat); simpl;
      by destruct (existsb _ rest).
Qed.

Lemma diagonal_entry n : forall (m : matrix) a b,
  entry (set_diagonal n m) a b
  = (fun x => if (a =? b)%nat && (a <? n)%nat then of_nat 1 else x) <$> entry m a b.
Proof.
  unfold set_diagonal. induction n as [|n IH]; intros m a b.
  - simpl. rewrite andb_false_r. by destruct (entry m a b).
  - rewrite seq_S, fold_left_app. simpl. rewrite set_cell_entry, IH.
    destruct (entry m a b) as [x|]; simpl; [|done]. f_equal.
    destruct (Nat.eqb_spec a n), (Nat.eqb_spec b n), (Nat.eqb_spec a b),
      (Nat.ltb_spec a n), (Nat.ltb_spec a (S n)); simpl; try done; lia.
Qed.

Lemma zeros_entry n a b :
  entry (zeros n) a b = if (a <? n)%nat && (b <? n)%nat then Some (of_nat 0) else None.
Proof.
  unfold entry, zeros.
  destruct (Nat.ltb_spec a n) as [Ha|Ha]; cbn [andb].
  - rewrite (lookup_replicate_2 n (replicate n (of_nat 0)) a Ha). cbn [mbind option_bind].
    destruct (Nat.ltb_spec b n) as [Hb|Hb].
    + by apply lookup_replicate_2.
    + apply lookup_replicate_None. lia.
  - assert (Hnone : replicate n (replicate n (of_nat 0)) !! a = None)
      by (apply lookup_replicate_None; lia).
    by rewrite Hnone.
Qed.

Lemma findIndex_lookup criteria : forall a c,
  NoDup (map id criteria) -> criteria !! a = Some c -> findIndex criteria (id c) = Some a.
Proof.
  induction criteria as [|h t IH]; intros a c Hnd Ha; [done|].
  simpl in Hnd. apply NoDup_cons in Hnd as [Hh Hnd].
  destruct a as [|a]; simpl in *.
  - injection Ha as ->. by rewrite String.eqb_refl.
  - destruct (String.eqb (id h) (id c)) eqn:E.
    + apply String.eqb_eq in E. exfalso. apply Hh. rewrite E.
      apply list_elem_of_In, in_map. apply list_elem_of_In. by eapply list_elem_of_lookup_2.
    + by rewrite (IH a c Hnd Ha).
Qed.

Lemma generated_pair criteria : forall a b ca cb,
  a < b -> criteria !! a = Some ca -> criteria !! b = Some cb ->
  In {| criterion1 := id ca; criterion2 := id cb; value := of_nat 1 |}
    (generatePairwiseComparisons criteria).
Proof.
  induction criteria as [|h t IH]; intros a b ca cb Hab Ha Hb; [done|].
  simpl. apply in_or_app.
  destruct a as [|a]; simpl in Ha.
  - injection Ha as ->. left. destruct b as [|b]; [lia|]. simpl in Hb.
    apply (in_map (fun d => {| criterion1 := id ca; criterion2 := id d; value := of_nat 1 |})).
    apply list_elem_of_In. by eapply list_elem_of_lookup_2.
  - right. destruct b as [|b]; [lia|]. simpl in Hb. apply (IH a b); [lia|done..].
Qed.

Lemma generated_values criteria :
  Forall (fun comp => value comp = of_nat 1) (generatePairwiseComparisons criteria).
Proof.
  induction criteria as [|h t IH]; simpl; [constructor|].
  apply Forall_app. split; [|done].
  apply Forall_forall. intros comp Hin.
  apply list_elem_of_In, in_map_iff in Hin as (d & <- & _). done.
Qed.

Lemma hits_sym criteria comp a b : hits criteria comp a b = hits criteria comp b a.
Proof.
  unfold hits.
  destruct (findIndex criteria (criterion1 comp)) as [i|],
    (findIndex criteria (criterion2 comp)) as [j|]; try done.
  by destruct (a =? i)%nat, (b =? j)%nat, (a =? j)%nat, (b =? i)%nat.
Qed.

Lemma generated_covers criteria a b :
  NoDup (map id criteria) -> a <> b -> a < length criteria -> b < length criteria ->
  existsb (fun comp => hits criteria comp a b) (generatePairwiseComparisons criteria) = true.
Proof.
  intros Hnd Hab Ha Hb.
  assert (Hlt : forall a b, a < b -> b < length criteria ->
            existsb (fun comp => hits criteria comp a b)
              (generatePairwiseComparisons criteria) = true).
  { clear a b Hab Ha Hb. intros a b Hab Hb.
    destruct (lookup_lt_is_Some_2 criteria a) as [ca Hca]; [lia|].
    destruct (lookup_lt_is_Some_2 criteria b) as [cb Hcb]; [lia|].
    apply existsb_exists.
    exists {| criterion1 := id ca; criterion2 := id cb; value := of_nat 1 |}.
    split; [by apply (generated_pair criteria a b)|].
    unfold hits. simpl.
    rewrite (findIndex_lookup _ _ _ Hnd Hca), (findIndex_lookup _ _ _ Hnd Hcb).
    by rewrite !Nat.eqb_refl. }
  destruct (decide (a < b)) as [Hlt'|Hge].
  - by apply Hlt.
  - assert (Hba : b < a) by lia.
    apply (Hlt b a Hba), existsb_exists in Ha as (comp & Hin & Hcomp).
    apply existsb_exists. exists comp. split; [done|]. by rewrite hits_sym.
Qed.


Lemma set_cell_shape n (m : matrix) i j v : shape n m -> shape n (set_cell m i j v).
Proof.
  intros [Hlen Hrows]. split.
  - unfold set_cell. by rewrite length_alter.
  - apply Forall_alter; [done|]. intros row _ Hrow. by rewrite length_insert.
Qed.

Lemma zeros_shape n : shape n (zeros n).
Proof.
  split.
  - apply length_replicate.
  - apply Forall_replicate, length_replicate.
Qed.

Lemma set_diagonal_shape n k (m : matrix) : shape n m -> shape n (set_diagonal k m).
Proof.
  unfold set_diagonal. generalize (seq 0 k). intros l. revert m.
  induction l as [|i l IH]; intros m Hm; simpl; [done|].
  apply IH. by apply set_cell_shape.
Qed.

Lemma fill_shape n criteria comps : forall (m : matrix),
  shape n m -> shape n (fill_comparisons criteria comps m).
Proof.
  unfold fill_comparisons.
  induction comps as [|comp rest IH]; intros m Hm; cbn [fold_left]; [done|].
  apply IH.
  destruct (findIndex criteria (criterion1 comp)); [|done].
  destruct (findIndex criteria (criterion2 comp)); [|done].
  by do 2 apply set_cell_shape.
Qed.

Lemma all_entries (m : matrix) n x :
  shape n m ->
  (forall a b, a < n -> b < n -> entry m a b = Some x) ->
  m = replicate n (replicate n x).
Proof.
  intros [Hlen Hrows] Hent. symmetry. apply replicate_as_Forall_2; [done|].
  apply Forall_lookup. intros a row Ha.
  apply replicate_as_Forall_2; [by eapply (Forall_lookup_1 _ _ _ _ Hrows)|].
  apply Forall_lookup. intros b y Hb.
  assert (Han : a < n) by (rewrite <- Hlen; by eapply lookup_lt_Some).
  assert (Hbn : b < n).
  { rewrite <- (Forall_lookup_1 _ _ _ _ Hrows Ha). by eapply lookup_lt_Some. }
  specialize (Hent a b Han Hbn). unfold entry in Hent. rewrite Ha in Hent. simpl in Hent.
  congruence.
Qed.

(** With every pair of distinct criteria compared with value 1, the matrix
    of [calculateWeightsFromPairwise] holds 1 in every cell. *)
Lemma weights_matrix_ones criteria :
  NoDup (map id criteria) ->
  fill_comparisons criteria (generatePairwiseComparisons criteria)
    (set_diagonal (length criteria) (zeros (length criteria)))
  = replicate (length criteria) (replicate (length criteria) (of_nat 1)).
Proof.
  intros Hnd. set (n := length criteria). apply all_entries.
  - apply fill_shape, set_diagonal_shape, zeros_shape.
  - intros a b Ha Hb.
    rewrite fill_entry by apply generated_values.
    rewrite diagonal_entry, zeros_entry.
    rewrite (proj2 (Nat.ltb_lt a n) Ha), (proj2 (Nat.ltb_lt b n) Hb). simpl.
    f_equal. destruct (Nat.eqb_spec a b) as [->|Hab].
    + by destruct (existsb _ _).
    + by rewrite generated_covers.
Qed.

Lemma sum_replicate_exact (x : number) (q : Q) k : forall acc p,
  exact x q -> exact acc p ->
  exact (fold_left num_add (replicate k x) acc) (p + q_of_nat k * q).
Proof.
  induction k as [|k IH]; intros acc p Hx Hacc.
  - simpl. eapply exact_proper; [done|]. unfold q_of_nat. simpl. ring.
  - simpl. eapply exact_proper.
    + apply IH; [done|]. by apply exact_add.
    + unfold q_of_nat. rewrite Nat2Z.inj_succ, <- Z.add_1_r, inject_Z_plus. ring.
Qed.

Lemma q_of_nat_nonzero n : n <> 0 -> ~ (q_of_nat n == 0)%Q.
Proof.
  intros Hn Hq. unfold q_of_nat, Qeq in Hq. simpl in Hq. lia.
Qed.

(** For criteria with distinct ids and every pair compared with value 1,
    every weight is [1 / n]. *)
Lemma uniform_weights criteria :
  NoDup (map id criteria) ->
  calculateWeightsFromPairwise (generatePairwiseComparisons criteria) criteria
  = replicate (length criteria) (num_div (of_nat 1) (of_nat (length criteria))).
Proof.
  intros Hnd. unfold calculateWeightsFromPairwise.
  rewrite weights_matrix_ones by done.
  set (n := length criteria).
  rewrite !map_fmap, fmap_replicate.
  set (s := sum (replicate n (of_nat 1))).
  rewrite fmap_replicate.
  destruct (decide (n = 0)) as [->|Hn]; [done|].
  f_equal.
  assert (Hs : exact s (q_of_nat n)).
  { eapply exact_proper.
    - apply (sum_replicate_exact (of_nat 1) (q_of_nat 1) n (of_nat 0) (q_of_nat 0));
        apply exact_of_nat.
    - unfold q_of_nat. simpl. ring. }
  assert (Ht : exact (sum (replicate n s)) (q_of_nat n * q_of_nat n)).
  { eapply exact_proper.
    - apply (sum_replicate_exact s (q_of_nat n) n (of_nat 0) (q_of_nat 0));
        [done|apply exact_of_nat].
    - unfold q_of_nat at 1. simpl. ring. }
  pose proof (q_of_nat_nonzero n Hn) as Hn0.
  eapply exact_eq.
  - apply exact_div; [exact Hs|exact Ht|].
    intros Hz. apply Hn0. apply Qmult_integral in Hz. tauto.
  - apply exact_div; [apply exact_of_nat|apply exact_of_nat|exact Hn0].
  - fold (q_of_nat n). change (inject_Z (Z.of_nat 1)) with 1%Q. field. exact Hn0.
Qed.

Lemma generated_inv criteria : forall comp,
  In comp (generatePairwiseComparisons criteria) ->
  exists x y cx cy,
    x < y /\ criteria !! x = Some cx /\ criteria !! y = Some cy
    /\ criterion1 comp = id cx /\ criterion2 comp = id cy.
Proof.
  induction criteria as [|h t IH]; intros comp Hin; [done|].
  simpl in Hin. apply in_app_or in Hin as [Hin|Hin].
  - apply in_map_iff in Hin as (d & <- & Hd).
    apply list_elem_of_In, list_elem_of_lookup in Hd as [y Hy].
    exists 0, (S y), h, d. repeat split; [lia|done..].
  - destruct (IH comp Hin) as (x & y & cx & cy & Hxy & Hx & Hy & H1 & H2).
    exists (S x), (S y), cx, cy. repeat split; [lia|done..].
Qed.

Lemma generated_no_self criteria a :
  NoDup (map id criteria) ->
  existsb (fun comp => hits criteria comp a a) (generatePairwiseComparisons criteria) = false.
Proof.
  intros Hnd. apply not_true_is_false. intros Hex.
  apply existsb_exists in Hex as (comp & Hin & Hhit).
  destruct (generated_inv criteria comp Hin) as (x & y & cx & cy & Hxy & Hx & Hy & H1 & H2).
  unfold hits in Hhit.
  rewrite H1, H2, (findIndex_lookup _ _ _ Hnd Hx), (findIndex_lookup _ _ _ Hnd Hy) in Hhit.
  destruct (Nat.eqb_spec a x), (Nat.eqb_spec a y); simpl in Hhit; try done; lia.
Qed.

(** The matrix of [calculateConsistencyRatio] holds 1 off the diagonal and
    0 on it. *)
Lemma ratio_matrix_entries criteria a b :
  NoDup (map id criteria) -> a < length criteria -> b < length criteria ->
  entry (fill_comparisons criteria (generatePairwiseComparisons criteria)
           (zeros (length criteria))) a b
  = Some (if (a =? b)%nat then of_nat 0 else of_nat 1).
Proof.
  intros Hnd Ha Hb. rewrite fill_entry by apply generated_values.
  rewrite zeros_entry.
  rewrite (proj2 (Nat.ltb_lt _ _) Ha), (proj2 (Nat.ltb_lt _ _) Hb). simpl. f_equal.
  destruct (Nat.eqb_spec a b) as [->|Hab].
  - by rewrite generated_no_self.
  - by rewrite generated_covers.
Qed.

Lemma reduce_exact (g : number -> nat -> number) (f : nat -> Q) (row : list number) :
  forall i acc p,
  exact acc p ->
  (forall j v, row !! j = Some v -> exact (g v (i + j)) (f (i + j))) ->
  exact (reduce_i (fun acc val j => num_add acc (g val j)) row i acc)
    (p + qsum_from f i (length row)).
Proof.
  induction row as [|x t IH]; intros i acc p Hacc Hrow; simpl.
  - eapply exact_proper; [done|ring].
  - eapply exact_proper.
    + apply IH.
      * apply exact_add; [done|]. specialize (Hrow 0 x eq_refl).
        by rewrite Nat.add_0_r in Hrow.
      * intros j v Hj. specialize (Hrow (S j) v Hj).
        by rewrite Nat.add_succ_r in Hrow.
    + ring.
Qed.

Lemma qsum_const (c : Q) len : forall i,
  (qsum_from (fun _ => c) i len == q_of_nat len * c)%Q.
Proof.
  induction len as [|len IH]; intros i; simpl.
  - unfold q_of_nat. simpl. ring.
  - rewrite IH. unfold q_of_nat. rewrite Nat2Z.inj_succ, <- Z.add_1_r, inject_Z_plus. ring.
Qed.

Lemma qsum_except (c : Q) a len : forall i,
  (qsum_from (fun j => if (j =? a)%nat then 0 else c) i len
   == (q_of_nat len - (if (i <=? a)%nat && (a <? i + len)%nat then 1 else 0)) * c)%Q.
Proof.
  induction len as [|len IH]; intros i; simpl.
  - destruct (Nat.leb_spec i a), (Nat.ltb_spec a (i + 0)); simpl;
      try lia; unfold q_of_nat; simpl; ring.
  - rewrite IH. unfold q_of_nat.
    rewrite Nat2Z.inj_succ, <- Z.add_1_r, inject_Z_plus.
    destruct (Nat.eqb_spec i a), (Nat.leb_spec (S i) a), (Nat.ltb_spec a (S i + len)),
      (Nat.leb_spec i a), (Nat.ltb_spec a (i + S len)); simpl; try lia; ring.
Qed.

Lemma at_index_replicate n (w : number) j : j < n -> at_index (replicate n w) j = w.
Proof.
  intros Hj. unfold at_index. rewrite nth_lookup.
  by rewrite lookup_replicate_2.
Qed.

Lemma exact_nonzero (a : number) (q : Q) : exact a q -> ~ (q == 0)%Q -> a <> of_nat 0.
Proof.
  intros (q' & -> & Hq & _) Hq0 Heq. apply Hq0. rewrite <- Hq.
  injection Heq as ->. reflexivity.
Qed.

Lemma randomIndex_values k :
  2 <= k <= 9 -> exists r, exact (at_index randomIndex k) r /\ ~ (r == 0)%Q.
Proof.
  intros Hk.
  do 10 (destruct k as [|k]; [first [lia | eexists; split;
    [eexists; split; [vm_compute; reflexivity|split; [reflexivity|vm_compute; reflexivity]]
    |intros Hz; vm_compute in Hz; discriminate Hz]]|]).
  lia.
Qed.

Lemma q_of_nat_pred n : 1 <= n -> (q_of_nat (n - 1) == q_of_nat n - 1)%Q.
Proof.
  intros Hn. unfold q_of_nat. rewrite Nat2Z.inj_sub by done.
  unfold Zminus. rewrite inject_Z_plus, inject_Z_opp. simpl. ring.
Qed.

(** For [n >= 2] criteria with distinct ids and every pair compared with
    value 1, the consistency ratio is
    [(-1 / (n - 1)) / randomIndex[min(n, 9)]], which is not 0. *)
Lemma equal_importance_ratio criteria :
  NoDup (map id criteria) -> 2 <= length criteria ->
  calculateConsistencyRatio (generatePairwiseComparisons criteria) criteria
  = num_div (num_div (of_Z (-1)) (of_nat (length criteria - 1)))
      (at_index randomIndex (Nat.min (length criteria) 9))
  /\ calculateConsistencyRatio (generatePairwiseComparisons criteria) criteria <> of_nat 0.
Proof.
  intros Hnd Hn2. unfold calculateConsistencyRatio.
  rewrite uniform_weights by done.
  set (n := length criteria) in *.
  set (w := num_div (of_nat 1) (of_nat n)).
  set (M := fill_comparisons criteria (generatePairwiseComparisons criteria) (zeros n)).
  set (qn := q_of_nat n).
  assert (Hqn : ~ (qn == 0)%Q) by (apply q_of_nat_nonzero; lia).
  assert (Hqn1 : ~ (qn - 1 == 0)%Q).
  { unfold qn. rewrite <- q_of_nat_pred by lia. apply q_of_nat_nonzero. lia. }
  assert (Hw : exact w (1 / qn)).
  { apply exact_div; [apply (exact_of_nat 1)|apply exact_of_nat|exact Hqn]. }
  assert (Hc : ~ (1 / qn == 0)%Q).
  { intros Hz. apply (Qmult_inj_r _ _ qn Hqn) in Hz. field_simplify in Hz; [|done..].
    by apply Q_apart_0_1. }
  assert (Hshape : shape n M) by apply fill_shape, zeros_shape.
  set (h := fun row : list number =>
              reduce_i (fun acc val j => num_add acc (num_mul val (at_index (replicate n w) j)))
                row 0 (of_nat 0)).
  (* the weighted sum of every row *)
  assert (Hrows : forall a v, map h M !! a = Some v ->
            exact v ((qn - 1) * (1 / qn))).
  { intros a v Hv. rewrite map_fmap, list_lookup_fmap in Hv.
    destruct (M !! a) as [row|] eqn:Hrow; [|done]. injection Hv as <-.
    destruct Hshape as [Hlen Hall].
    assert (Ha : a < n) by (rewrite <- Hlen; by eapply lookup_lt_Some).
    assert (Hrowlen : length row = n) by apply (Forall_lookup_1 _ _ _ _ Hall Hrow).
    eapply exact_proper.
    - apply (reduce_exact (fun val j => num_mul val (at_index (replicate n w) j))
               (fun j => if (j =? a)%nat then 0%Q else (1 / qn)%Q) row 0 (of_nat 0) 0%Q);
        [apply (exact_of_nat 0)|].
      intros j v Hj. simpl.
      assert (Hjn : j < n) by (rewrite <- Hrowlen; by eapply lookup_lt_Some).
      rewrite at_index_replicate by done.
      pose proof (ratio_matrix_entries criteria a j Hnd Ha Hjn) as Hent.
      fold n M in Hent. unfold entry in Hent. rewrite Hrow in Hent. simpl in Hent.
      rewrite Hj in Hent. injection Hent as ->.
      rewrite (Nat.eqb_sym j a). destruct (a =? j)%nat.
      + eapply exact_proper; [apply exact_mul; [apply (exact_of_nat 0)|exact Hw]|].
        simpl. ring.
      + eapply exact_proper; [apply exact_mul; [apply (exact_of_nat 1)|exact Hw]|].
        simpl. ring.
    - rewrite qsum_except, Hrowlen. fold qn. simpl.
      rewrite (proj2 (Nat.ltb_lt _ _) Ha). ring. }
  assert (Hlen : length (map h M) = n) by (rewrite length_map; apply Hshape).
  (* lambda-max *)
  assert (Hnum : exact
            (reduce_i (fun acc val i => num_add acc (num_div val (at_index (replicate n w) i)))
               (map h M) 0 (of_nat 0))
            (qn * (qn - 1))).
  { eapply exact_proper.
    - apply (reduce_exact (fun val i => num_div val (at_index (replicate n w) i))
               (fun _ => ((qn - 1) * (1 / qn) / (1 / qn))%Q) (map h M) 0 (of_nat 0) 0%Q);
        [apply (exact_of_nat 0)|].
      intros j v Hj. simpl.
      assert (Hjn : j < n) by (rewrite <- Hlen; by eapply lookup_lt_Some).
      rewrite at_index_replicate by done.
      apply exact_div; [by eapply Hrows|exact Hw|exact Hc].
    - rewrite qsum_const, Hlen. fold qn. simpl. field. exact Hqn. }
  fold h.
  destruct (randomIndex_values (Nat.min n (length randomIndex - 1))) as (r & Hr & Hr0).
  { simpl. lia. }
  assert (Hratio : exact
     (num_div
        (num_div
           (num_sub
              (num_div
                 (reduce_i
                    (fun acc val i => num_add acc (num_div val (at_index (replicate n w) i)))
                    (map h M) 0 (of_nat 0))
                 (of_nat n))
              (of_nat n))
           (num_sub (of_nat n) (of_nat 1)))
        (at_index randomIndex (Nat.min n (length randomIndex - 1))))
     ((qn * (qn - 1) / qn - qn) / (qn - 1) / r)).
  { apply exact_div; [|exact Hr|exact Hr0].
    apply exact_div.
    - apply exact_sub; [|apply exact_of_nat].
      apply exact_div; [exact Hnum|apply exact_of_nat|exact Hqn].
    - apply exact_sub; [apply exact_of_nat|apply (exact_of_nat 1)].
    - exact Hqn1. }
  split.
  - eapply exact_eq; [exact Hratio| |].
    + apply exact_div; [|exact Hr|exact Hr0].
      apply exact_div; [apply exact_of_Z|apply exact_of_nat|].
      fold (q_of_nat (n - 1)). rewrite q_of_nat_pred by lia. exact Hqn1.
    + fold (q_of_nat (n - 1)). rewrite q_of_nat_pred by lia. fold qn.
      change (inject_Z (-1)) with (-1)%Q. field. repeat split; assumption.
  - eapply exact_nonzero; [exact Hratio|].
    intros Hz. apply Hqn1.
    assert (Heq : ((qn * (qn - 1) / qn - qn) / (qn - 1) / r == -1 / (qn - 1) / r)%Q).
    { field. repeat split; assumption. }
    rewrite Heq in Hz.
    apply (Qmult_inj_r _ _ (r * (qn - 1))) in Hz.
    + field_simplify in Hz; [|repeat split; assumption..].
      exfalso. revert Hz. unfold Qeq. simpl. lia.
    + intros Hm. apply Qmult_integral in Hm. tauto.
Qed.

(** C1 on the code.  For [n >= 2] criteria with distinct ids and every pair
    of them compared with value 1, [calculateWeightsFromPairwise] returns
    the uniform vector of [1 / n], as claimed, but
    [calculateConsistencyRatio] returns
    [(-1 / (n - 1)) / randomIndex[min(n, 9)]], which is never 0:
    it builds its matrix without the diagonal of 1s that
    [calculateWeightsFromPairwise] initialises, so lambda-max comes out as
    [n - 1] instead of [n]. *)
Theorem equal_importance (criteria : list PrioritizationCriteria) :
  NoDup (map id criteria) -> 2 <= length criteria ->
  calculateWeightsFromPairwise (generatePairwiseComparisons criteria) criteria
  = replicate (length criteria) (num_div (of_nat 1) (of_nat (length criteria)))
  /\ calculateConsistencyRatio (generatePairwiseComparisons criteria) criteria
     = num_div (num_div (of_Z (-1)) (of_nat (length criteria - 1)))
         (at_index randomIndex (Nat.min (length criteria) 9))
  /\ calculateConsistencyRatio (generatePairwiseComparisons criteria) criteria
     <> of_nat 0.
Proof.
  intros Hnd Hn. split; [by apply uniform_weights|]. by apply equal_importance_ratio.
Qed.

Lemma equal_importance_witness :
  calculateWeightsFromPairwise (generatePairwiseComparisons two_criteria) two_criteria
  = replicate 2 (num_div (of_nat 1) (of_nat 2))
  /\ calculateConsistencyRatio (generatePairwiseComparisons two_criteria) two_criteria
     = num_div (num_div (of_Z (-1)) (of_nat 1)) (at_index randomIndex 2)
  /\ calculateConsistencyRatio (generatePairwiseComparisons two_criteria) two_criteria
     <> of_nat 0.
Proof.
  apply (equal_importance two_criteria).
  - apply (bool_decide_unpack _). vm_compute. reflexivity.
  - simpl. lia.
Defined.

(** Distinct ids are needed: with the id [a] twice, [findIndex] sends both
    to the first of them and the weights are no longer uniform. *)
Lemma repeated_id_not_uniform :
  calculateWeightsFromPairwise (generatePairwiseComparisons repeated_criteria)
    repeated_criteria
  = [fin (2 # 5); fin (1 # 5); fin (2 # 5)].
Proof. vm_compute. reflexivity. Qed.

(** At two criteria, by evaluation: the weights are [0.5] each and the
    ratio is [-1 / 0.58]. *)
Lemma equal_importance_two_criteria :
  calculateWeightsFromPairwise (generatePairwiseComparisons two_criteria) two_criteria
  = [decimal 5 1; decimal 5 1]
  /\ calculateConsistencyRatio (generatePairwiseComparisons two_criteria) two_criteria
     = num_div (of_Z (-1)) (decimal 58 2).
Proof. split; vm_compute; reflexivity. Qed.

(** The same at three criteria: uniform weights, and a ratio of
    [(-1/2) / 0.9]. *)
Lemma equal_importance_three_criteria :
  calculateWeightsFromPairwise (generatePairwiseComparisons three_criteria) three_criteria
  = [fin (1 # 3); fin (1 # 3); fin (1 # 3)]
  /\ calculateConsistencyRatio (generatePairwiseComparisons three_criteria) three_criteria
     = num_div (fin (-1 # 2)) (decimal 9 1).
Proof. split; vm_compute; reflexivity. Qed.

End PrioritizationSpec.

(* --------------------------------------------------------------------- *)
(** ** The validator: duplicate identifiers and phase ranges *)
(* --------------------------------------------------------------------- *)

Module ValidationSpec.
Import Js JsFacts Validation.

Lemma indexOf_app (pre l : list scalar) x :
  indexOf (pre ++ l) x
  = match indexOf pre x with
    | Some k => Some k
    | None => (fun k => length pre + k) <$> indexOf l x
    end.
Proof.
  induction pre as [|y pre IH]; simpl.
  - by destruct (indexOf l x).
  - destruct (strict_eq y x); [done|]. rewrite IH.
    destruct (indexOf pre x); [done|]. by destruct (indexOf l x).
Qed.

Lemma indexOf_bound (l : list scalar) x k : indexOf l x = Some k -> k < length l.
Proof.
  revert k. induction l as [|y l IH]; intros k; simpl; [done|].
  destruct (strict_eq y x).
  - intros [= <-]. lia.
  - destruct (indexOf l x) as [j|]; [|done]. intros [= <-].
    specialize (IH j eq_refl). lia.
Qed.

Lemma indexOf_existsb (l : list scalar) x :
  existsb (fun y => strict_eq y x) l = match indexOf l x with Some _ => true | None => false end.
Proof.
  induction l as [|y l IH]; simpl; [done|].
  destruct (strict_eq y x); [done|]. simpl. rewrite IH. by destruct (indexOf l x).
Qed.

(** The list [duplicates] of the code is [later_occurrences]. *)
Lemma duplicates_later_occurrences (ids : list scalar) : forall pre,
  map fst
    (List.filter (fun '(id, index) => negb (same_index (indexOf (pre ++ ids) id) index))
       (indexed_from ids (length pre)))
  = later_occurrences pre ids.
Proof.
  induction ids as [|x t IH]; intros pre; [done|].
  cbn [indexed_from List.filter later_occurrences].
  replace (pre ++ x :: t) with ((pre ++ [x]) ++ t) by (by rewrite <- app_assoc).
  specialize (IH (pre ++ [x])). rewrite length_app in IH. simpl in IH.
  rewrite Nat.add_1_r in IH.
  assert (Hhead : negb (same_index (indexOf ((pre ++ [x]) ++ t) x) (length pre))
                  = existsb (fun y => strict_eq y x) pre || negb (strict_eq x x)).
  { rewrite <- app_assoc, indexOf_app, indexOf_existsb. simpl.
    destruct (indexOf pre x) as [k|] eqn:Ek; simpl.
    - apply indexOf_bound in Ek. destruct (Nat.eqb_spec k (length pre)); [lia|done].
    - destruct (strict_eq x x); simpl.
      + by rewrite Nat.add_0_r, Nat.eqb_refl.
      + destruct (indexOf t x) as [j|]; simpl; [|done].
        destruct (Nat.eqb_spec (length pre + S j) (length pre)); [lia|done]. }
  rewrite Hhead.
  destruct (existsb _ pre || negb (strict_eq x x)); simpl; by rewrite IH.
Qed.

Lemma existsb_snoc (p : scalar -> bool) l x : existsb p (l ++ [x]) = existsb p l || p x.
Proof. rewrite existsb_app. simpl. by rewrite orb_false_r. Qed.

(** Among the later occurrences, a value that is [===] to itself occurs
    once less than in the list, unless it was seen before. *)
Lemma later_occurrences_count v (ids : list scalar) : forall seen,
  strict_eq v v = true ->
  occurrences v (later_occurrences seen ids)
  = if existsb (fun y => strict_eq y v) seen then occurrences v ids
    else occurrences v ids - 1.
Proof.
  unfold occurrences.
  induction ids as [|x t IH]; intros seen Hv; cbn [later_occurrences List.filter].
  - by destruct (existsb _ seen).
  - rewrite List.filter_app, length_app, IH by done. rewrite existsb_snoc.
    destruct (strict_eq x v) eqn:Exv.
    + assert (Hxx : strict_eq x x = true) by (by eapply strict_eq_refl_l).
      assert (Hseen : existsb (fun y => strict_eq y x) seen
                      = existsb (fun y => strict_eq y v) seen).
      { induction seen as [|y seen IHs]; simpl; [done|]. rewrite IHs. f_equal.
        destruct (strict_eq y x) eqn:E1, (strict_eq y v) eqn:E2; try done.
        - by rewrite (strict_eq_trans y x v E1 Exv) in E2.
        - rewrite strict_eq_sym in Exv. by rewrite (strict_eq_trans y v x E2 Exv) in E1. }
      rewrite Hseen, Hxx. cbn [negb]. rewrite orb_false_r, orb_true_r.
      destruct (existsb (fun y => strict_eq y v) seen);
        cbn [List.filter length]; rewrite ?Exv; cbn [length]; lia.
    + rewrite orb_false_r.
      destruct (existsb (fun y => strict_eq y x) seen || negb (strict_eq x x));
        cbn [List.filter length]; rewrite ?Exv; cbn [length];
        by destruct (existsb (fun y => strict_eq y v) seen).
Qed.

Lemma count_indexed {A} (p : A -> bool) (mk : A * nat -> ValidationError) (xs : list A) :
  (forall r k, rowIndex (mk (r, k)) = Some k) ->
  forall i0 i,
  errors_at i (map mk (List.filter (fun '(r, _) => p r) (indexed_from xs i0)))
  = match (if (i0 <=? i)%nat then xs !! (i - i0) else None) with
    | Some r => if p r then 1 else 0
    | None => 0
    end.
Proof.
  intros Hmk. unfold errors_at.
  induction xs as [|x t IH]; intros i0 i; cbn [indexed_from List.filter map].
  - by destruct (i0 <=? i)%nat.
  - assert (Htail :
      length (List.filter (fun e => bool_decide (rowIndex e = Some i))
                (map mk (List.filter (fun '(r, _) => p r) (indexed_from t (S i0)))))
      = match (if (i0 <=? i)%nat then (x :: t) !! (i - i0) else None) with
        | Some r => if (i =? i0)%nat then 0 else if p r then 1 else 0
        | None => 0
        end).
    { rewrite IH. destruct (lt_eq_lt_dec i i0) as [[Hlt|Heq]|Hgt].
      - rewrite (proj2 (Nat.leb_gt _ _)) by lia.
        by rewrite (proj2 (Nat.leb_gt i0 i)) by lia.
      - rewrite (proj2 (Nat.leb_gt _ _)) by lia.
        rewrite (proj2 (Nat.leb_le i0 i)) by lia.
        rewrite (proj2 (Nat.eqb_eq i i0) Heq).
        replace (i - i0) with 0 by lia. done.
      - rewrite (proj2 (Nat.leb_le (S i0) i)) by lia.
        rewrite (proj2 (Nat.leb_le i0 i)) by lia.
        rewrite (proj2 (Nat.eqb_neq i i0)) by lia.
        replace (i - i0) with (S (i - S i0)) by lia. done. }
    destruct (p x) eqn:Epx; cbn [map List.filter].
    + rewrite Hmk. destruct (Nat.eqb_spec i i0) as [Heq|Hne].
      * rewrite bool_decide_eq_true_2 by congruence. cbn [length]. rewrite Htail.
        rewrite (proj2 (Nat.leb_le i0 i)) by lia.
        replace (i - i0) with 0 by lia. simpl. by rewrite Epx.
      * rewrite bool_decide_eq_false_2 by congruence. rewrite Htail.
        destruct (i0 <=? i)%nat eqn:Ele; [|done].
        apply Nat.leb_le in Ele.
        replace (i - i0) with (S (i - S i0)) by lia. done.
    + rewrite Htail. destruct (Nat.eqb_spec i i0) as [Heq|Hne].
      * rewrite (proj2 (Nat.leb_le i0 i)) by lia.
        replace (i - i0) with 0 by lia. simpl. by rewrite Epx.
      * destruct (i0 <=? i)%nat eqn:Ele; [|done].
        apply Nat.leb_le in Ele.
        replace (i - i0) with (S (i - S i0)) by lia. done.
Qed.

Lemma valid_occurrences v (vals : list scalar) :
  strict_eq v SUndefined = false -> strict_eq v (SStr "") = false ->
  occurrences v
    (List.filter (fun id => negb (strict_eq id SUndefined) && negb (strict_eq id (SStr "")))
       vals)
  = occurrences v vals.
Proof.
  intros Hu He. unfold occurrences.
  induction vals as [|x t IH]; [done|]. cbn [List.filter].
  destruct (strict_eq x v) eqn:Exv.
  - assert (Hx : negb (strict_eq x SUndefined) && negb (strict_eq x (SStr "")) = true).
    { destruct (strict_eq x SUndefined) eqn:E1.
      - rewrite strict_eq_sym in Exv. by rewrite (strict_eq_trans _ _ _ Exv E1) in Hu.
      - destruct (strict_eq x (SStr "")) eqn:E2; [|done].
        rewrite strict_eq_sym in Exv. by rewrite (strict_eq_trans _ _ _ Exv E2) in He. }
    rewrite Hx. cbn [List.filter]. rewrite Exv. cbn [length]. by rewrite IH.
  - destruct (negb _ && negb _); cbn [List.filter]; rewrite ?Exv; exact IH.
Qed.

Section duplicates.
Context `{Host}.

(** Every error of a duplicate-identifier rule has severity [high], is of
    type [error] and carries a row index. *)
Lemma duplicate_ids_high patterns label data entityType :
  Forall (fun e => severity e = high /\ type e = error /\ is_Some (rowIndex e))
    (duplicate_ids patterns label data entityType).
Proof.
  unfold duplicate_ids. destruct (findColumnByPattern data patterns) as [idColumn|];
    [|constructor].
  apply Forall_forall. intros e He.
  apply list_elem_of_In, in_flat_map in He as (dup & _ & He).
  apply in_map_iff in He as ([r index] & <- & _). simpl. eauto.
Qed.

(** In the errors of a duplicate rule, the row [i] is reported once for
    every other row that carries its id. *)
Lemma duplicate_ids_errors_per_row patterns label data entityType idColumn i r :
  findColumnByPattern data patterns = Some idColumn ->
  data !! i = Some r ->
  strict_eq (get r idColumn) SUndefined = false ->
  strict_eq (get r idColumn) (SStr "") = false ->
  strict_eq (get r idColumn) (get r idColumn) = true ->
  errors_at i (duplicate_ids patterns label data entityType)
  = occurrences (get r idColumn) (map (fun r => get r idColumn) data) - 1.
Proof.
  intros Hcol Hrow Hu He Hrefl. unfold duplicate_ids. rewrite Hcol.
  set (v := get r idColumn) in *.
  set (ids := List.filter _ (map _ data)).
  assert (Hdup :
    map fst (List.filter (fun '(id, index) => negb (same_index (indexOf ids id) index))
               (indexed ids))
    = later_occurrences [] ids) by exact (duplicates_later_occurrences ids []).
  rewrite Hdup.
  rewrite <- (valid_occurrences v (map (fun r => get r idColumn) data) Hu He). fold ids.
  assert (Hlater : occurrences v (later_occurrences [] ids) = occurrences v ids - 1)
    by exact (later_occurrences_count v ids [] Hrefl).
  rewrite <- Hlater. clear Hlater Hdup.
  generalize (later_occurrences [] ids). intros ds.
  unfold occurrences. induction ds as [|d ds IH]; [done|].
  cbn [flat_map List.filter]. unfold errors_at in *.
  rewrite List.filter_app, length_app, IH.
  pose proof (count_indexed (fun r => strict_eq (get r idColumn) d)
                (fun '(_, index) =>
                   {| type := error; message := label +:+ to_string d;
                      rowIndex := Some index; column := Some idColumn;
                      value := Some d; severity := high |})
                data (fun _ _ => eq_refl) 0 i) as Hcount.
  unfold errors_at in Hcount. unfold indexed. rewrite Hcount.
  rewrite Nat.sub_0_r. simpl. rewrite Hrow. fold v.
  rewrite (strict_eq_sym d v). by destruct (strict_eq v d).
Qed.

(** Three rows with the same id: each row is reported twice. *)
Lemma three_same_ids_twice_per_row :
  errors_at 0 (duplicate_client_ids three_same_ids "client") = 2
  /\ errors_at 1 (duplicate_client_ids three_same_ids "client") = 2
  /\ errors_at 2 (duplicate_client_ids three_same_ids "client") = 2.
Proof.
  repeat split;
    (erewrite (duplicate_ids_errors_per_row _ _ three_same_ids "client" "clientid");
     [reflexivity..]).
Qed.

(** An id carried by exactly two rows: one error for each of the two rows. *)
Lemma duplicate_client_ids_two_rows :
  map rowIndex (duplicate_client_ids two_same_ids "client") = [Some 0%nat; Some 2%nat].
Proof. reflexivity. Qed.

(** C3 at three rows with the same id.  The rule emits six errors, two for
    each row, where the claim has one per row: the list of duplicates holds
    the id once for every occurrence after the first, and each of its entries
    reports all the rows of the id.  All six errors have severity [high]. *)
Theorem duplicate_client_ids_three_rows :
  map rowIndex (duplicate_client_ids three_same_ids "client")
  = [Some 0%nat; Some 1%nat; Some 2%nat; Some 0%nat; Some 1%nat; Some 2%nat]
  /\ length (List.filter (fun e => bool_decide (rowIndex e = Some 0%nat))
               (duplicate_client_ids three_same_ids "client")) = 2%nat
  /\ Forall (fun e => severity e = high)
       (duplicate_client_ids three_same_ids "client").
Proof.
  split; [reflexivity|]. split; [reflexivity|].
  eapply Forall_impl; [apply duplicate_ids_high|]. by intros e (? & _).
Qed.

(** The rule for tasks has the same body. *)
Lemma duplicate_task_ids_three_rows :
  map rowIndex (duplicate_task_ids [task_row "T1"; task_row "T1"; task_row "T1"] "task")
  = [Some 0%nat; Some 1%nat; Some 2%nat; Some 0%nat; Some 1%nat; Some 2%nat].
Proof. reflexivity. Qed.

End duplicates.

(** The three texts of the phase-range examples. *)
Lemma parsePhaseRange_examples :
  parsePhaseRange (SStr "1-3") = [of_Z 1; of_Z 2; of_Z 3]
  /\ parsePhaseRange (SStr "2,4") = [of_Z 2; of_Z 4]
  /\ parsePhaseRange (SStr "abc") = [].
Proof. split; [|split]; vm_compute; reflexivity. Qed.

(** C5 at the JSON array literal.  The validator splits the text at the
    commas and reads each part with [parseInt]: ["[1"] is not a number and is
    dropped, ["3]"] reads as 3.  The result is [[2; 3]], not [[1; 2; 3]], and
    no warning is raised for the cell. *)
Theorem parsePhaseRange_json_array_literal :
  parsePhaseRange (SStr "[1,2,3]") = [of_Z 2; of_Z 3]
  /\ parsePhaseRange (SStr "[1,2,3]") <> [of_Z 1; of_Z 2; of_Z 3]
  /\ preferred_phases_format
       [[("taskid", SStr "T1"); ("preferredphases", SStr "[1,2,3]")]] "task" = [].
Proof.
  assert (Hparsed : parsePhaseRange (SStr "[1,2,3]") = [of_Z 2; of_Z 3])
    by (vm_compute; reflexivity).
  split; [exact Hparsed|]. split.
  - rewrite Hparsed. discriminate.
  - vm_compute. reflexivity.
Qed.

End ValidationSpec.

(* --------------------------------------------------------------------- *)
(** ** The rule converter *)
(* --------------------------------------------------------------------- *)

Module RuleConverterSpec.
Import Js JsFacts RuleConverter.

Section parsing.
Context `{Host}.

(** The sentence is matched by the first co-run pattern, in lower case. *)
Lemma run_together_match :
  map group1 (all_matches coRunPatterns (toLowerCase (text run_together)))
  = ["t1 and t2"].
Proof. vm_compute. reflexivity. Qed.

(** The words of the lower-case sentence are compared with the ids as they
    are written in the data. *)
Lemma extractTaskIds_case :
  extractTaskIds "t1 and t2" (tasks_only ["T1"; "T2"]) = Ok []
  /\ extractTaskIds "t1 and t2" (tasks_only ["t1"; "t2"]) = Ok [SStr "t1"; SStr "t2"]
  /\ extractTaskIds "T1 and T2" (tasks_only ["T1"; "T2"]) = Ok [SStr "T1"; SStr "T2"].
Proof. repeat split; vm_compute; reflexivity. Qed.

(** C4 on the code.  With tasks whose ids are [T1] and [T2], the sentence
    ["Tasks T1 and T2 must run together"] parses to no rule at all:
    [parseNaturalLanguageRule] lowers the case of the whole sentence before
    [extractTaskIds] compares its words with the ids, so neither id is found
    and the co-run candidate is dropped for having fewer than two tasks. *)
Theorem parse_run_together_upper_case_ids :
  parseNaturalLanguageRule run_together (tasks_only ["T1"; "T2"]) = Ok None.
Proof. vm_compute. reflexivity. Qed.

(** With ids written in lower case the sentence parses as the claim says:
    a co-run rule on the two tasks that can be applied. *)
Lemma parse_run_together_lower_case_ids :
  parseNaturalLanguageRule run_together (tasks_only ["t1"; "t2"])
  = Ok (Some {| type := coRun;
                confidence := decimal 7 1;
                params := CoRunParams [SStr "t1"; SStr "t2"]
                            "Tasks t1, t2 must run together";
                validation := {| canApply := true; reason := "Valid co-run rule";
                                 suggestions := [] |} |}).
Proof. vm_compute. reflexivity. Qed.

(** Re-validation of a co-run rule: a task of the rule that the data does
    not hold makes the rule inapplicable. *)
Lemma validate_coRun_missing_task (rule : ParsedRule) ids description data missing :
  type rule = coRun ->
  params rule = CoRunParams ids description ->
  missing ∈ ids ->
  array_includes (map (fun t => get t "taskid") (default [] (tasks data))) missing = false ->
  canApply (validation (validateRuleAgainstData rule data)) = false.
Proof.
  intros Hty Hpar Hin Hmiss. unfold validateRuleAgainstData. rewrite Hty, Hpar. simpl.
  destruct (List.filter _ ids) as [|x l] eqn:E; [|done].
  exfalso. apply list_elem_of_In in Hin.
  assert (Hx : In missing (List.filter
            (fun taskId => negb (array_includes
               (map (fun t => get t "taskid") (default [] (tasks data))) taskId)) ids)).
  { apply filter_In. split; [done|]. by rewrite Hmiss. }
  rewrite E in Hx. destruct Hx.
Qed.

(** Re-validation, when every task of the rule is in the data, leaves the
    rule as it is. *)
Lemma validate_coRun_all_present :
  canApply (validation
    (validateRuleAgainstData
       {| type := coRun; confidence := decimal 7 1;
          params := CoRunParams [SStr "T1"; SStr "T2"] "Tasks T1, T2 must run together";
          validation := {| canApply := true; reason := "Valid co-run rule";
                           suggestions := [] |} |}
       (tasks_only ["T1"; "T2"]))) = true.
Proof. reflexivity. Qed.

Lemma validate_coRun_T2_absent :
  validation
    (validateRuleAgainstData
       {| type := coRun; confidence := decimal 7 1;
          params := CoRunParams [SStr "T1"; SStr "T2"] "Tasks T1, T2 must run together";
          validation := {| canApply := true; reason := "Valid co-run rule";
                           suggestions := [] |} |}
       (tasks_only ["T1"]))
  = {| canApply := false; reason := "Tasks not found: T2"; suggestions := [] |}.
Proof. reflexivity. Qed.

End parsing.

(** The phase-range parser of the converter reads the digits of a JSON array
    literal as a list. *)
Lemma converter_parsePhaseRange_examples :
  parsePhaseRange "[1,2,3]" = [of_Z 1; of_Z 2; of_Z 3]
  /\ parsePhaseRange "1-3" = [of_Z 1; of_Z 2; of_Z 3]
  /\ parsePhaseRange "2,4" = [of_Z 2; of_Z 4]
  /\ parsePhaseRange "abc" = [].
Proof. repeat split; vm_compute; reflexivity. Qed.

End RuleConverterSpec.

(* --------------------------------------------------------------------- *)
(** ** Weights, normalisation and the validation of a configuration *)

Module WeightsSpec.
Import Js JsFacts Prioritization PrioritizationSpec.

(** X1.  [generatePairwiseComparisons] returns one comparison for every
    unordered pair of criteria: [n * (n - 1) / 2] comparisons for [n]
    criteria, whatever their ids. *)
Theorem generatePairwiseComparisons_length criteria :
  2 * length (generatePairwiseComparisons criteria)
  = length criteria * (length criteria - 1).
Proof.
  induction criteria as [|c t IH]; [done|].
  cbn [generatePairwiseComparisons]. rewrite length_app, length_map.
  cbn [length]. replace (S (length t) - 1) with (length t) by lia.
  destruct (length t) as [|k] eqn:E; [simpl in *; lia|].
  replace (S k - 1) with k in IH by lia. nia.
Qed.

Lemma total_weight (cs : list PrioritizationCriteria) : forall acc,
  fold_left (fun sum criterion => num_add sum (weight criterion)) cs acc
  = fold_left num_add (map weight cs) acc.
Proof. induction cs as [|c t IH]; intros acc; simpl; [done|apply IH]. Qed.

Lemma store_weights_weights (cs : list PrioritizationCriteria) (l : list number) :
  length l = length cs -> map weight (store_weights cs l) = l.
Proof.
  intros Hlen. unfold store_weights. apply list_eq. intros i.
  rewrite map_fmap, list_lookup_fmap, list_lookup_imap.
  destruct (cs !! i) as [c|] eqn:Hc; simpl.
  - apply lookup_lt_Some in Hc. rewrite <- Hlen in Hc.
    destruct (lookup_lt_is_Some_2 l i Hc) as [w Hw]. rewrite Hw.
    unfold at_index. by rewrite (nth_lookup_Some _ _ _ _ Hw).
  - symmetry. apply lookup_ge_None. rewrite Hlen. by apply lookup_ge_None.
Qed.

Lemma no_negative_weights (cs : list PrioritizationCriteria) :
  Forall nonneg (map weight cs) ->
  List.filter (fun criterion => num_ltb (weight criterion) (of_nat 0)) cs = [].
Proof.
  induction cs as [|c t IH]; intros Hall; simpl in *; [done|].
  apply Forall_cons in Hall as [(q & -> & Hq) Ht]. rewrite (IH Ht).
  assert (Hlt : num_ltb (Fin q) (of_nat 0) = false).
  { unfold num_ltb, of_nat. destruct (q ?= _)%Q eqn:E; [done| |done].
    apply Qlt_alt in E. exfalso. by apply (Qlt_not_le _ _ E). }
  by rewrite Hlt.
Qed.

Lemma sum_NaN (l : list number) : In NaN l -> sum l = NaN.
Proof.
  assert (Hstuck : forall l, fold_left num_add l NaN = NaN).
  { clear l. intros l. induction l as [|w t IH]; simpl; [done|]. by destruct w. }
  unfold sum. generalize (of_nat 0).
  induction l as [|w t IH]; intros acc Hin; [done|]. simpl.
  destruct Hin as [->|Hin]; [|by apply IH].
  replace (num_add acc NaN) with NaN by (by destruct acc). apply Hstuck.
Qed.

Lemma filter_length_existsb {A} (p : A -> bool) (l : list A) :
  (0 <? length (List.filter p l))%nat = existsb p l.
Proof.
  induction l as [|x t IH]; [done|]. cbn [List.filter existsb].
  destruct (p x); [done|]. exact IH.
Qed.

(** X7.  A weight that is NaN silences the check of the sum of
    [validatePrioritization], and a consistency ratio that is NaN the check
    of the ratio: such a configuration is reported valid unless one of its
    weights is negative. *)
Theorem validatePrioritization_accepts_NaN toFixed (config : PrioritizationConfig) :
  In NaN (map weight (profile_criteria (profile config))) ->
  consistencyRatio config = NaN ->
  check_errors (validatePrioritization toFixed config)
  = if existsb (fun criterion => num_ltb (weight criterion) (of_nat 0))
         (profile_criteria (profile config))
    then ["All weights must be non-negative"] else [].
Proof.
  intros Hin Hratio. unfold validatePrioritization. cbn [check_errors].
  rewrite total_weight. fold (sum (map weight (profile_criteria (profile config)))).
  rewrite (sum_NaN _ Hin), Hratio. cbn [num_sub num_add num_neg Math_abs num_gtb num_ltb].
  cbn [app]. rewrite filter_length_existsb.
  by destruct (existsb _ _).
Qed.

Lemma validatePrioritization_accepts_NaN_witness :
  check_errors (validatePrioritization no_digits nan_config) = [].
Proof.
  apply (validatePrioritization_accepts_NaN no_digits nan_config).
  - by left.
  - reflexivity.
Defined.

End WeightsSpec.

(* --------------------------------------------------------------------- *)
(** ** The weights on binary64 numbers *)

Module RoundedSpec.
Import Js JsFacts Ieee IeeeFacts Prioritization PrioritizationSpec WeightsSpec RoundedFacts Rounded.
Local Open Scope Q_scope.
Local Abbreviation u := unit_roundoff.
Local Abbreviation eta := half_least.




Lemma Qopp_twice (a : Q) : - - a = a.
Proof. destruct a as [n d]. unfold Qopp. simpl. by rewrite Z.opp_involutive. Qed.

(** The rounding of a small rational, of either sign. *)
Lemma round_double_small (a : Q) :
  Qabs a <= pow2 (-30) ->
  exists r, round_double a = Fin r /\ Qabs r <= pow2 (-29).
Proof.
  intros Ha. apply Qabs_Qle_condition in Ha as [Hlo Hhi].
  assert (H29 : pow2 (-29) == 2 * pow2 (-30)) by (apply (pow2_succ (-30))).
  assert (H30 : 0 < pow2 (-30)) by apply pow2_pos.
  assert (Hmax : pow2 (-30) < pow2 1023) by (apply pow2_lt; lia).
  assert (Hu : u <= 1 # 2) by (vm_compute; discriminate).
  assert (Heta : eta <= pow2 (-30)) by (apply pow2_le; lia).
  assert (Hmag : forall b, 0 < b -> b <= pow2 (-30) ->
            exists r, round_magnitude b = Some r /\ 0 <= r <= pow2 (-29)).
  { intros b Hb Hle.
    destruct (round_magnitude_spec b Hb) as (r & Hr & Hr0 & _ & Hn & Hs & _); [lra|].
    exists r. split; [done|]. split; [done|].
    destruct (Qlt_le_dec b (pow2 (-1022))) as [Hsub|Hnorm].
    - destruct (Hs Hsub) as [_ Hup]. lra.
    - destruct (Hn Hnorm) as [_ Hup].
      assert (u * b <= (1 # 2) * b) by (apply Qmult_le_compat_r; lra). lra. }
  unfold round_double. destruct a as [[|p|p] d] eqn:E; cbn [Qnum].
  - exists 0. split; [done|]. change (Qabs 0) with 0. lra.
  - destruct (Hmag (Zpos p # d)) as (r & -> & Hr); [done|done|].
    exists (Qred r). split; [done|]. rewrite Qred_correct.
    apply Qabs_Qle_condition. lra.
  - destruct (Hmag (- (Zneg p # d))) as (r & -> & Hr); [done|lra|].
    exists (Qred (- r)). split; [done|]. rewrite Qred_correct.
    apply Qabs_Qle_condition. lra.
Qed.

Lemma total_weight_rounded (cs : list PrioritizationCriteria) : forall acc,
  fold_left (fun sum criterion => add sum (weight criterion)) cs acc
  = fold_left add (map weight cs) acc.
Proof. induction cs as [|c t IH]; intros acc; simpl; [done|apply IH]. Qed.

Lemma tolerance_small (n : nat) :
  (Z.of_nat n <= many)%Z -> tolerance n <= pow2 (-30).
Proof.
  intros Hn. unfold tolerance.
  pose proof (q_of_nat_le n many Hn) as Hle. pose proof u_pos as Hu.
  apply Qle_trans with (y := (4 * inject_Z many + 2) * u).
  - apply Qmult_le_compat_r; lra.
  - vm_compute. discriminate.
Qed.

(** Criteria whose weights sum to 1 up to the tolerance pass the two checks
    on the weights. *)
Lemma validatePrioritization_weights_ok toFixed (config : PrioritizationConfig) (n : nat) :
  (Z.of_nat n <= many)%Z ->
  sums_to_one (tolerance n) (map weight (profile_criteria (profile config))) ->
  check_errors (validatePrioritization toFixed config)
  = if num_gtb (consistencyRatio config) (literal 1 1)
    then ["Consistency ratio (" +:+ toFixed (consistencyRatio config) 3%nat
          +:+ ") is too high. Consider revising pairwise comparisons."]
    else [].
Proof.
  intros Hn (Hall & (t & Hsum & Ht) & _). unfold validatePrioritization. cbn [check_errors].
  rewrite total_weight_rounded. change (fold_left add ?l (of_nat 0)) with (Ieee.sum l).
  rewrite Hsum, (no_negative_weights _ Hall).
  assert (Hcheck : num_gtb (Math_abs (sub (Fin t) (of_nat 1))) (literal 1 2) = false).
  { unfold sub, num_sub, num_add, num_neg, of_nat, fin, dbl.
    destruct (round_double_small (Qred (t + Qred (- (Z.of_nat 1 # 1))))) as (r & -> & Hr).
    { rewrite Qred_correct, Qred_correct.
      apply Qle_trans with (y := tolerance n); [|by apply tolerance_small].
      assert (E : t + - (Z.of_nat 1 # 1) == t - 1) by (cbn; ring). by rewrite E. }
    unfold Math_abs, num_gtb, num_ltb, fin.
    assert (Hlit : literal 1 2 = Fin (5764607523034235 # 576460752303423488))
      by (vm_compute; reflexivity).
    rewrite Hlit.
    destruct (Qcompare_spec (5764607523034235 # 576460752303423488) (Qred (Qabs r)))
      as [?|Hlt|?]; [done| |done].
    exfalso. rewrite Qred_correct in Hlt.
    assert (pow2 (-29) < 5764607523034235 # 576460752303423488) by (vm_compute; reflexivity).
    lra. }
  rewrite Hcheck. cbn [length Nat.ltb Nat.leb app]. by destruct (num_gtb _ _).
Qed.

(** X6.  Weights between 0 and [2^1000] whose sum is not zero, normalised by
    [normalizeWeights] and stored into the criteria, as the panel does after
    a slider moves, pass the two checks of [validatePrioritization] on the
    weights: its only possible error is the one on the consistency ratio. *)
Theorem validatePrioritization_slider_weights toFixed config criteria (l : list number) :
  length l = length criteria -> (Z.of_nat (length l) <= many)%Z ->
  Forall weight_range l -> Ieee.sum l <> of_nat 0 ->
  profile_criteria (profile config) = store_weights criteria (normalizeWeights l) ->
  check_errors (validatePrioritization toFixed config)
  = if num_gtb (consistencyRatio config) (literal 1 1)
    then ["Consistency ratio (" +:+ toFixed (consistencyRatio config) 3%nat
          +:+ ") is too high. Consider revising pairwise comparisons."]
    else [].
Proof.
  intros Hlen Hn Hall Hsum Hp.
  destruct (normalized l) as (Hl & _ & Hone & _); [|done|].
  { eapply Forall_impl; [exact Hall|]. apply weight_on_grid. }
  apply (validatePrioritization_weights_ok toFixed config (length l)); [done|].
  rewrite Hp, store_weights_weights by (by rewrite Hl). by apply Hone.
Qed.

(** *** The comparison matrix on doubles *)

Lemma on_grid_to_le (B B' : Q) (a : number) : B <= B' -> on_grid_to B a -> on_grid_to B' a.
Proof. intros HB (q & -> & Gq & Hq). exists q. split; [done|]. split; [done|]. lra. Qed.

Lemma grid_one : grid 1.
Proof. apply (grid_proper (inject_Z 1 * pow2 0)); [reflexivity|]. by apply grid_scaled. Qed.

(** A cell that a comparison writes: the value, and its inverse. *)
Lemma comparison_cells (comp : PairwiseComparison) :
  comparison_range comp ->
  forall x, x = value comp \/ x = div (of_nat 1) (value comp) ->
    exists q, x = Fin q /\ grid q /\ pow2 (-401) <= q <= pow2 401.
Proof.
  intros (q & Hv & Hd & Hq) x Hx.
  assert (H400 : pow2 (-401) <= pow2 (-400) /\ pow2 400 <= pow2 401)
    by (split; apply pow2_le; lia).
  assert (Hpos : 0 < pow2 (-400)) by apply pow2_pos.
  destruct Hx as [-> | ->].
  - exists q. split; [done|]. split; [|lra].
    apply (round_double_grid q). by rewrite Hv in Hd.
  - rewrite Hv. change (of_nat 1) with (Fin 1).
    assert (Hinv : pow2 (-400) <= 1 / q <= pow2 400).
    { assert (Hc : pow2 (-400) * pow2 400 == 1) by (apply (pow2_cancel 400)).
      split.
      - apply Qle_shift_div_l; [lra|].
        apply Qle_trans with (y := pow2 (-400) * pow2 400); [|lra].
        apply Qmult_le_l; lra.
      - apply Qle_shift_div_r; [lra|].
        apply Qle_trans with (y := pow2 400 * pow2 (-400)); [lra|].
        apply Qmult_le_l; [|lra]. apply pow2_pos. }
    destruct (round_div 1 q) as (r & -> & _ & Gr & _ & Hlo & Hhi); [lra|lra|..].
    { apply Qle_lt_trans with (y := pow2 400); [lra|]. apply pow2_lt. lia. }
    exists r. split; [done|]. split; [done|].
    pose proof u_pos as Hu.
    assert (Hu1 : u * (1 / q) <= u * pow2 400) by (apply Qmult_le_l; lra).
    assert (Hu2 : u * pow2 (-400) <= u * (1 / q)) by (apply Qmult_le_l; lra).
    assert (Hc1 : (1 + u) * pow2 400 + eta <= pow2 401) by (vm_compute; discriminate).
    assert (Hc2 : pow2 (-401) <= (1 - u) * pow2 (-400) - eta) by (vm_compute; discriminate).
    assert (Hu3 : u <= 1 # 2) by (vm_compute; discriminate).
    assert (Hu4 : u * (1 / q) <= 1 / q).
    { apply Qle_trans with (y := 1 * (1 / q)); [apply Qmult_le_compat_r; lra|lra]. }
    split.
    + (* (1 - u) (1/q) - eta >= (1 - u) 2^-400 - eta *)
      assert ((1 - u) * pow2 (-400) <= (1 - u) * (1 / q))
        by (apply Qmult_le_l; lra).
      lra.
    + assert ((1 + u) * (1 / q) <= (1 + u) * pow2 400) by (apply Qmult_le_l; lra).
      lra.
Qed.

Lemma set_cell_ranged (m : matrix) i j v :
  (exists q, v = Fin q /\ grid q /\ pow2 (-401) <= q <= pow2 401) ->
  ranged m -> ranged (set_cell m i j v).
Proof.
  intros (q & -> & Gq & Hq) [Hall Hdiag].
  assert (Hpos : 0 < pow2 (-401)) by apply pow2_pos.
  split.
  - intros a b x. rewrite set_cell_entry.
    destruct (entry m a b) as [y|] eqn:E; [|done]. cbn [fmap option_fmap option_map]. intros [= <-].
    destruct (_ && _); [|by eapply Hall].
    exists q. split; [done|]. split; [done|]. lra.
  - intros a x. rewrite set_cell_entry.
    destruct (entry m a a) as [y|] eqn:E; [|done]. cbn [fmap option_fmap option_map]. intros [= <-].
    destruct (_ && _); [|by eapply Hdiag].
    exists q. split; [done|]. lra.
Qed.

Lemma fill_ranged criteria comps : forall (m : matrix),
  Forall comparison_range comps ->
  ranged m -> ranged (fill_comparisons criteria comps m).
Proof.
  unfold fill_comparisons.
  induction comps as [|comp rest IH]; intros m Hv Hm; cbn [fold_left]; [done|].
  apply Forall_cons in Hv as [Hv Hrest]. apply IH; [done|].
  destruct (findIndex criteria (criterion1 comp)); [|done].
  destruct (findIndex criteria (criterion2 comp)); [|done].
  apply set_cell_ranged; [|apply set_cell_ranged; [|done]];
    apply (comparison_cells comp Hv); auto.
Qed.

Lemma initial_ranged n : ranged (set_diagonal n (zeros n)).
Proof.
  assert (H1 : pow2 (-401) <= 1 <= pow2 401) by (split; vm_compute; discriminate).
  split.
  - intros a b x. rewrite diagonal_entry, zeros_entry.
    destruct ((a <? n)%nat && (b <? n)%nat); [|done]. cbn [fmap option_fmap option_map]. intros [= <-].
    destruct ((a =? b)%nat && (a <? n)%nat).
    + exists 1. split; [done|]. split; [apply grid_one|]. lra.
    + exists 0. split; [done|]. split; [apply grid_zero|]. lra.
  - intros a x. rewrite diagonal_entry, zeros_entry.
    destruct (Nat.ltb_spec a n); [|done]. cbn [andb fmap option_fmap option_map].
    rewrite Nat.eqb_refl. cbn [andb]. intros [= <-]. exists 1. split; [done|]. lra.
Qed.

Lemma fill_shape_rounded n criteria comps : forall (m : matrix),
  shape n m -> shape n (fill_comparisons criteria comps m).
Proof.
  unfold fill_comparisons.
  induction comps as [|comp rest IH]; intros m Hm; cbn [fold_left]; [done|].
  apply IH.
  destruct (findIndex criteria (criterion1 comp)); [|done].
  destruct (findIndex criteria (criterion2 comp)); [|done].
  by do 2 apply set_cell_shape.
Qed.

Lemma room_cells : 2 * (inject_Z many * pow2 401) < pow2 1023.
Proof. vm_compute. reflexivity. Qed.

Lemma room_rows : 2 * (inject_Z many * pow2 422) < pow2 1023.
Proof. vm_compute. reflexivity. Qed.

(** The sums of the rows: doubles between [2^-402] and [2^422]. *)
Lemma row_sums_ranged n (m : matrix) :
  (Z.of_nat n <= many)%Z -> shape n m -> ranged m ->
  Forall (fun s => exists q, s = Fin q /\ grid q /\ pow2 (-402) <= q <= pow2 422)
    (map Ieee.sum m).
Proof.
  intros Hn [Hlen Hrows] [Hall Hdiag]. rewrite map_fmap. apply Forall_fmap, Forall_lookup.
  intros a row Ha. cbn [compose].
  assert (Hrow : length row = n) by apply (Forall_lookup_1 _ _ _ _ Hrows Ha).
  assert (Han : (a < length row)%nat).
  { rewrite Hrow, <- Hlen. by eapply lookup_lt_Some. }
  destruct (lookup_lt_is_Some_2 row a Han) as [x Hx].
  assert (Hcells : Forall (on_grid_to (pow2 401)) row).
  { apply Forall_lookup. intros b y Hb. apply (Hall a b). unfold entry. by rewrite Ha. }
  destruct (Hdiag a x) as (d & -> & Hd); [unfold entry; by rewrite Ha|].
  destruct (rounded_sum (pow2 401) row (pow2_pos 401) room_cells Hcells 0 0 0)
    as (s & Hsum & Gs & _ & Hlo & Hhi & HS).
  { by rewrite Hrow. } { apply grid_zero. } { done. }
  { change (q_of_nat 0) with 0. lra. } { change (q_of_nat 0) with 0. lra. }
  cbn [Nat.add] in Hlo, Hhi, HS. rewrite Hrow in Hlo, Hhi, HS.
  destruct (exact_sum_nonneg _ row Hcells) as [_ Hentries].
  pose proof (Forall_lookup_1 _ _ _ _ Hentries Hx) as Hxle. cbn [rat] in Hxle.
  destruct (count_facts n Hn) as (Hxn & _ & _).
  set (x := q_of_nat n * u) in *. set (total := exact_sum row) in *.
  assert (Ht0 : 0 + total == total) by ring. rewrite Ht0 in Hlo, Hhi, HS. clear Ht0.
  unfold Ieee.sum. change (of_nat 0) with (Fin 0). rewrite Hsum.
  exists s. split; [done|]. split; [done|].
  assert (Hxt : 0 <= x * total <= (1 # 1024) * total).
  { split; [apply Qmult_le_0_compat; lra|]. apply Qmult_le_compat_r; lra. }
  assert (H402 : pow2 (-401) == 2 * pow2 (-402)) by (apply (pow2_succ (-402))).
  assert (Hpos : 0 < pow2 (-402)) by apply pow2_pos.
  assert (Hmany : q_of_nat n * pow2 401 <= inject_Z many * pow2 401).
  { apply Qmult_le_compat_r; [by apply q_of_nat_le|]. apply Qlt_le_weak, pow2_pos. }
  assert (H422 : 2 * (inject_Z many * pow2 401) <= pow2 422) by (vm_compute; discriminate).
  split; lra.
Qed.

(** The weights of [calculateWeightsFromPairwise]. *)
Lemma pairwise_weights_rounded comparisons criteria :
  criteria <> [] -> (Z.of_nat (length criteria) <= many)%Z ->
  Forall comparison_range comparisons ->
  length (calculateWeightsFromPairwise comparisons criteria) = length criteria
  /\ Forall positive_finite (calculateWeightsFromPairwise comparisons criteria)
  /\ sums_to_one (tolerance (length criteria))
       (calculateWeightsFromPairwise comparisons criteria).
Proof.
  intros Hne Hn Hv. unfold calculateWeightsFromPairwise.
  set (n := length criteria) in *.
  set (m := fill_comparisons criteria comparisons (set_diagonal n (zeros n))).
  assert (Hshape : shape n m) by apply fill_shape_rounded, set_diagonal_shape, zeros_shape.
  assert (Hranged : ranged m) by (by apply fill_ranged, initial_ranged).
  pose proof (row_sums_ranged n m Hn Hshape Hranged) as Hrows.
  set (rowSums := map Ieee.sum m) in *.
  assert (Hlen : length rowSums = n) by (unfold rowSums; rewrite length_map; apply Hshape).
  assert (H422 : pow2 422 <= pow2 1000) by (apply pow2_le; lia).
  assert (H402 : 0 < pow2 (-402)) by apply pow2_pos.
  assert (Hgrid422 : Forall (on_grid_to (pow2 422)) rowSums).
  { eapply Forall_impl; [exact Hrows|]. intros s (q & -> & Gq & Hq).
    exists q. split; [done|]. split; [done|]. lra. }
  assert (Hgrid : Forall on_grid rowSums).
  { eapply Forall_impl; [exact Hgrid422|]. intros s. by apply on_grid_to_le. }
  destruct (normalized rowSums Hgrid) as (_ & Hzero & Hone & _); [by rewrite Hlen|].
  destruct (exact_sum_nonneg _ rowSums Hgrid) as [Hsum0 Hentries].
  assert (Hnz : Ieee.sum rowSums <> of_nat 0).
  { intros Hz. apply Hzero in Hz.
    destruct rowSums as [|r rs] eqn:E; [subst n; destruct criteria; [done|discriminate Hlen]|].
    apply Forall_cons in Hrows as [(q & -> & _ & Hq) _].
    apply Forall_cons in Hentries as [Hr _]. cbn [rat] in Hr. lra. }
  split; [by rewrite length_map|]. split; [|rewrite <- Hlen; by apply Hone].
  destruct (rounded_sum (pow2 422) rowSums (pow2_pos 422) room_rows Hgrid422 0 0 0)
    as (S & Hsum & _ & Hc & Hlo & Hhi & HS).
  { by rewrite Hlen. } { apply grid_zero. } { done. }
  { change (q_of_nat 0) with 0. lra. } { change (q_of_nat 0) with 0. lra. }
  cbn [Nat.add] in Hlo, Hhi, HS. rewrite Hlen in Hlo, Hhi, HS.
  destruct (count_facts n Hn) as (Hxn & _ & _).
  set (x := q_of_nat n * u) in *. set (total := exact_sum rowSums) in *.
  assert (Ht0 : 0 + total == total) by ring. rewrite Ht0 in Hlo, Hhi, HS. clear Ht0.
  change (fold_left add rowSums (Fin 0)) with (Ieee.sum rowSums) in Hsum.
  assert (Hxt : 0 <= x * total <= (1 # 1024) * total).
  { split; [apply Qmult_le_0_compat; lra|]. apply Qmult_le_compat_r; lra. }
  assert (Hmany : q_of_nat n * pow2 422 <= inject_Z many * pow2 422).
  { apply Qmult_le_compat_r; [by apply q_of_nat_le|]. apply Qlt_le_weak, pow2_pos. }
  assert (H443 : 2 * (inject_Z many * pow2 422) <= pow2 443) by (vm_compute; discriminate).
  assert (HSpos : 0 < S).
  { destruct (Qlt_le_dec 0 S) as [|Hle]; [done|]. exfalso. apply Hnz. apply Hzero. lra. }
  rewrite Hsum. rewrite map_fmap. apply Forall_fmap.
  assert (Hboth : Forall (fun r => (exists q, r = Fin q /\ grid q
                                      /\ pow2 (-402) <= q <= pow2 422)
                                   /\ rat r <= total) rowSums)
    by (apply Forall_and; by split).
  eapply Forall_impl; [exact Hboth|].
  intros r [(q & -> & Gq & Hq) Hqt]. cbn [rat compose] in *.
  assert (Hq2 : q / S <= 2) by (apply Qle_shift_div_r; [done|lra]).
  assert (Hq845 : pow2 (-845) <= q / S).
  { apply Qle_shift_div_l; [done|].
    apply Qle_trans with (y := pow2 (-845) * pow2 443).
    - apply Qmult_le_l; [apply pow2_pos|lra].
    - rewrite <- pow2_add. replace (-845 + 443)%Z with (-402)%Z by lia. lra. }
  destruct (round_div q S) as (w & -> & _ & _ & _ & Hw & _); [lra|done|..].
  { apply Qle_lt_trans with (y := 2); [done|]. vm_compute. reflexivity. }
  exists w. split; [done|].
  pose proof u_pos as Hu.
  assert (Hu3 : u <= 1 # 2) by (vm_compute; discriminate).
  assert (Hc845 : 0 < (1 - u) * pow2 (-845) - eta) by (vm_compute; reflexivity).
  assert ((1 - u) * pow2 (-845) <= (1 - u) * (q / S)) by (apply Qmult_le_l; lra).
  lra.
Qed.

(** X2.  For at least one and at most [2^20] criteria, and comparisons whose
    values are doubles between [2^-400] and [2^400] (the values 1/9 to 9 of
    the scale are), whatever criteria the comparisons name,
    [calculateWeightsFromPairwise] returns one weight for each criterion,
    every weight is positive, and the weights sum to 1 within
    [(4 n + 2) 2^-53] for [n] criteria, as the code sums them and without
    rounding. *)
Theorem calculateWeightsFromPairwise_normalised comparisons criteria :
  criteria <> [] -> (Z.of_nat (length criteria) <= many)%Z ->
  Forall comparison_range comparisons ->
  length (calculateWeightsFromPairwise comparisons criteria) = length criteria
  /\ Forall positive_finite (calculateWeightsFromPairwise comparisons criteria)
  /\ sums_to_one (tolerance (length criteria))
       (calculateWeightsFromPairwise comparisons criteria).
Proof. apply pairwise_weights_rounded. Qed.

(** X5.  Weights computed by [calculateWeightsFromPairwise] from comparisons
    whose values are doubles between [2^-400] and [2^400], and stored into
    the criteria, as the panel does, pass the two checks of
    [validatePrioritization] on the weights: its only possible error is the
    one on the consistency ratio. *)
Theorem validatePrioritization_pairwise_weights toFixed config comparisons criteria :
  criteria <> [] -> (Z.of_nat (length criteria) <= many)%Z ->
  Forall comparison_range comparisons ->
  profile_criteria (profile config)
  = store_weights criteria (calculateWeightsFromPairwise comparisons criteria) ->
  check_errors (validatePrioritization toFixed config)
  = if num_gtb (consistencyRatio config) (literal 1 1)
    then ["Consistency ratio (" +:+ toFixed (consistencyRatio config) 3%nat
          +:+ ") is too high. Consider revising pairwise comparisons."]
    else [].
Proof.
  intros Hne Hn Hv Hp.
  destruct (pairwise_weights_rounded comparisons criteria Hne Hn Hv) as (Hlen & _ & Hone).
  apply (validatePrioritization_weights_ok toFixed config (length criteria)); [done|].
  by rewrite Hp, store_weights_weights.
Qed.

Lemma three_to_one_range : Forall comparison_range three_to_one.
Proof.
  repeat constructor. exists 3. split; [reflexivity|]. split; [vm_compute; reflexivity|].
  split; vm_compute; discriminate.
Qed.

Lemma calculateWeightsFromPairwise_normalised_witness :
  Forall positive_finite (calculateWeightsFromPairwise three_to_one two_criteria)
  /\ sums_to_one (tolerance 2) (calculateWeightsFromPairwise three_to_one two_criteria).
Proof.
  apply (calculateWeightsFromPairwise_normalised three_to_one two_criteria).
  - discriminate.
  - done.
  - apply three_to_one_range.
Defined.

Lemma validatePrioritization_pairwise_weights_witness :
  check_errors (validatePrioritization no_digits pairwise_config) = [].
Proof.
  apply (validatePrioritization_pairwise_weights no_digits pairwise_config
           three_to_one two_criteria).
  - discriminate.
  - done.
  - apply three_to_one_range.
  - reflexivity.
Defined.

Lemma validatePrioritization_slider_weights_witness :
  check_errors (validatePrioritization no_digits slider_config) = [].
Proof.
  apply (validatePrioritization_slider_weights no_digits slider_config two_criteria
           [literal 1 1; literal 3 1]).
  - reflexivity.
  - done.
  - repeat constructor; (eexists; split; [vm_compute; reflexivity|]);
      (split; [vm_compute; reflexivity|]); split; vm_compute; discriminate.
  - vm_compute. discriminate.
  - reflexivity.
Defined.

End RoundedSpec.

(* --------------------------------------------------------------------- *)
(** ** The correction rules and [applyAISuggestions], cell by cell *)

Module SuggestionsSpec.
Import Js JsFacts AiEngine AiEngineSpec.

(** X9.  In the result of [applyAISuggestions], every cell holds the value of
    the last accepted suggestion for its row and column, and the value it
    had in the input when no accepted suggestion writes it (a missing row or
    property reads as [undefined]). *)
Theorem applyAISuggestions_cell (data : list slot) suggestions i k :
  cell (applyAISuggestions data suggestions) i k
  = match List.find (writes i k) (rev suggestions) with
    | Some s => suggestedValue s
    | None => cell data i k
    end.
Proof.
  unfold applyAISuggestions.
  induction suggestions as [|s rest IH] using rev_ind; [done|].
  rewrite fold_left_app, rev_app_distr. cbn [fold_left rev app List.find].
  unfold writes at 1. destruct (applies s); cbn [andb]; [|exact IH].
  rewrite cell_merge. by destruct (_ && _).
Qed.

Lemma merge_length (data : list slot) s :
  length (merge data s) = Nat.max (length data) (S (rowIndex s)).
Proof. apply array_set_length. Qed.

Lemma apply_length (suggestions : list AICorrectionSuggestion) : forall data,
  length (applyAISuggestions data suggestions) = Nat.max (length data) (reach suggestions).
Proof.
  unfold applyAISuggestions, reach.
  induction suggestions as [|s rest IH]; intros data; cbn [fold_left List.filter].
  - simpl. lia.
  - destruct (applies s); [|apply IH].
    rewrite IH, merge_length. cbn [map fold_right]. lia.
Qed.

Lemma merge_hole (data : list slot) s i :
  rowIndex s <> i -> data !! i = None \/ data !! i = Some None ->
  merge data s !! i = None \/ merge data s !! i = Some None.
Proof.
  intros Hne Hi. unfold merge. rewrite array_set_lookup_ne by congruence.
  destruct Hi as [-> | ->]; [|by right]. destruct (i <? rowIndex s)%nat; auto.
Qed.

(** X10.  When the row indices of the accepted suggestions are array
    indices (below [2^32 - 1]), [applyAISuggestions] never shortens the
    array: the result has the length of the input or, if it is larger, one
    more than the largest row index of an accepted suggestion.  The
    positions beyond the end of the input that no accepted suggestion writes
    are holes. *)
Theorem applyAISuggestions_shape (data : list slot) suggestions :
  indexed suggestions ->
  length (applyAISuggestions data suggestions) = Nat.max (length data) (reach suggestions)
  /\ forall i,
       length data <= i < reach suggestions ->
       (forall s, In s suggestions -> applies s = true -> rowIndex s <> i) ->
       applyAISuggestions data suggestions !! i = Some None.
Proof.
  intros _. split; [apply apply_length|].
  intros i [Hlo Hhi] Hfree.
  assert (Hlt : i < length (applyAISuggestions data suggestions))
    by (rewrite apply_length; lia).
  assert (Hhole : applyAISuggestions data suggestions !! i = None
                  \/ applyAISuggestions data suggestions !! i = Some None).
  { assert (Hstart : data !! i = None \/ data !! i = Some None)
      by (left; by apply lookup_ge_None).
    clear Hlo Hhi Hlt. unfold applyAISuggestions. revert data Hstart.
    induction suggestions as [|s rest IH]; intros data Hstart; cbn [fold_left]; [done|].
    apply IH.
    - intros s' Hin. apply Hfree. by right.
    - destruct (applies s) eqn:Ha; [|done].
      apply merge_hole; [|done]. apply Hfree; [by left|done]. }
  destruct Hhole as [Hnone|Hsome]; [|done].
  apply lookup_ge_None in Hnone. lia.
Qed.

Lemma applyAISuggestions_shape_witness :
  length (applyAISuggestions frame_data [suggest 4 "email" (SStr "c@x.org") (of_nat 1) true]) = 5
  /\ applyAISuggestions frame_data [suggest 4 "email" (SStr "c@x.org") (of_nat 1) true] !! 2
     = Some None.
Proof.
  destruct (applyAISuggestions_shape frame_data
              [suggest 4 "email" (SStr "c@x.org") (of_nat 1) true]) as [Hlen Hholes].
  { intros s [<-|[]] _. reflexivity. }
  split; [exact Hlen|]. apply Hholes.
  - change (2 <= 2 < 5). lia.
  - intros s [<-|[]] _. discriminate.
Defined.

Lemma includes_nonempty (s p : string) : includes s p = true -> p <> "" -> s <> "".
Proof.
  intros Hinc Hp ->. unfold includes in Hinc. destruct p as [|c p]; [done|].
  simpl in Hinc. discriminate Hinc.
Qed.

Lemma toLowerCase_nonempty (p : string) : p <> "" -> toLowerCase p <> "".
Proof. by destruct p. Qed.

Lemma findColumnByPattern_loop_sound headers patterns h :
  findColumnByPattern_loop headers patterns = Some h ->
  In h headers /\ h <> ""
  /\ exists p, In p patterns /\ includes (toLowerCase h) (toLowerCase p) = true.
Proof.
  induction patterns as [|p later IH]; [done|]. cbn [findColumnByPattern_loop].
  unfold find_header.
  destruct (List.find _ headers) as [found|] eqn:Hfind.
  - destruct (truthy (SStr found)) eqn:Ht.
    + intros [= <-]. apply find_some in Hfind as [Hin Hinc].
      split; [done|]. split.
      * intros ->. discriminate Ht.
      * exists p. split; [by left|done].
    + intros Hh. destruct (IH Hh) as (? & ? & q & ? & ?).
      split; [done|]. split; [done|]. exists q. split; [by right|done].
  - intros Hh. destruct (IH Hh) as (? & ? & q & ? & ?).
    split; [done|]. split; [done|]. exists q. split; [by right|done].
Qed.

Lemma findColumnByPattern_loop_complete headers patterns h p :
  findColumnByPattern_loop headers patterns = None ->
  In h headers -> In p patterns -> p <> "" ->
  includes (toLowerCase h) (toLowerCase p) = false.
Proof.
  induction patterns as [|q later IH]; [done|]. cbn [findColumnByPattern_loop].
  unfold find_header.
  intros Hnone Hh [->|Hp] Hne.
  - destruct (List.find _ headers) as [found|] eqn:Hfind.
    + destruct (truthy (SStr found)) eqn:Ht; [done|].
      apply find_some in Hfind as [_ Hinc]. exfalso.
      apply includes_nonempty in Hinc; [|by apply toLowerCase_nonempty].
      apply Hinc. destruct found; [done|discriminate Ht].
    + by apply (find_none _ _ Hfind).
  - apply IH; [|done..].
    destruct (List.find _ headers) as [found|]; [|done].
    by destruct (truthy (SStr found)).
Qed.

(** X11.  [findColumnByPattern] returns a header of the first row that is not
    empty and contains one of the patterns, letter case apart.  It returns
    nothing only when the data has no row, or when no header of the first
    row contains a (non-empty) pattern. *)
Theorem findColumnByPattern_spec (data : list row) (patterns : list string) :
  match findColumnByPattern data patterns with
  | Some h =>
      h <> ""
      /\ (exists first rest, data = first :: rest /\ In h (keys first))
      /\ exists p, In p patterns /\ includes (toLowerCase h) (toLowerCase p) = true
  | None =>
      forall first rest h p,
        data = first :: rest -> In h (keys first) -> In p patterns -> p <> "" ->
        includes (toLowerCase h) (toLowerCase p) = false
  end.
Proof.
  destruct data as [|first rest]; [done|]. cbn [findColumnByPattern].
  destruct (findColumnByPattern_loop (keys first) patterns) as [h|] eqn:E.
  - destruct (findColumnByPattern_loop_sound _ _ _ E) as (Hin & Hne & Hp).
    split; [done|]. split; [|done]. by exists first, rest.
  - intros first' rest' h p [= <- <-]. by apply findColumnByPattern_loop_complete.
Qed.

Lemma findColumnByPattern_spec_witness :
  "email" <> ""
  /\ (exists first rest, typo_rows = first :: rest /\ In "email" (keys first))
  /\ exists p, In p ["email"] /\ includes (toLowerCase "email") (toLowerCase p) = true.
Proof. exact (findColumnByPattern_spec typo_rows ["email"]). Defined.

Lemma findColumnByPattern_header (data : list row) patterns h :
  findColumnByPattern data patterns = Some h ->
  exists first rest, data = first :: rest /\ In h (keys first).
Proof.
  destruct data as [|first rest]; [done|]. cbn [findColumnByPattern]. intros E.
  apply findColumnByPattern_loop_sound in E as [Hin _]. by exists first, rest.
Qed.

Lemma for_each_i_Forall {A B} (P : nat -> B -> Prop) (f : A -> nat -> result (list B))
  (xs : list A) :
  (forall x j ys, f x j = Ok ys -> Forall (P j) ys) ->
  forall i out, for_each_i f xs i = Ok out ->
    Forall (fun b => exists j, i <= j < i + length xs /\ P j b) out.
Proof.
  intros Hf. induction xs as [|x t IH]; intros i out; cbn [for_each_i].
  - intros [= <-]. constructor.
  - destruct (f x i) as [ys|e] eqn:Ex; [|done]. cbn [mbind result_bind].
    destruct (for_each_i f t (S i)) as [zs|e] eqn:Et; [|done]. cbn [mbind result_bind].
    intros [= <-]. apply Forall_app. split.
    + eapply Forall_impl; [by eapply Hf|]. intros b Hb. exists i. simpl. split; [lia|done].
    + eapply Forall_impl; [by eapply IH|]. intros b (j & Hj & Hb). exists j.
      simpl. split; [lia|done].
Qed.

Lemma rule_well_targeted (data : list row) col out
  (f : row -> nat -> result (list AICorrectionSuggestion)) :
  (exists first rest, data = first :: rest /\ In col (keys first)) ->
  (forall x j ys, f x j = Ok ys -> Forall (rule_output col j) ys) ->
  for_each_i f data 0 = Ok out -> Forall (well_targeted data) out.
Proof.
  intros Hcol Hf Hout.
  eapply Forall_impl; [by eapply (for_each_i_Forall (rule_output col))|].
  intros s (j & Hj & Hrow & Hc & Hv). unfold well_targeted.
  rewrite Hrow, Hc. split; [lia|]. by split.
Qed.

Lemma smart_email_correction_targets data entityType out :
  smart_email_correction data entityType = Ok out -> Forall (well_targeted data) out.
Proof.
  unfold smart_email_correction.
  destruct (findColumnByPattern data ["email"]) as [col|] eqn:Ecol.
  2:{ intros [= <-]. constructor. }
  apply (rule_well_targeted data col); [by eapply findColumnByPattern_header|].
  intros r j ys. destruct (get r col) as [| | | |email]; [intros [= <-]; constructor..|].
  destruct (truthy (SStr email)); [|intros [= <-]; constructor].
  cbv zeta. set (corrected := if negb (includes _ "@") && _ then _ else _).
  destruct (String.eqb_spec corrected email) as [Heq|Hne]; cbn [negb andb];
    [intros [= <-]; constructor|].
  destruct (isValidEmail corrected); intros [= <-]; repeat constructor.
  simpl. congruence.
Qed.

Lemma smart_phone_correction_targets data entityType out :
  smart_phone_correction data entityType = Ok out -> Forall (well_targeted data) out.
Proof.
  unfold smart_phone_correction.
  destruct (findColumnByPattern data _) as [col|] eqn:Ecol.
  2:{ intros [= <-]. constructor. }
  apply (rule_well_targeted data col); [by eapply findColumnByPattern_header|].
  intros r j ys. destruct (get r col) as [| | | |phone]; [intros [= <-]; constructor..|].
  destruct (truthy (SStr phone)); [|intros [= <-]; constructor].
  cbv zeta. destruct (_ =? 10)%nat; [|intros [= <-]; constructor].
  set (formatted := _ +:+ _).
  destruct (String.eqb_spec formatted phone) as [Heq|Hne]; cbn [negb];
    intros [= <-]; repeat constructor.
  simpl. congruence.
Qed.

Lemma smart_skill_suggestions_targets data entityType out :
  smart_skill_suggestions data entityType = Ok out -> Forall (well_targeted data) out.
Proof.
  unfold smart_skill_suggestions.
  destruct (findColumnByPattern data ["skills"; _; _]) as [col|] eqn:Ecol.
  2:{ intros [= <-]. constructor. }
  destruct (findColumnByPattern data ["role"; _; _]) as [rcol|] eqn:Ercol.
  2:{ intros [= <-]. constructor. }
  apply (rule_well_targeted data col); [by eapply findColumnByPattern_header|].
  intros r j ys. cbv zeta.
  destruct (truthy (get r rcol) && negb (truthy (get r col))); [|intros [= <-]; constructor].
  destruct (get r rcol) as [| | | |role]; try done.
  destruct (0 <? _)%nat; intros [= <-]; repeat constructor. done.
Qed.

Lemma smart_duration_estimation_targets data entityType out :
  smart_duration_estimation data entityType = Ok out -> Forall (well_targeted data) out.
Proof.
  unfold smart_duration_estimation. cbv zeta.
  destruct (findColumnByPattern data ["duration"]) as [col|] eqn:Ecol.
  2:{ intros [= <-]. constructor. }
  destruct (findColumnByPattern data ["title"; _]) as [tcol|] eqn:Etcol.
  2:{ intros [= <-]. constructor. }
  apply (rule_well_targeted data col); [by eapply findColumnByPattern_header|].
  intros r j ys.
  destruct (negb (truthy (get r col)) && truthy (get r tcol)); [|intros [= <-]; constructor].
  destruct (get r tcol) as [| | | |title]; try done.
  intros [= <-]; repeat constructor. done.
Qed.

Lemma generated_targets data entityType suggestions :
  generateAIValidationSuggestions data entityType = Ok suggestions ->
  Forall (well_targeted data) suggestions.
Proof.
  unfold generateAIValidationSuggestions, aiValidationRules. cbn [for_each_i validate].
  destruct (smart_email_correction data entityType) as [s1|] eqn:E1; [|done].
  destruct (smart_phone_correction data entityType) as [s2|] eqn:E2; [|done].
  destruct (smart_skill_suggestions data entityType) as [s3|] eqn:E3; [|done].
  destruct (smart_duration_estimation data entityType) as [s4|] eqn:E4; [|done].
  cbn [mbind result_bind]. intros [= <-].
  rewrite !Forall_app. repeat split.
  - by eapply smart_email_correction_targets.
  - by eapply smart_phone_correction_targets.
  - by eapply smart_skill_suggestions_targets.
  - by eapply smart_duration_estimation_targets.
  - constructor.
Qed.

(** X12.  Every suggestion that [generateAIValidationSuggestions] returns
    points at a row of the data and at a header of its first row, and
    proposes a value different from the one it gives as current. *)
Theorem generateAIValidationSuggestions_well_targeted data entityType suggestions :
  generateAIValidationSuggestions data entityType = Ok suggestions ->
  Forall (well_targeted data) suggestions.
Proof. apply generated_targets. Qed.

Lemma generateAIValidationSuggestions_well_targeted_witness :
  generateAIValidationSuggestions typo_rows "client" = Ok typo_suggestions
  /\ Forall (well_targeted typo_rows) typo_suggestions.
Proof.
  split; [vm_compute; reflexivity|].
  apply (generateAIValidationSuggestions_well_targeted typo_rows "client").
  vm_compute; reflexivity.
Defined.

Lemma merge_rows (rows : list row) s r :
  rows !! rowIndex s = Some r ->
  merge (map Some rows) s = map Some (<[rowIndex s := set r (column s) (suggestedValue s)]> rows).
Proof.
  intros Hr. unfold merge, array_set. rewrite length_map.
  rewrite (proj2 (Nat.ltb_lt _ _) (lookup_lt_Some _ _ _ Hr)).
  rewrite !map_fmap, list_lookup_fmap, Hr. cbn [fmap option_fmap option_map spread].
  by rewrite list_fmap_insert.
Qed.

Lemma apply_rows (suggestions : list AICorrectionSuggestion) : forall rows : list row,
  Forall (fun s => rowIndex s < length rows) suggestions ->
  exists rows', applyAISuggestions (map Some rows) suggestions = map Some rows'
                /\ length rows' = length rows.
Proof.
  unfold applyAISuggestions.
  induction suggestions as [|s rest IH]; intros rows Hall; cbn [fold_left].
  - by exists rows.
  - apply Forall_cons in Hall as [Hs Hrest]. destruct (applies s).
    + destruct (lookup_lt_is_Some_2 rows (rowIndex s) Hs) as [r Hr].
      rewrite (merge_rows rows s r Hr).
      destruct (IH (<[rowIndex s := set r (column s) (suggestedValue s)]> rows))
        as (rows' & Heq & Hlen).
      * by rewrite length_insert.
      * exists rows'. split; [done|]. by rewrite Hlen, length_insert.
    + by apply IH.
Qed.

(** X13.  Applying any selection of the suggestions that
    [generateAIValidationSuggestions] returned for the data gives an array of
    the length of the data without holes: no row is added and none is
    lost. *)
Theorem applyAISuggestions_of_generated data entityType suggestions chosen :
  generateAIValidationSuggestions data entityType = Ok suggestions ->
  (forall s, In s chosen -> In s suggestions) ->
  exists rows, applyAISuggestions (map Some data) chosen = map Some rows
               /\ length rows = length data.
Proof.
  intros Hgen Hsub. apply apply_rows. apply Forall_forall. intros s Hs.
  apply generated_targets in Hgen.
  rewrite Forall_forall in Hgen. apply Hgen, list_elem_of_In, Hsub.
  by apply list_elem_of_In.
Qed.

Lemma applyAISuggestions_of_generated_witness :
  exists rows, applyAISuggestions (map Some typo_rows) typo_suggestions = map Some rows
               /\ length rows = length typo_rows.
Proof.
  apply (applyAISuggestions_of_generated typo_rows "client" typo_suggestions typo_suggestions).
  - vm_compute; reflexivity.
  - intros s Hs. exact Hs.
Defined.


Lemma for_each_i_returns {A B} (f : A -> nat -> result (list B)) (xs : list A) :
  (forall x j, In x xs -> returns (f x j)) -> forall i, returns (for_each_i f xs i).
Proof.
  induction xs as [|x t IH]; intros Hf i; cbn [for_each_i]; [by eexists|].
  destruct (Hf x i) as [ys ->]; [by left|].
  destruct (IH (fun y j Hy => Hf y j (or_intror Hy)) (S i)) as [zs ->].
  by eexists.
Qed.


End SuggestionsSpec.

(* --------------------------------------------------------------------- *)
(** ** The rows a search returns *)

Module SearchSpec.
Import Js JsFacts AiEngine AiEngineSpec SuggestionsSpec.

Section search.
Context `{Host}.

Lemma row_matches_Forall (r : row) (conditions : list condition) :
  row_matches r conditions = Ok true
  <-> Forall (fun c => matchesCondition (get r (cond_column c)) c = Ok true) conditions.
Proof.
  induction conditions as [|c later IH]; cbn [row_matches].
  - split; [constructor|done].
  - rewrite Forall_cons, <- IH.
    destruct (matchesCondition (get r (cond_column c)) c) as [[|]|e];
      cbn [mbind result_bind]; split; try done; try tauto.
Qed.

Lemma search_loop (conditions : list condition) (data : list row) : forall i out,
  for_each_i (fun r index =>
                matches ← row_matches r conditions;
                Ok (if matches : bool then [index] else [])) data i = Ok out ->
  StronglySorted lt out
  /\ forall j, In j out <-> exists r, i <= j /\ data !! (j - i) = Some r
                                     /\ row_matches r conditions = Ok true.
Proof.
  induction data as [|r t IH]; intros i out; cbn [for_each_i].
  - intros [= <-]. split; [constructor|]. intros j. split; [done|]. by intros (? & _ & ? & _).
  - destruct (row_matches r conditions) as [m|e] eqn:Er; [|done]. cbn [mbind result_bind].
    destruct (for_each_i _ t (S i)) as [zs|e] eqn:Et; [|done]. cbn [mbind result_bind].
    intros [= <-]. destruct (IH (S i) zs Et) as [Hsorted Hin].
    assert (Htail : forall j, In j zs <-> exists r', i <= j /\ (r :: t) !! (j - i) = Some r'
                      /\ j <> i /\ row_matches r' conditions = Ok true).
    { intros j. rewrite Hin. split.
      - intros (r' & Hj & Hr' & Hm). exists r'. split; [lia|]. split; [|split; [lia|done]].
        replace (j - i) with (S (j - S i)) by lia. done.
      - intros (r' & Hj & Hr' & Hne & Hm). exists r'. split; [lia|]. split; [|done].
        replace (j - i) with (S (j - S i)) in Hr' by lia. done. }
    destruct m; cbn [app].
    + split.
      * constructor; [done|]. apply Forall_forall. intros j Hj.
        apply list_elem_of_In, Hin in Hj as (? & ? & _). lia.
      * intros j. cbn [In]. rewrite Htail. split.
        -- intros [<-|(r' & ? & ? & ? & ?)].
           ++ exists r. rewrite Nat.sub_diag. done.
           ++ by exists r'.
        -- intros (r' & Hj & Hr' & Hm). destruct (decide (j = i)) as [->|Hne]; [by left|].
           right. by exists r'.
    + split; [done|]. intros j. rewrite Htail. split.
      * intros (r' & ? & ? & ? & ?). by exists r'.
      * intros (r' & Hj & Hr' & Hm). exists r'. repeat split; try done.
        intros ->. rewrite Nat.sub_diag in Hr'. simpl in Hr'. congruence.
Qed.

(** X15.  When [executeNaturalLanguageSearch] returns, it echoes the query,
    and its row indices are in increasing order and are exactly the indices
    of the rows of the data that satisfy every condition parsed from the
    query. *)
Theorem executeNaturalLanguageSearch_matches (data : list row) (q : string) result :
  executeNaturalLanguageSearch data q = Ok result ->
  query result = q
  /\ StronglySorted lt (matchedRows result)
  /\ forall i,
       In i (matchedRows result)
       <-> exists r, data !! i = Some r
             /\ Forall (fun c => matchesCondition (get r (cond_column c)) c = Ok true)
                  (snd (parseNaturalLanguageQuery q)).
Proof.
  unfold executeNaturalLanguageSearch.
  destruct (for_each_i _ data 0) as [matched|e] eqn:E; [|done]. cbn [mbind result_bind].
  intros [= <-]. cbn [query matchedRows]. split; [done|].
  destruct (search_loop _ _ _ _ E) as [Hsorted Hin]. split; [done|].
  intros i. rewrite Hin. setoid_rewrite row_matches_Forall. rewrite Nat.sub_0_r.
  split.
  - intros (r & _ & ? & ?). by exists r.
  - intros (r & ? & ?). exists r. split; [lia|done].
Qed.

Lemma number_condition_safe lowerQuery r c op :
  op <> "includes" -> Forall safe (number_condition lowerQuery r c op).
Proof.
  intros Hop. unfold number_condition.
  destruct (rmatch_of _ _ _); constructor; [by left|constructor].
Qed.

Lemma text_condition_safe lowerQuery r c : Forall safe (text_condition lowerQuery r c).
Proof.
  unfold text_condition.
  destruct (rmatch_of _ _ _); constructor; [by left|constructor].
Qed.

Lemma keyword_condition_safe lowerQuery word : Forall safe (keyword_condition lowerQuery word).
Proof.
  unfold keyword_condition.
  destruct (includes _ _); constructor; [by left|constructor].
Qed.

Lemma parse_safe (q : string) :
  rmatch_of false phaseRegex (toLowerCase q) = None ->
  Forall safe (snd (parseNaturalLanguageQuery q)).
Proof.
  intros Hphase. unfold parseNaturalLanguageQuery. cbv zeta. cbn [snd].
  assert (Hp : number_condition (toLowerCase q) phaseRegex "preferredphases" "includes" = [])
    by (unfold number_condition; by rewrite Hphase).
  rewrite Hp.
  repeat (apply Forall_app; split);
    try (apply number_condition_safe; discriminate);
    try apply text_condition_safe; try apply keyword_condition_safe; try constructor.
  - destruct (number_condition _ priorityGreaterRegex _ _); [|constructor].
    destruct (number_condition _ priorityLessRegex _ _); [|constructor].
    apply number_condition_safe; discriminate.
  - destruct (rmatch_of false skillRegex _); [|constructor].
    rewrite map_fmap. apply Forall_fmap, Forall_forall. intros skill _. by right.
Qed.

Lemma matchesCondition_safe (value : scalar) (c : condition) :
  safe c -> returns (matchesCondition value c).
Proof.
  intros Hsafe. unfold matchesCondition.
  destruct (String.eqb (operator c) ">"); [by eexists|].
  destruct (String.eqb (operator c) "<"); [by eexists|].
  destruct (String.eqb (operator c) "="); [by eexists|].
  destruct (String.eqb_spec (operator c) "includes") as [Hop|_]; [|by eexists].
  destruct Hsafe as [Hne|Hstr]; [done|].
  destruct value; try by eexists.
  destruct (JSON_parse s); [by eexists|].
  destruct (cond_value c); try done. by eexists.
Qed.

Lemma row_matches_safe (r : row) (conditions : list condition) :
  Forall safe conditions -> returns (row_matches r conditions).
Proof.
  induction 1 as [|c later Hc _ IH]; cbn [row_matches]; [by eexists|].
  destruct (matchesCondition_safe (get r (cond_column c)) c Hc) as [[|] ->];
    cbn [mbind result_bind]; [done|by eexists].
Qed.

(** X16.  A query without the words [phase <digits>] never makes
    [executeNaturalLanguageSearch] throw, whatever the cells of the data
    hold. *)
Theorem executeNaturalLanguageSearch_returns (data : list row) (q : string) :
  rmatch_of false phaseRegex (toLowerCase q) = None ->
  returns (executeNaturalLanguageSearch data q).
Proof.
  intros Hphase. unfold executeNaturalLanguageSearch.
  destruct (for_each_i_returns
              (fun r index =>
                 matches ← row_matches r (snd (parseNaturalLanguageQuery q));
                 Ok (if matches : bool then [index] else [])) data) with (i := 0)
    as [matched Hm].
  - intros r j _.
    destruct (row_matches_safe r _ (parse_safe q Hphase)) as [m ->]. by eexists.
  - rewrite Hm. by eexists.
Qed.

Lemma for_each_i_all {A} (data : list A) : forall i,
  for_each_i (fun (_ : A) index => Ok [index]) data i = Ok (seq i (length data)).
Proof.
  induction data as [|r t IH]; intros i; cbn [for_each_i]; [done|].
  cbn [mbind result_bind]. by rewrite IH.
Qed.

(** X17.  A query in which the parser recognises no condition selects every
    row of the data. *)
Theorem executeNaturalLanguageSearch_no_condition (data : list row) (q : string) :
  snd (parseNaturalLanguageQuery q) = [] ->
  executeNaturalLanguageSearch data q
  = Ok {| matchedRows := seq 0 (length data);
          query := q;
          explanation := "Found " +:+ nat_to_string (length data)
                         +:+ " rows matching: " +:+ q |}.
Proof.
  intros Hnone. unfold executeNaturalLanguageSearch. rewrite Hnone.
  cbn [row_matches mbind result_bind]. rewrite for_each_i_all. cbn [mbind result_bind].
  by rewrite length_seq.
Qed.
End search.

Lemma executeNaturalLanguageSearch_matches_witness :
  exists result,
    executeNaturalLanguageSearch (H := example_host) duration_rows "duration > 5" = Ok result
    /\ StronglySorted lt (matchedRows result).
Proof.
  eexists. split; [vm_compute; reflexivity|].
  refine (proj1 (proj2 (executeNaturalLanguageSearch_matches (H := example_host)
                          duration_rows "duration > 5" _ _))).
  vm_compute; reflexivity.
Defined.

Lemma executeNaturalLanguageSearch_returns_witness :
  returns (executeNaturalLanguageSearch (H := example_host) duration_rows "duration > 5").
Proof.
  apply (executeNaturalLanguageSearch_returns (H := example_host)).
  vm_compute; reflexivity.
Defined.

Lemma executeNaturalLanguageSearch_no_condition_witness :
  matchedRows <$> executeNaturalLanguageSearch (H := example_host) duration_rows "hello"
  = Ok [0; 1; 2].
Proof.
  rewrite (executeNaturalLanguageSearch_no_condition (H := example_host) duration_rows "hello");
    [reflexivity|vm_compute; reflexivity].
Defined.
End SearchSpec.

(* --------------------------------------------------------------------- *)
(** ** Parsing a rule and validating it against the same data *)

Module ConverterSpec.
Import Js JsFacts RuleConverter.
Import AiEngineSpec.

Lemma same_value_zero_refl (v : scalar) : same_value_zero v v = true.
Proof.
  destruct v as [| |b|n|s]; try done.
  - by destruct b.
  - destruct n; try done. simpl. apply Qeq_bool_iff. reflexivity.
  - simpl. apply String.eqb_refl.
Qed.

Lemma array_includes_In (xs : list scalar) (v : scalar) : In v xs -> array_includes xs v = true.
Proof.
  intros Hin. unfold array_includes. apply existsb_exists. exists v.
  split; [done|apply same_value_zero_refl].
Qed.

Lemma unique_from_subset (xs : list scalar) : forall seen x,
  In x (unique_from seen xs) -> In x xs.
Proof.
  induction xs as [|y t IH]; intros seen x; cbn [unique_from]; [done|].
  destruct (array_includes seen y).
  - intros Hx. right. by eapply IH.
  - intros [->|Hx]; [by left|]. right. by eapply IH.
Qed.

Lemma fold_result_inv {A S} (P : S -> Prop) (f : S -> A -> result S) (xs : list A) :
  (forall s x s', In x xs -> P s -> f s x = Ok s' -> P s') ->
  forall s s', P s -> fold_result f xs s = Ok s' -> P s'.
Proof.
  induction xs as [|x t IH]; intros Hf s s' Hs; cbn [fold_result].
  - by intros [= <-].
  - destruct (f s x) as [s1|e] eqn:E; [|done]. cbn [mbind result_bind].
    apply IH.
    + intros s0 y s0' Hy. apply Hf. by right.
    + eapply Hf; [by left|done..].
Qed.

Lemma extractTaskIds_existing (text : string) (data : dataset) ids :
  extractTaskIds text data = Ok ids ->
  Forall (fun taskId => array_includes (existing_tasks data) taskId = true) ids.
Proof.
  unfold extractTaskIds, existing_tasks.
  destruct (tasks data) as [ts|]; [|intros [= <-]; constructor].
  cbv zeta. cbn [default].
  destruct (fold_result _ ts []) as [table|e] eqn:Etable; [|done].
  cbn [mbind result_bind]. intros [= <-].
  set (existing := map (fun t => get t "taskid") ts) in *.
  assert (Htable : forall k, get table k = SUndefined \/ In (get table k) existing).
  { refine (fold_result_inv
              (fun table : row =>
                 forall k, get table k = SUndefined \/ In (get table k) existing)
              _ ts _ [] table _ Etable); [|by left].
    intros tb task tb' Htask Htb. cbv beta.
    destruct (truthy (get task "taskname")); [|by intros [= <-]].
    destruct (get task "taskname") as [| | | |nm]; try done.
    intros [= <-] k. destruct (String.eqb_spec (toLowerCase nm) k) as [<-|Hne].
    - right. rewrite get_set_eq. by apply (in_map (fun t => get t "taskid")).
    - rewrite get_set_ne by congruence. apply Htb. }
  apply Forall_forall. intros x Hx.
  apply list_elem_of_In, unique_from_subset, in_app_or in Hx as [Hx|Hx].
  - apply in_flat_map in Hx as (word & _ & Hx).
    destruct (array_includes existing (SStr (clean word))) eqn:E; [|done].
    destruct Hx as [<-|[]]. exact E.
  - apply in_flat_map in Hx as (word & _ & Hx).
    destruct (truthy (get table word)) eqn:E; [|done].
    destruct Hx as [<-|[]]. apply array_includes_In.
    destruct (Htable word) as [Hu|Hin]; [|done]. by rewrite Hu in E.
Qed.

Lemma first_partial_group (text : string) (groups : list scalar) g :
  first_partial text groups = Ok (Some g) -> array_includes groups (SStr g) = true.
Proof.
  induction groups as [|x later IH]; [done|]. cbn [first_partial].
  destruct x as [| | | |s]; try done.
  destruct (includes _ _).
  - intros [= <-]. apply array_includes_In. by left.
  - intros Hg. unfold array_includes. cbn [existsb]. fold (array_includes later (SStr g)).
    rewrite (IH Hg). apply orb_true_r.
Qed.

Lemma extractGroupName_existing (text : string) (data : dataset) groupType g :
  extractGroupName text data groupType = Ok (Some g) ->
  array_includes (groups_of data groupType) (SStr g) = true.
Proof.
  unfold extractGroupName. cbv zeta.
  destruct (List.find _ _) as [cleanWord|] eqn:Efind.
  - intros [= <-]. by apply find_some in Efind as [_ ?].
  - apply first_partial_group.
Qed.

Section parsing.
Context `{Host}.

Lemma consider_grounded data b rule :
  grounded data b -> validateRuleAgainstData rule data = rule ->
  grounded data (consider b rule).
Proof.
  intros Hb Hrule. unfold consider. destruct (num_gtb _ _); [|done].
  intros r [= <-]. done.
Qed.

Lemma no_missing (existing ids : list scalar) :
  Forall (fun taskId => array_includes existing taskId = true) ids ->
  List.filter (fun taskId => negb (array_includes existing taskId)) ids = [].
Proof.
  induction 1 as [|x t Hx _ IH]; [done|]. cbn [List.filter]. by rewrite Hx.
Qed.

Lemma try_coRun_grounded text data b b' :
  grounded data b -> try_coRun text data b = Ok b' -> grounded data b'.
Proof.
  unfold try_coRun. intros Hb.
  apply (fold_result_inv (grounded data)); [|done].
  intros s m s' _ Hs. cbv zeta.
  destruct (extractTaskIds (group1 m) data) as [ids|e] eqn:Eids; [|done].
  cbn [mbind result_bind]. destruct (2 <=? length ids)%nat; [|by intros [= <-]].
  intros [= <-]. apply consider_grounded; [done|].
  unfold validateRuleAgainstData. cbn [type params validation confidence].
  fold (existing_tasks data).
  by rewrite (no_missing _ _ (extractTaskIds_existing _ _ _ Eids)).
Qed.

Lemma try_slotRestriction_grounded text data b b' :
  grounded data b -> try_slotRestriction text data b = Ok b' -> grounded data b'.
Proof.
  unfold try_slotRestriction. intros Hb.
  apply (fold_result_inv (grounded data)); [|done].
  intros s m s' _ Hs. cbv zeta.
  destruct (positive_number _) as [minSlots|]; [|by intros [= <-]].
  set (groupType := if _ || _ then client_group else _).
  destruct (extractGroupName (group1 m) data groupType) as [[g|]|e] eqn:Eg;
    cbn [mbind result_bind]; [|by intros [= <-]|done].
  destruct (truthy (SStr g)); [|by intros [= <-]].
  intros [= <-]. apply consider_grounded; [done|].
  unfold validateRuleAgainstData. cbn [type params validation confidence].
  apply extractGroupName_existing in Eg.
  destruct groupType; cbn [group_type_name String.eqb Ascii.eqb Bool.eqb]; by rewrite Eg.
Qed.

Lemma try_loadLimit_grounded text data b b' :
  grounded data b -> try_loadLimit text data b = Ok b' -> grounded data b'.
Proof.
  unfold try_loadLimit. intros Hb.
  apply (fold_result_inv (grounded data)); [|done].
  intros s m s' _ Hs. cbv zeta.
  destruct (positive_number _) as [maxSlots|]; [|by intros [= <-]].
  destruct (extractGroupName (group1 m) data worker_group) as [[g|]|e] eqn:Eg;
    cbn [mbind result_bind]; [|by intros [= <-]|done].
  destruct (truthy (SStr g)); [|by intros [= <-]].
  intros [= <-]. apply consider_grounded; [done|].
  unfold validateRuleAgainstData. cbn [type params validation confidence].
  apply extractGroupName_existing in Eg. by rewrite Eg.
Qed.

Lemma try_phaseWindow_grounded text data b b' :
  grounded data b -> try_phaseWindow text data b = Ok b' -> grounded data b'.
Proof.
  unfold try_phaseWindow. intros Hb.
  apply (fold_result_inv (grounded data)); [|done].
  intros s m s' _ Hs. cbv zeta.
  destruct (extractTaskIds (group1 m) data) as [ids|e] eqn:Eids; [|done].
  cbn [mbind result_bind].
  destruct ids as [|first more]; [by intros [= <-]|].
  destruct (parsePhaseRange (group2 m)) as [|p ps]; [by intros [= <-]|].
  intros [= <-]. apply consider_grounded; [done|].
  unfold validateRuleAgainstData. cbn [type params validation confidence].
  fold (existing_tasks data).
  apply extractTaskIds_existing, Forall_cons in Eids as [Hfirst _]. by rewrite Hfirst.
Qed.

Lemma try_patternMatch_grounded text data b b' :
  grounded data b -> try_patternMatch text b = Ok b' -> grounded data b'.
Proof.
  unfold try_patternMatch. intros Hb.
  apply (fold_result_inv (grounded data)); [|done].
  intros s m s' _ Hs. cbv zeta. intros [= <-]. by apply consider_grounded.
Qed.

Lemma try_precedenceOverride_grounded text data b b' :
  grounded data b -> try_precedenceOverride text b = Ok b' -> grounded data b'.
Proof.
  unfold try_precedenceOverride. intros Hb.
  apply (fold_result_inv (grounded data)); [|done].
  intros s m s' _ Hs. cbv zeta. intros [= <-]. by apply consider_grounded.
Qed.

(** X18.  A rule that [parseNaturalLanguageRule] returns for some data is
    left as it is by [validateRuleAgainstData] on the same data, as in the
    rule builder: every task id and group name of the rule was taken from
    the data, so the second pass finds none missing.  (The text must hold no
    name that every object inherits; the converter looks the words of the
    text up in an object.) *)
Theorem validateRuleAgainstData_after_parse rule data parsed :
  own_names_only (text rule) ->
  parseNaturalLanguageRule rule data = Ok (Some parsed) ->
  validateRuleAgainstData parsed data = parsed.
Proof.
  intros _. unfold parseNaturalLanguageRule. cbv zeta.
  destruct (try_coRun _ data _) as [b1|] eqn:E1; [|done]. cbn [mbind result_bind].
  destruct (try_slotRestriction _ data b1) as [b2|] eqn:E2; [|done]. cbn [mbind result_bind].
  destruct (try_loadLimit _ data b2) as [b3|] eqn:E3; [|done]. cbn [mbind result_bind].
  destruct (try_phaseWindow _ data b3) as [b4|] eqn:E4; [|done]. cbn [mbind result_bind].
  destruct (try_patternMatch _ b4) as [b5|] eqn:E5; [|done]. cbn [mbind result_bind].
  destruct (try_precedenceOverride _ b5) as [b6|] eqn:E6; [|done]. cbn [mbind result_bind].
  intros [= Hbest].
  assert (H0 : grounded data (Best None (of_nat 0))) by (intros r; discriminate).
  pose proof (try_coRun_grounded _ _ _ _ H0 E1) as H1.
  pose proof (try_slotRestriction_grounded _ _ _ _ H1 E2) as H2.
  pose proof (try_loadLimit_grounded _ _ _ _ H2 E3) as H3.
  pose proof (try_phaseWindow_grounded _ _ _ _ H3 E4) as H4.
  pose proof (try_patternMatch_grounded _ _ _ _ H4 E5) as H5.
  pose proof (try_precedenceOverride_grounded _ _ _ _ H5 E6) as H6.
  by apply H6.
Qed.
End parsing.

Lemma validateRuleAgainstData_after_parse_witness :
  exists parsed,
    parseNaturalLanguageRule (H := example_host) run_together_lower (tasks_only ["t1"; "t2"])
    = Ok (Some parsed)
    /\ validateRuleAgainstData (H := example_host) parsed (tasks_only ["t1"; "t2"]) = parsed.
Proof.
  eexists. split; [vm_compute; reflexivity|].
  apply (validateRuleAgainstData_after_parse (H := example_host) run_together_lower).
  - split; vm_compute; reflexivity.
  - vm_compute; reflexivity.
Defined.
End ConverterSpec.

(* --------------------------------------------------------------------- *)
(** ** [validateData]: the rules together and the summary *)

Module ValidatorSpec.
Import Js JsFacts Validation.

(** *** The summary *)

Lemma insert_sorted_In i j l : In j (insert_sorted i l) <-> j = i \/ In j l.
Proof.
  induction l as [|k t IH]; simpl; [intuition congruence|].
  destruct (i <=? k)%nat; simpl; [intuition congruence|]. rewrite IH. intuition congruence.
Qed.

Lemma sort_numbers_In j l : In j (sort_numbers l) <-> In j l.
Proof.
  induction l as [|k t IH]; simpl; [done|].
  rewrite insert_sorted_In, IH. intuition congruence.
Qed.

Lemma insert_sorted_strict i l :
  StronglySorted lt l -> ~ In i l -> StronglySorted lt (insert_sorted i l).
Proof.
  induction 1 as [|k t Ht IH Hk]; intros Hi; simpl.
  - repeat constructor.
  - destruct (Nat.leb_spec i k) as [Hle|Hgt].
    + assert (Hlt : i < k) by (destruct (decide (i = k)) as [->|]; [exfalso; apply Hi; by left|lia]).
      constructor; [by constructor|]. constructor; [done|].
      eapply List.Forall_impl; [|exact Hk]. simpl. lia.
    + constructor.
      * apply IH. intros Hin. apply Hi. by right.
      * apply List.Forall_forall. intros j Hj. apply insert_sorted_In in Hj as [->|Hj]; [done|].
        rewrite List.Forall_forall in Hk. by apply Hk.
Qed.

Lemma sort_numbers_strict l : List.NoDup l -> StronglySorted lt (sort_numbers l).
Proof.
  induction 1 as [|k t Hk Ht IH]; simpl; [constructor|].
  apply insert_sorted_strict; [done|]. by rewrite sort_numbers_In.
Qed.

Lemma set_add_In s i j : In j (set_add s i) <-> In j s \/ j = i.
Proof.
  unfold set_add. destruct (existsb (Nat.eqb i) s) eqn:E.
  - apply existsb_exists in E as (k & Hk & Heq). apply Nat.eqb_eq in Heq. subst k.
    intuition congruence.
  - rewrite in_app_iff. simpl. intuition congruence.
Qed.

Lemma set_add_NoDup s i : List.NoDup s -> List.NoDup (set_add s i).
Proof.
  intros Hs. unfold set_add. destruct (existsb (Nat.eqb i) s) eqn:E; [done|].
  apply NoDup_ListNoDup, NoDup_app. apply NoDup_ListNoDup in Hs.
  split; [done|]. split; [|apply NoDup_singleton].
  intros j Hj Hji. apply list_elem_of_singleton in Hji. subst j.
  assert (Hex : existsb (Nat.eqb i) s = true); [|congruence].
  apply existsb_exists. exists i. split; [by apply list_elem_of_In|apply Nat.eqb_refl].
Qed.

Lemma message_count_count errorTypes m m' :
  message_count (count_message errorTypes m) m'
  = (message_count errorTypes m' + if String.eqb m m' then 1 else 0).
Proof.
  induction errorTypes as [|[k n] t IH]; simpl.
  - by destruct (String.eqb m m').
  - destruct (String.eqb_spec k m) as [->|Hkm]; simpl.
    + destruct (String.eqb m m'); lia.
    + destruct (String.eqb_spec k m') as [->|Hkm'].
      * apply String.eqb_neq in Hkm. rewrite String.eqb_sym in Hkm. rewrite Hkm. lia.
      * apply IH.
Qed.

(** The state of the loop of [summarize] after the errors [es]. *)
Lemma summarize_loop (es : list Finding) : forall errorTypes affectedRows,
  List.NoDup affectedRows ->
  let '(errorTypes', affectedRows') :=
    fold_left
      (fun '(errorTypes, affectedRows) e =>
         (count_message errorTypes (f_message e),
          match f_rowIndex e with
          | Some i => set_add affectedRows i
          | None => affectedRows
          end))
      es (errorTypes, affectedRows) in
  List.NoDup affectedRows'
  /\ (forall i, In i affectedRows'
        <-> In i affectedRows \/ exists e, In e es /\ f_rowIndex e = Some i)
  /\ (forall m, message_count errorTypes' m
        = message_count errorTypes m
          + length (List.filter (fun e => String.eqb (f_message e) m) es)).
Proof.
  induction es as [|e t IH]; intros errorTypes affectedRows Hnd; cbn [fold_left].
  - split; [done|]. split.
    + intros i. split; [by left|]. intros [?|(? & [] & _)]. done.
    + intros m. simpl. lia.
  - specialize (IH (count_message errorTypes (f_message e))
                  (match f_rowIndex e with
                   | Some i => set_add affectedRows i
                   | None => affectedRows
                   end)).
    destruct (fold_left _ t _) as [errorTypes' affectedRows'].
    destruct IH as (Hnd' & Hin & Hcount).
    { destruct (f_rowIndex e); [by apply set_add_NoDup|done]. }
    split; [done|]. split.
    + intros i. rewrite Hin. split.
      * intros [Hi|(e' & He' & Hi)].
        -- destruct (f_rowIndex e) as [j|] eqn:Ej; [|by left].
           apply set_add_In in Hi as [Hi| ->]; [by left|]. right. exists e. split; [by left|done].
        -- right. exists e'. split; [by right|done].
      * intros [Hi|(e' & [<-|He'] & Hi)].
        -- left. destruct (f_rowIndex e); [apply set_add_In; by left|done].
        -- left. rewrite Hi. apply set_add_In. by right.
        -- right. by exists e'.
    + intros m. rewrite Hcount, message_count_count. cbn [List.filter].
      destruct (String.eqb (f_message e) m); simpl; lia.
Qed.

Lemma summarize_spec (es : list Finding) :
  errors (summarize es) = es
  /\ StronglySorted lt (affectedRows (summary (summarize es)))
  /\ (forall i, In i (affectedRows (summary (summarize es)))
        <-> exists e, In e es /\ f_rowIndex e = Some i)
  /\ (forall m, message_count (errorTypes (summary (summarize es))) m
        = length (List.filter (fun e => String.eqb (f_message e) m) es)).
Proof.
  unfold summarize. pose proof (summarize_loop es [] [] (List.NoDup_nil _)) as Hloop.
  destruct (fold_left _ es _) as [errorTypes' affectedRows'].
  destruct Hloop as (Hnd & Hin & Hcount). cbn [errors summary affectedRows errorTypes].
  split; [done|]. split; [by apply sort_numbers_strict|]. split.
  - intros i. rewrite sort_numbers_In, Hin. split; [intros [[]|?]; done|by right].
  - intros m. by rewrite Hcount.
Qed.

(** *** What the rules report *)

Lemma validator_column_loop_header headers patterns h :
  findColumnByPattern_loop headers patterns = Some h -> In h headers /\ h <> "".
Proof.
  induction patterns as [|p later IH]; [done|]. cbn [findColumnByPattern_loop].
  destruct (List.find _ headers) as [found|] eqn:Hfind; [|exact IH].
  destruct (truthy (SStr found)) eqn:Ht; [|exact IH].
  intros [= <-]. apply find_some in Hfind as [Hin _]. split; [done|].
  intros ->. discriminate Ht.
Qed.

Lemma validator_column_header (data : list row) patterns h :
  findColumnByPattern data patterns = Some h ->
  h <> "" /\ exists first rest, data = first :: rest /\ In h (keys first).
Proof.
  destruct data as [|first rest]; [done|]. cbn [findColumnByPattern].
  intros Hh. apply validator_column_loop_header in Hh as [Hin Hne].
  split; [done|]. by exists first, rest.
Qed.

Lemma indexed_from_In {A} (xs : list A) : forall i x j,
  In (x, j) (indexed_from xs i) -> i <= j < i + length xs.
Proof.
  induction xs as [|y t IH]; intros i x j; cbn [indexed_from]; [done|].
  intros [[= _ <-]|Hin]; simpl; [lia|]. apply IH in Hin. lia.
Qed.

Lemma column_rule_sound (data : list row) patterns
  (body : string -> row * nat -> list Finding) :
  (forall col r index, Forall (on_cell col index) (body col (r, index))) ->
  Forall (sound_finding data)
    (match findColumnByPattern data patterns with
     | None => []
     | Some col => flat_map (body col) (indexed data)
     end).
Proof.
  intros Hbody. destruct (findColumnByPattern data patterns) as [col|] eqn:Ecol;
    [|constructor].
  apply validator_column_header in Ecol as [Hne Hcol].
  apply Forall_forall. intros e He.
  apply list_elem_of_In, in_flat_map in He as ([r index] & Hin & He).
  apply indexed_from_In in Hin.
  specialize (Hbody col r index). rewrite Forall_forall in Hbody.
  destruct (Hbody e) as (Ht & Hi & Hc); [by apply list_elem_of_In|].
  split; [done|]. split.
  - intros i. rewrite Hi. intros [= <-]. lia.
  - intros c. rewrite Hc. by intros [= <-].
Qed.

Lemma map_finding_of_column (data : list row) patterns
  (body : string -> row * nat -> list ValidationError) :
  map finding_of
    (match findColumnByPattern data patterns with
     | None => []
     | Some col => flat_map (body col) (indexed data)
     end)
  = match findColumnByPattern data patterns with
    | None => []
    | Some col => flat_map (fun x => map finding_of (body col x)) (indexed data)
    end.
Proof.
  destruct (findColumnByPattern data patterns); [|done].
  induction (indexed data) as [|x t IH]; simpl; [done|]. by rewrite map_app, IH.
Qed.

Lemma cell_error_on_cell t msg index col v s :
  t <> info -> on_cell col index (finding_of (cell_error t msg index col v s)).
Proof. done. Qed.

Ltac cell_rule :=
  rewrite map_finding_of_column; apply column_rule_sound;
  intros col r index; cbv beta iota zeta;
  repeat match goal with
         | |- Forall _ (map finding_of (if ?b then _ else _)) => destruct b
         | |- Forall _ (map finding_of (match ?x with _ => _ end)) => destruct x
         end;
  cbn [map]; repeat constructor; done.

Lemma priority_level_validation_sound data entityType :
  Forall (sound_finding data) (map finding_of (priority_level_validation data entityType)).
Proof. unfold priority_level_validation. cell_rule. Qed.

Lemma at_least_one_sound patterns msg data entityType :
  Forall (sound_finding data) (map finding_of (at_least_one patterns msg data entityType)).
Proof. unfold at_least_one. cell_rule. Qed.

Lemma comma_separated_format_sound patterns msg data entityType :
  Forall (sound_finding data)
    (map finding_of (comma_separated_format patterns msg data entityType)).
Proof. unfold comma_separated_format. cell_rule. Qed.

Lemma valid_string_sound patterns msg data entityType :
  Forall (sound_finding data) (map finding_of (valid_string patterns msg data entityType)).
Proof. unfold valid_string. cell_rule. Qed.

Lemma preferred_phases_format_sound data entityType :
  Forall (sound_finding data) (map finding_of (preferred_phases_format data entityType)).
Proof. unfold preferred_phases_format. cell_rule. Qed.

Lemma required_columns_sound requiredColumns data entityType :
  Forall (sound_finding data)
    (map finding_of (required_columns requiredColumns data entityType)).
Proof.
  unfold required_columns. destruct data as [|first rest]; [constructor|].
  cbv zeta. destruct (0 <? _)%nat; repeat constructor; done.
Qed.

Section hosted.
Context `{Host}.

Lemma attributes_json_validation_sound data entityType :
  Forall (sound_finding data) (map finding_of (attributes_json_validation data entityType)).
Proof. unfold attributes_json_validation. cell_rule. Qed.

Lemma available_slots_format_sound data entityType :
  Forall (sound_finding data) (map finding_of (available_slots_format data entityType)).
Proof.
  unfold available_slots_format.
  rewrite map_finding_of_column; apply column_rule_sound.
  intros col r index; cbv beta iota zeta.
  destruct (truthy _); [|constructor].
  destruct (JSON_parse_value _) as [parsed|]; [|repeat constructor; done].
  destruct (match parsed with JArray _ => _ | _ => _ end); repeat constructor; done.
Qed.

Lemma duplicate_ids_sound patterns label data entityType :
  Forall (sound_finding data) (map finding_of (duplicate_ids patterns label data entityType)).
Proof.
  unfold duplicate_ids.
  destruct (findColumnByPattern data patterns) as [col|] eqn:Ecol; [|constructor].
  apply validator_column_header in Ecol as [Hne Hcol]. cbv zeta.
  rewrite map_fmap. apply Forall_fmap, Forall_forall. intros e He.
  apply list_elem_of_In, in_flat_map in He as (dup & _ & He).
  apply in_map_iff in He as ([r index] & <- & Hin).
  apply filter_In in Hin as [Hin _]. apply indexed_from_In in Hin.
  split; [done|]. split.
  - intros i [= <-]. lia.
  - by intros c [= <-].
Qed.

Lemma client_task_references_sound data entityType cross :
  Forall (sound_finding data) (client_task_references data entityType cross).
Proof.
  unfold client_task_references. destruct (cross ≫= tasks) as [ts|]; [|constructor].
  destruct (negb _); [constructor|]. cbv zeta.
  apply column_rule_sound with
    (body := fun tasksColumn '(r, index) =>
       if truthy (get r tasksColumn) then _ else []).
  intros col r index. destruct (truthy _); [|constructor].
  destruct (0 <? _)%nat; repeat constructor; done.
Qed.

Lemma task_worker_skill_coverage_sound data entityType cross :
  Forall (sound_finding data) (task_worker_skill_coverage data entityType cross).
Proof.
  unfold task_worker_skill_coverage. destruct (cross ≫= workers) as [ws|]; [|constructor].
  destruct (negb _); [constructor|]. cbv zeta.
  apply column_rule_sound with
    (body := fun skillsColumn '(r, index) =>
       if truthy (get r skillsColumn) then _ else []).
  intros col r index. destruct (truthy _); [|constructor].
  destruct (0 <? _)%nat; repeat constructor; done.
Qed.

Lemma phase_slot_saturation_sound data entityType cross :
  Forall (sound_finding data) (phase_slot_saturation data entityType cross).
Proof.
  unfold phase_slot_saturation. destruct (cross ≫= workers) as [ws|]; [|constructor].
  destruct (negb _); [constructor|].
  destruct (findColumnByPattern data ["duration"]) as [durationColumn|]; [|constructor].
  destruct (findColumnByPattern data _) as [phasesColumn|]; [|constructor].
  cbv zeta. apply Forall_forall. intros e He.
  apply list_elem_of_In, in_flat_map in He as ([key workload] & _ & He).
  destruct (num_gtb _ _); [|done]. destruct He as [<-|[]]. done.
Qed.

Lemma max_concurrency_feasibility_sound data entityType cross :
  Forall (sound_finding data) (max_concurrency_feasibility data entityType cross).
Proof.
  unfold max_concurrency_feasibility. destruct (cross ≫= workers) as [ws|]; [|constructor].
  destruct (negb _); [constructor|].
  destruct (findColumnByPattern data ["maxconcurrent"; _; _]) as [col|] eqn:Ecol;
    [|constructor].
  destruct (findColumnByPattern data ["requiredskills"; _; _]) as [scol|]; [|constructor].
  apply validator_column_header in Ecol as [Hne Hcol]. cbv zeta.
  apply Forall_forall. intros e He.
  apply list_elem_of_In, in_flat_map in He as ([r index] & Hin & He).
  apply indexed_from_In in Hin.
  destruct (truthy _ && truthy _); [|done].
  destruct (negb _ && _); [|done]. destruct (num_gtb _ _); [|done].
  destruct He as [<-|[]]. split; [done|]. split.
  - intros i [= <-]. lia.
  - by intros c [= <-].
Qed.

Lemma rules_sound (rules : list ValidationRule) data entityType cross :
  Forall (fun rule => Forall (sound_finding data) (validate rule data entityType cross)) rules ->
  Forall (sound_finding data)
    (flat_map (fun rule => validate rule data entityType cross) rules).
Proof.
  induction 1 as [|rule t Hr _ IH]; simpl; [constructor|]. by apply Forall_app.
Qed.

Lemma validationRules_sound data entityType cross rules :
  validationRules entityType = Ok rules ->
  Forall (fun rule => Forall (sound_finding data) (validate rule data entityType cross)) rules.
Proof.
  unfold validationRules.
  destruct (String.eqb entityType "client");
    [|destruct (String.eqb entityType "worker");
      [|destruct (String.eqb entityType "task");
        [|destruct (existsb _ _); [done|]]]];
    intros [= <-]; repeat constructor; cbn [validate entity_rule].
  all: first [ apply required_columns_sound | apply duplicate_ids_sound
             | apply priority_level_validation_sound | apply at_least_one_sound
             | apply comma_separated_format_sound | apply valid_string_sound
             | apply preferred_phases_format_sound | apply attributes_json_validation_sound
             | apply available_slots_format_sound ].
Qed.

Lemma crossEntityValidationRules_sound data entityType cross :
  Forall (fun rule => Forall (sound_finding data) (validate rule data entityType cross))
    crossEntityValidationRules.
Proof.
  repeat constructor; cbn [validate].
  - apply client_task_references_sound.
  - apply task_worker_skill_coverage_sound.
  - apply phase_slot_saturation_sound.
  - apply max_concurrency_feasibility_sound.
Qed.

Lemma validateData_errors_sound data entityType cross res :
  validateData data entityType cross = Ok res ->
  Forall (sound_finding data) (errors res).
Proof.
  unfold validateData.
  destruct (validationRules entityType) as [rules|] eqn:Er; [|done].
  cbn [mbind result_bind]. intros [= <-].
  rewrite (proj1 (summarize_spec _)).
  apply Forall_app. split.
  - apply rules_sound. by apply validationRules_sound.
  - apply (rules_sound crossEntityValidationRules), crossEntityValidationRules_sound.
Qed.

Lemma count_types (es : list Finding) :
  Forall (fun e => f_type e <> info) es ->
  length (List.filter (is_type error) es) + length (List.filter (is_type warning) es)
  = length es.
Proof.
  induction 1 as [|e t He _ IH]; [done|]. cbn [List.filter].
  assert (Hcase : (is_type error e = true /\ is_type warning e = false)
                  \/ (is_type error e = false /\ is_type warning e = true)).
  { unfold is_type. destruct (f_type e); [by left|by right|done]. }
  destruct Hcase as [[-> ->]|[-> ->]]; simpl; lia.
Qed.

Lemma summary_facts data entityType cross res :
  validateData data entityType cross = Ok res ->
  StronglySorted lt (affectedRows (summary res))
  /\ (forall i, In i (affectedRows (summary res))
        <-> exists e, In e (errors res) /\ f_rowIndex e = Some i)
  /\ (forall i, In i (affectedRows (summary res)) -> i < length data)
  /\ totalErrors (summary res) + totalWarnings (summary res) = length (errors res)
  /\ (forall m, message_count (errorTypes (summary res)) m
        = length (List.filter (fun e => String.eqb (f_message e) m) (errors res))).
Proof.
  intros Hres. pose proof (validateData_errors_sound _ _ _ _ Hres) as Hsound.
  unfold validateData in Hres.
  destruct (validationRules entityType) as [rules|]; [|done].
  cbn [mbind result_bind] in Hres. injection Hres as <-.
  set (es := _ ++ _) in *.
  destruct (summarize_spec es) as (Herr & Hsorted & Hin & Hcount).
  rewrite Herr in *.
  split; [done|]. split; [done|]. split; [|split; [|done]].
  - intros i Hi. apply Hin in Hi as (e & He & Hi).
    rewrite Forall_forall in Hsound. destruct (Hsound e) as (_ & Hrow & _);
      [by apply list_elem_of_In|]. by apply Hrow.
  - unfold summarize. destruct (fold_left _ es _). cbn [summary totalErrors totalWarnings].
    apply count_types. eapply Forall_impl; [exact Hsound|]. by intros e [? _].
Qed.

(** X19.  The summary of [validateData] agrees with its errors: the affected
    rows are in strictly increasing order, are exactly the row indices the
    errors carry and are indices of the data; the errors and the warnings
    add up to all the errors (no rule reports an [info]); and [errorTypes]
    counts, for every message, the errors with that message. *)
Theorem validateData_summary data entityType cross res :
  validateData data entityType cross = Ok res ->
  StronglySorted lt (affectedRows (summary res))
  /\ (forall i, In i (affectedRows (summary res))
        <-> exists e, In e (errors res) /\ f_rowIndex e = Some i)
  /\ (forall i, In i (affectedRows (summary res)) -> i < length data)
  /\ totalErrors (summary res) + totalWarnings (summary res) = length (errors res)
  /\ (forall m, message_count (errorTypes (summary res)) m
        = length (List.filter (fun e => String.eqb (f_message e) m) (errors res))).
Proof. apply summary_facts. Qed.

(** X20.  On data without rows [validateData] reports nothing, for every
    entity type (that is not a name every object inherits) and whatever the
    cross-entity data. *)
Theorem validateData_no_rows entityType cross :
  existsb (String.eqb entityType) inherited_names = false ->
  validateData [] entityType cross
  = Ok {| errors := [];
          summary := {| totalErrors := 0; totalWarnings := 0; errorTypes := [];
                        affectedRows := [] |} |}.
Proof.
  intros Hown. unfold validateData, validationRules. rewrite Hown.
  assert (Hcross : flat_map (fun rule => validate rule [] entityType cross)
                     crossEntityValidationRules = []).
  { cbn [flat_map crossEntityValidationRules validate].
    unfold client_task_references, task_worker_skill_coverage, phase_slot_saturation,
      max_concurrency_feasibility.
    destruct (cross ≫= tasks), (cross ≫= workers); cbn [findColumnByPattern];
      repeat match goal with |- context [if ?b then _ else _] => destruct b end; done. }
  destruct (String.eqb entityType "client");
    [|destruct (String.eqb entityType "worker");
      [|destruct (String.eqb entityType "task")]];
    cbn [mbind result_bind]; rewrite Hcross; reflexivity.
Qed.

(** X21.  For an entity type other than [client], [worker] and [task] (and
    not a name every object inherits) [validateData] reports nothing,
    whatever the data: no rule runs, the cross-entity rules included. *)
Theorem validateData_unknown_entity data entityType cross :
  entityType <> "client" -> entityType <> "worker" -> entityType <> "task" ->
  existsb (String.eqb entityType) inherited_names = false ->
  validateData data entityType cross
  = Ok {| errors := [];
          summary := {| totalErrors := 0; totalWarnings := 0; errorTypes := [];
                        affectedRows := [] |} |}.
Proof.
  intros Hc Hw Ht Hown. unfold validateData, validationRules.
  apply String.eqb_neq in Hc, Hw, Ht. rewrite Hc, Hw, Ht, Hown.
  cbn [mbind result_bind flat_map crossEntityValidationRules validate app].
  unfold client_task_references, task_worker_skill_coverage, phase_slot_saturation,
    max_concurrency_feasibility. rewrite Hc, Ht. cbn [negb].
  by destruct (cross ≫= tasks), (cross ≫= workers).
Qed.
End hosted.

(** *** [getRowErrors] and [getCellErrors] *)

Lemma getCellErrors_getRowErrors (es : list Finding) i c e :
  In e (getCellErrors es i c) -> In e (getRowErrors es i).
Proof.
  unfold getCellErrors, getRowErrors. rewrite !filter_In.
  intros [He Hb]. apply andb_prop in Hb as [Hi _]. done.
Qed.

Section hosted_lookup.
Context `{Host}.

(** X22.  [getRowErrors] finds errors of [validateData] for a row exactly
    when the row is among the affected rows of the summary. *)
Theorem getRowErrors_affectedRows data entityType cross res i :
  validateData data entityType cross = Ok res ->
  (getRowErrors (errors res) i <> [] <-> In i (affectedRows (summary res))).
Proof.
  intros Hres. destruct (summary_facts _ _ _ _ Hres) as (_ & Hin & _).
  rewrite Hin. unfold getRowErrors. split.
  - intros Hne. destruct (List.filter _ _) as [|e t] eqn:E; [done|].
    assert (He : In e (List.filter (fun e => bool_decide (f_rowIndex e = Some i)) (errors res)))
      by (rewrite E; by left).
    apply filter_In in He as [He Hi]. apply bool_decide_eq_true in Hi. by exists e.
  - intros (e & He & Hi) Hnil.
    assert (Hf : In e (List.filter (fun e => bool_decide (f_rowIndex e = Some i)) (errors res))).
    { apply filter_In. split; [done|]. by apply bool_decide_eq_true. }
    by rewrite Hnil in Hf.
Qed.

(** X23.  [getCellErrors] with the empty column name, as the page calls it
    for a whole row, returns nothing on the errors of [validateData]: every
    column an error names is a header that is not empty. *)
Theorem getCellErrors_empty_column data entityType cross res i :
  validateData data entityType cross = Ok res ->
  getCellErrors (errors res) i "" = [].
Proof.
  intros Hres. pose proof (validateData_errors_sound _ _ _ _ Hres) as Hsound.
  unfold getCellErrors. induction Hsound as [|e t (_ & _ & Hcol) _ IH]; [done|].
  cbn [List.filter]. rewrite IH.
  destruct (bool_decide (f_column e = Some "")) eqn:E; [|by rewrite andb_false_r].
  apply bool_decide_eq_true in E. by destruct (Hcol "" E) as [? _].
Qed.
End hosted_lookup.

Lemma validateData_summary_witness :
  exists res,
    validateData (H := example_host) three_same_ids "client" None = Ok res
    /\ StronglySorted lt (affectedRows (summary res))
    /\ totalErrors (summary res) + totalWarnings (summary res) = length (errors res).
Proof.
  eexists. split; [vm_compute; reflexivity|].
  pose proof (validateData_summary (H := example_host) three_same_ids "client" None _ eq_refl)
    as (Hsorted & _ & _ & Htotal & _).
  split; [exact Hsorted|exact Htotal].
Defined.

Lemma validateData_no_rows_witness :
  errors <$> validateData (H := example_host) [] "client" None = Ok [].
Proof.
  rewrite (validateData_no_rows (H := example_host) "client" None); reflexivity.
Defined.

Lemma validateData_unknown_entity_witness :
  errors <$> validateData (H := example_host) three_same_ids "invoice" None = Ok [].
Proof.
  rewrite (validateData_unknown_entity (H := example_host) three_same_ids "invoice" None);
    first [reflexivity|discriminate].
Defined.

Lemma getRowErrors_affectedRows_witness :
  exists res,
    validateData (H := example_host) three_same_ids "client" None = Ok res
    /\ (getRowErrors (errors res) 0 <> [] <-> In 0 (affectedRows (summary res))).
Proof.
  eexists. split; [vm_compute; reflexivity|].
  apply (getRowErrors_affectedRows (H := example_host) three_same_ids "client" None).
  reflexivity.
Defined.

Lemma getCellErrors_empty_column_witness :
  exists res,
    validateData (H := example_host) three_same_ids "client" None = Ok res
    /\ getCellErrors (errors res) 0 "" = [].
Proof.
  eexists. split; [vm_compute; reflexivity|].
  apply (getCellErrors_empty_column (H := example_host) three_same_ids "client" None).
  reflexivity.
Defined.
End ValidatorSpec.

(* --------------------------------------------------------------------- *)
(** ** The phases of [parsePhaseRange] *)

Module PhaseSpec.
Import Js JsFacts Validation.

Lemma drop_while_In {A} (p : A -> bool) (l : list A) x : In x (drop_while p l) -> In x l.
Proof.
  induction l as [|y t IH]; [done|]. simpl. destruct (p y); [|done].
  intros Hx. right. by apply IH.
Qed.

Lemma dec_digits_nonneg (l : list ascii) : forall acc z,
  (forall a, acc = Some a -> (0 <= a)%Z) -> dec_digits l acc = Some z -> (0 <= z)%Z.
Proof.
  induction l as [|c t IH]; intros acc z Hacc; simpl; [by apply Hacc|].
  destruct (is_digit c); [|by apply Hacc].
  apply IH. intros a [= <-].
  assert (0 <= default 0 acc)%Z by (destruct acc as [a|]; [by apply Hacc|done]).
  unfold digit_val. lia.
Qed.

Lemma hex_val_nonneg c d : hex_val c = Some d -> (0 <= d)%Z.
Proof.
  unfold hex_val, digit_val.
  destruct (is_digit c); [intros [= <-]; lia|].
  destruct (in_range "a" "f" c); [intros [= <-]; lia|].
  destruct (in_range "A" "F" c); [intros [= <-]; lia|done].
Qed.

Lemma hex_digits_nonneg (l : list ascii) : forall acc z,
  (forall a, acc = Some a -> (0 <= a)%Z) -> hex_digits l acc = Some z -> (0 <= z)%Z.
Proof.
  induction l as [|c t IH]; intros acc z Hacc; simpl; [by apply Hacc|].
  destruct (hex_val c) as [d|] eqn:Ed; [|by apply Hacc].
  apply IH. intros a [= <-]. apply hex_val_nonneg in Ed.
  assert (0 <= default 0 acc)%Z by (destruct acc as [a|]; [by apply Hacc|done]).
  lia.
Qed.

(** Without a minus sign [parseInt] gives NaN or an integer that is not
    negative. *)
Lemma parseInt_unsigned (s : string) :
  ~ In "-"%char (chars s) -> parseInt s = NaN \/ is_phase (parseInt s).
Proof.
  intros Hminus. unfold parseInt.
  assert (Hl : ~ In "-"%char (drop_while is_space (chars s)))
    by (intros Hin; by apply Hminus, (drop_while_In is_space)).
  set (l := drop_while is_space (chars s)) in *.
  assert (Hmag : forall l', match match l' with
                            | "0"%char :: ("x"%char | "X"%char) :: t => hex_digits t None
                            | _ => dec_digits l' None
                            end with
                      | Some z => of_Z z
                      | None => NaN
                      end = NaN
                      \/ is_phase match match l' with
                            | "0"%char :: ("x"%char | "X"%char) :: t => hex_digits t None
                            | _ => dec_digits l' None
                            end with
                      | Some z => of_Z z
                      | None => NaN
                      end).
  { intros l'. destruct (match l' with
                         | "0"%char :: ("x"%char | "X"%char) :: t => hex_digits t None
                         | _ => dec_digits l' None
                         end) as [z|] eqn:E; [|by left].
    right. exists z. split; [|done].
    assert (Hd : forall l0, dec_digits l0 None = Some z -> (0 <= z)%Z)
      by (intros l0; by apply dec_digits_nonneg).
    assert (Hh : forall l0, hex_digits l0 None = Some z -> (0 <= z)%Z)
      by (intros l0; by apply hex_digits_nonneg).
    repeat match type of E with
           | match ?x with _ => _ end = _ => destruct x
           | (if ?b then _ else _) = _ => destruct b
           end; eauto. }
  destruct l as [|c t]; [apply (Hmag [])|].
  destruct (Ascii.eqb_spec c "-") as [->|Hc]; [exfalso; apply Hl; by left|].
  destruct (Ascii.eqb_spec c "+") as [->|Hp]; [apply (Hmag t)|].
  replace (match c with
           | "-"%char => (true, t)
           | "+"%char => (false, t)
           | _ => (false, c :: t)
           end) with (false, c :: t); [apply (Hmag (c :: t))|].
  destruct c as [[] [] [] [] [] [] [] []]; try done.
Qed.

Lemma chars_str (l : list ascii) : chars (str l) = l.
Proof. apply list_ascii_of_string_of_list_ascii. Qed.

Lemma trim_In (s : string) x : In x (chars (trim s)) -> In x (chars s).
Proof.
  unfold trim, trim_chars. rewrite chars_str, <- in_rev.
  intros Hx. apply drop_while_In, in_rev in Hx. by apply drop_while_In in Hx.
Qed.

Lemma split_chars_no_separator (c : ascii) (l : list ascii) : forall cur,
  ~ In c cur -> Forall (fun piece => ~ In c piece) (split_chars c l cur).
Proof.
  induction l as [|x t IH]; intros cur Hcur; cbn [split_chars].
  - repeat constructor. by rewrite <- in_rev.
  - destruct (Ascii.eqb_spec x c) as [->|Hx].
    + constructor; [by rewrite <- in_rev|]. apply IH, in_nil.
    + apply IH. intros [Heq|Hin]; [congruence|done].
Qed.

Lemma split_no_separator (s : string) (c : ascii) :
  Forall (fun piece => ~ In c (chars piece)) (split s c).
Proof.
  unfold split. rewrite map_fmap. apply Forall_fmap.
  eapply Forall_impl; [apply (split_chars_no_separator c (chars s) []), in_nil|].
  intros piece Hp. simpl. by rewrite chars_str.
Qed.

Lemma is_prefix_single c l : is_prefix [c] l = true -> In c l.
Proof.
  destruct l as [|x t]; [done|]. simpl. rewrite andb_true_r.
  intros Heq. apply Ascii.eqb_eq in Heq. by left.
Qed.

Lemma includes_char (s : string) (c : ascii) :
  includes s (String c EmptyString) = false -> ~ In c (chars s).
Proof.
  unfold includes. change (chars (String c EmptyString)) with [c].
  induction (chars s) as [|x t IH]; [by intros _ []|].
  cbn [index_of_chars]. destruct (is_prefix [c] (x :: t)) eqn:Ep; [done|].
  destruct (index_of_chars [c] t) as [i|] eqn:Ei; [done|]. intros _ [->|Hin].
  - simpl in Ep. by rewrite Ascii.eqb_refl in Ep.
  - by apply IH.
Qed.

Lemma add_of_Z (a : Z) (k : nat) : num_add (of_Z a) (of_nat k) = of_Z (a + Z.of_nat k).
Proof.
  unfold of_Z, of_nat, num_add, fin. f_equal.
  transitivity (Qred ((a + Z.of_nat k) # 1)).
  - apply Qred_complete. unfold Qeq, Qplus. simpl. lia.
  - apply Qred_identity. simpl. apply Z.gcd_1_r.
Qed.

Lemma for_range_phases (a b : number) : is_phase a -> Forall is_phase (for_range a b).
Proof.
  intros (z & Hz & ->). destruct b as [y| | |]; try constructor.
  change (Forall is_phase
            (map (fun k => num_add (of_Z z) (of_nat k))
               (seq 0 (Z.to_nat (Qfloor (y - (z # 1)) + 1))))).
  rewrite map_fmap. apply Forall_fmap, Forall_forall. intros k _. unfold compose.
  rewrite add_of_Z. exists (z + Z.of_nat k)%Z. split; [lia|done].
Qed.

(** X24.  The phases that the validator's [parsePhaseRange] reads from a cell
    that holds no text of more than eight characters are integers that are
    not negative: no entry is NaN, a fraction or a negative number, whatever
    the characters of the cell. *)
Theorem parsePhaseRange_phases (value : scalar) :
  short_cell value -> Forall is_phase (parsePhaseRange value).
Proof.
  intros _. unfold parsePhaseRange. destruct (negb (truthy value)); [constructor|].
  destruct value as [| | | |text]; try constructor.
  apply Forall_forall. intros p Hp.
  apply list_elem_of_In, in_flat_map in Hp as (part & _ & Hp). cbv zeta in Hp.
  destruct (includes (trim part) "-") eqn:Einc.
  - set (pieces := split (trim part) "-") in *.
    assert (Hbound : forall k, nth k (map (fun s => parseInt (trim s)) pieces) NaN = NaN
                               \/ is_phase (nth k (map (fun s => parseInt (trim s)) pieces) NaN)).
    { intros k. destruct (nth_in_or_default k (map (fun s => parseInt (trim s)) pieces) NaN)
        as [Hin|Hd]; [|by left].
      apply in_map_iff in Hin as (piece & <- & Hpiece).
      apply parseInt_unsigned. intros Hminus. apply trim_In in Hminus.
      pose proof (split_no_separator (trim part) "-") as Hsplit.
      rewrite Forall_forall in Hsplit.
      apply (Hsplit piece); [by apply list_elem_of_In|done]. }
    destruct (Hbound 0) as [Hs|Hs].
    + rewrite Hs in Hp. done.
    + destruct (_ && _ && _); [|done].
      pose proof (for_range_phases _ (nth 1 (map (fun s => parseInt (trim s)) pieces) NaN) Hs)
        as Hall.
      rewrite Forall_forall in Hall. by apply Hall, list_elem_of_In.
  - apply includes_char in Einc.
    destruct (parseInt_unsigned (trim part) Einc) as [Hn|Hn].
    + rewrite Hn in Hp. done.
    + destruct (negb _); [|done]. destruct Hp as [<-|[]]. done.
Qed.

Lemma parsePhaseRange_phases_witness : Forall is_phase (parsePhaseRange (SStr "1-3,x,5")).
Proof.
  apply (parsePhaseRange_phases (SStr "1-3,x,5")).
  intros text [= <-]. simpl. lia.
Defined.
End PhaseSpec.

(* --------------------------------------------------------------------- *)
(** ** The rows a duplicate-identifier rule reports *)

Module DuplicateSpec.
Import Js JsFacts Validation ValidationSpec ValidatorSpec.

Lemma indexed_from_fst {A} (xs : list A) : forall i x j,
  In (x, j) (indexed_from xs i) -> In x xs.
Proof.
  induction xs as [|y t IH]; intros i x j; cbn [indexed_from]; [done|].
  intros [[= -> _]|Hin]; [by left|]. right. by eapply IH.
Qed.

Lemma indexed_from_lookup {A} (xs : list A) : forall i x j,
  In (x, j) (indexed_from xs i) -> xs !! (j - i) = Some x.
Proof.
  induction xs as [|y t IH]; intros i x j; cbn [indexed_from]; [done|].
  intros [[= -> ->]|Hin]; [by rewrite Nat.sub_diag|].
  pose proof (indexed_from_In _ _ _ _ Hin) as Hj. apply IH in Hin.
  by replace (j - i) with (S (j - S i)) by lia.
Qed.

Lemma errors_at_zero i (es : list ValidationError) :
  (forall e, In e es -> rowIndex e <> Some i) -> errors_at i es = 0.
Proof.
  intros Hes. unfold errors_at. induction es as [|e t IH]; [done|]. cbn [List.filter].
  rewrite bool_decide_eq_false_2 by (apply Hes; by left).
  apply IH. intros e' He'. apply Hes. by right.
Qed.

Section duplicates.
Context `{Host}.

(** X25.  A duplicate-identifier rule reports a row exactly when the id of
    the row is present (neither [undefined] nor the empty string) and is the
    id of another row as well. *)
Theorem duplicate_ids_reports_repeated patterns label data entityType idColumn i r :
  findColumnByPattern data patterns = Some idColumn ->
  data !! i = Some r ->
  (0 < errors_at i (duplicate_ids patterns label data entityType)
   <-> present (get r idColumn) = true
       /\ 1 < occurrences (get r idColumn) (map (fun r => get r idColumn) data)).
Proof.
  intros Hcol Hrow. set (v := get r idColumn).
  assert (Hreported : forall e, In e (duplicate_ids patterns label data entityType) ->
            rowIndex e = Some i ->
            exists d, strict_eq v d = true /\ present d = true).
  { intros e He Hi. unfold duplicate_ids in He. rewrite Hcol in He. cbv zeta in He.
    apply in_flat_map in He as (dup & Hdup & He).
    apply in_map_iff in He as ([r' j] & <- & Hin). apply filter_In in Hin as [Hin Heq].
    simpl in Hi. injection Hi as ->.
    apply indexed_from_lookup in Hin. rewrite Nat.sub_0_r, Hrow in Hin. injection Hin as <-.
    exists dup. split; [done|].
    apply in_map_iff in Hdup as ([d k] & <- & Hd). apply filter_In in Hd as [Hd _].
    by apply indexed_from_fst, filter_In in Hd as [_ Hvalid]. }
  destruct (strict_eq v SUndefined) eqn:Hu;
    [|destruct (strict_eq v (SStr "")) eqn:He;
      [|destruct (strict_eq v v) eqn:Hrefl]].
  - (* the id of the row is undefined *)
    rewrite errors_at_zero.
    + split; [lia|]. unfold present. fold v. rewrite Hu. by intros [? _].
    + intros e He Hi. destruct (Hreported e He Hi) as (d & Hd & Hvalid).
      unfold present in Hvalid.
      rewrite (strict_eq_trans _ _ _ (eq_trans (strict_eq_sym d v) Hd) Hu) in Hvalid. done.
  - (* the id of the row is the empty string *)
    rewrite errors_at_zero.
    + split; [lia|]. unfold present. fold v. rewrite He, andb_false_r. by intros [? _].
    + intros e He' Hi. destruct (Hreported e He' Hi) as (d & Hd & Hvalid).
      unfold present in Hvalid.
      rewrite (strict_eq_trans _ _ _ (eq_trans (strict_eq_sym d v) Hd) He) in Hvalid.
      by rewrite andb_false_r in Hvalid.
  - rewrite (duplicate_ids_errors_per_row _ _ _ _ _ _ _ Hcol Hrow Hu He Hrefl).
    fold v. unfold present. rewrite Hu, He. simpl. split; [split; [done|lia]|intros [_ ?]; lia].
  - (* the id of the row is not equal to itself *)
    rewrite errors_at_zero.
    + split; [lia|]. intros [_ Hocc]. unfold occurrences in Hocc. fold v in Hocc.
      assert (Hnone : List.filter (fun x => strict_eq x v) (map (fun r => get r idColumn) data)
                      = []); [|rewrite Hnone in Hocc; simpl in Hocc; lia].
      clear Hocc. induction (map _ data) as [|x t IH]; [done|]. cbn [List.filter].
      destruct (strict_eq x v) eqn:Ex; [|exact IH].
      rewrite strict_eq_sym in Ex. by rewrite (strict_eq_refl_l _ _ Ex) in Hrefl.
    + intros e He' Hi. destruct (Hreported e He' Hi) as (d & Hd & _).
      by rewrite (strict_eq_refl_l _ _ Hd) in Hrefl.
Qed.
End duplicates.

Lemma duplicate_ids_reports_repeated_witness :
  0 < errors_at 0 (duplicate_client_ids (H := example_host) three_same_ids "client")
  <-> present (SStr "C1") = true
      /\ 1 < occurrences (SStr "C1") (map (fun r => get r "clientid") three_same_ids).
Proof.
  apply (duplicate_ids_reports_repeated (H := example_host) _ _ three_same_ids "client"
           "clientid" 0 (client "C1" "Ann")); reflexivity.
Defined.
End DuplicateSpec.

(* --------------------------------------------------------------------- *)
(** ** The page: the entity of an upload and its headers *)

Module PageSpec.
Import Js JsFacts Page.

(** X27.  [detectEntity] returns an entity exactly when the score of that
    entity is positive and strictly greater than the score of each other
    entity of [schemas]; on a tie for the first place, or when no field name
    occurs in a header, it returns nothing.  (The order in which the sort
    leaves equal scores plays no part.) *)
Theorem detectEntity_spec (headers : list string) (entity : string) :
  detectEntity headers = Some entity
  <-> In entity entities
      /\ 0 < entity_score headers entity
      /\ forall other, In other entities -> other <> entity ->
           entity_score headers other < entity_score headers entity.
Proof.
  assert (Hc : entity_score headers "client" = score headers client_schema) by done.
  assert (Hw : entity_score headers "worker" = score headers worker_schema) by done.
  assert (Ht : entity_score headers "task" = score headers task_schema) by done.
  unfold detectEntity, schemas, sort. cbn [map fold_left insert_sorted snd fst].
  rewrite <- Hc, <- Hw, <- Ht.
  set (a := entity_score headers "client"). set (b := entity_score headers "worker").
  set (c := entity_score headers "task").
  assert (Hall : (forall other, In other entities -> other <> entity ->
                    entity_score headers other < entity_score headers entity)
                 <-> (entity <> "client" -> a < entity_score headers entity)
                     /\ (entity <> "worker" -> b < entity_score headers entity)
                     /\ (entity <> "task" -> c < entity_score headers entity)).
  { split.
    - intros Hall. repeat split; intros Hne; apply Hall; try congruence; simpl; tauto.
    - intros (H1 & H2 & H3) other [<-|[<-|[<-|[]]]] Hne; [apply H1|apply H2|apply H3];
        intros Heq; apply Hne; by rewrite Heq. }
  rewrite Hall. clear Hall.
  assert (Hin : In entity entities
                <-> entity = "client" \/ entity = "worker" \/ entity = "task").
  { simpl. intuition congruence. }
  rewrite Hin. clear Hin.
  repeat match goal with
         | |- context [(?x <=? 0)%Z] => destruct (Z.leb_spec x 0)
         end; cbn [insert_sorted snd fst];
  repeat match goal with
         | |- context [(?x <=? 0)%Z] => destruct (Z.leb_spec x 0)
         end; cbn [snd fst];
  repeat match goal with
         | |- context [(?x =? ?y)%nat] => destruct (Nat.eqb_spec x y)
         end; cbn [orb]; try lia.
  all: split;
    [ first [ discriminate
            | intros [= <-]; fold a b c; (split; [tauto|]); (split; [lia|]);
              repeat split; intros Hx; first [congruence|lia] ]
    | intros (He & Gpos & Ga & Gb & Gc); destruct He as [He|[He|He]]; subst entity;
      fold a b c in Gpos, Ga, Gb, Gc;
      try (specialize (Ga ltac:(discriminate))); try (specialize (Gb ltac:(discriminate)));
      try (specialize (Gc ltac:(discriminate))); first [done|lia] ].
Qed.


Section hosted.
Context `{Host}.

End hosted.

(** *** [mapHeaders] *)

Lemma canonical_fixed (entitySchema : Page.schema) (header : string) :
  In entitySchema [client_schema; worker_schema; task_schema] ->
  canonical_of entitySchema (canonical_of entitySchema header)
  = canonical_of entitySchema header.
Proof.
  intros Hs. unfold canonical_of at 2 3.
  destruct (List.find _ entitySchema) as [[canonical variations]|] eqn:Efind.
  - apply find_some in Efind as [Hin _].
    destruct Hs as [<-|[<-|[<-|[]]]];
      repeat (destruct Hin as [[= <- <-]|Hin]; [vm_compute; reflexivity|]);
      destruct Hin.
  - unfold canonical_of. by rewrite Efind.
Qed.

Lemma assign_In (headerMap : list (string * string)) k v h m :
  In (h, m) (assign headerMap k v) -> (h = k /\ m = v) \/ In (h, m) headerMap.
Proof.
  induction headerMap as [|[h' v'] t IH]; cbn [assign].
  - intros [[= <- <-]|[]]. by left.
  - destruct (String.eqb_spec h' k) as [->|Hne].
    + intros [[= <- <-]|Hin]; [by left|]. right. by right.
    + intros [[= <- <-]|Hin]; [right; by left|].
      destruct (IH Hin) as [?|?]; [by left|]. right. by right.
Qed.

Lemma assign_key (headerMap : list (string * string)) k v :
  In (k, v) (assign headerMap k v).
Proof.
  induction headerMap as [|[h' v'] t IH]; cbn [assign]; [by left|].
  destruct (String.eqb_spec h' k) as [->|Hne]; [by left|by right].
Qed.

Lemma assign_keeps (headerMap : list (string * string)) k v h :
  In h (map fst headerMap) -> In h (map fst (assign headerMap k v)).
Proof.
  induction headerMap as [|[h' v'] t IH]; cbn [assign]; [done|].
  destruct (String.eqb_spec h' k) as [->|Hne]; simpl; [done|].
  intros [->|Hin]; [by left|]. right. by apply IH.
Qed.

(** The greedy star of [\s], with [Some] for what follows: it takes the
    blanks at the head of the input. *)
Lemma star_ws (st : rstate) :
  rx false (RStar true ws) st Some
  = Some (RState (pos st + length (take_while is_space (rest st)))
            (drop_while is_space (rest st)) (caps st)).
Proof.
  assert (Hgen : forall n st, length (rest st) < n ->
    (fix loop (n : nat) (st : rstate) {struct n} : option rstate :=
       match n with
       | O => Some st
       | S n' =>
           let more :=
             rx false ws st
               (fun st1 => if (pos st <? pos st1)%nat then loop n' st1 else None) in
           if true then or_else more (Some st) else or_else (Some st) more
       end) n st
    = Some (RState (pos st + length (take_while is_space (rest st)))
              (drop_while is_space (rest st)) (caps st))).
  { clear st. induction n as [|n IH]; intros [p l cs] Hlen; [lia|].
    cbn [pos rest caps] in *. cbn [rx ws step1 rest pos caps].
    destruct l as [|c t]; cbn [take_while drop_while length].
    - by rewrite Nat.add_0_r.
    - unfold step1. cbn [rest pos caps]. unfold set_matches.
      cbn [existsb citem_matches andb orb xorb]. rewrite !orb_false_r.
      destruct (is_space c) eqn:Ec; cbn [length or_else]; [|by rewrite Nat.add_0_r].
      assert (Hlt : (p <? S p)%nat = true) by (apply Nat.ltb_lt; lia).
      rewrite Hlt.
      match goal with
      | |- or_else ?e _ = _ =>
          assert (Hm : e = Some (RState (S p + length (take_while is_space t))
                                   (drop_while is_space t) cs))
            by (apply (IH (RState (S p) t cs)); cbn in *; lia)
      end.
      rewrite Hm. cbn [or_else]. by rewrite Nat.add_succ_r. }
  exact (Hgen (S (length (rest st))) st (Nat.lt_succ_diag_r _)).
Qed.

Lemma match_at_blanks (l : list ascii) (p : nat) :
  match_at false (rplus ws) l p
  = match skipn p l with
    | c :: t =>
        if is_space c
        then Some (RMatch p (S p + length (take_while is_space t)) [])
        else None
    | [] => None
    end.
Proof.
  unfold match_at, rplus.
  change (rx false (RSeq ws (RStar true ws)) (RState p (skipn p l) []) Some)
    with (step1 (RState p (skipn p l) [])
            (fun c => xorb false (set_matches false [ISpace] c))
            (fun st1 => rx false (RStar true ws) st1 Some)).
  unfold step1. cbn [rest pos caps].
  destruct (skipn p l) as [|c t]; [done|].
  unfold set_matches. cbn [existsb citem_matches andb orb xorb]. rewrite !orb_false_r.
  destruct (is_space c); [|done].
  by rewrite (star_ws (RState (S p) t [])).
Qed.

Lemma skipn_cons_inv {A} (l : list A) p c t : skipn p l = c :: t -> skipn (S p) l = t.
Proof.
  revert l. induction p as [|p IH]; intros [|x l] H; simpl in *; try discriminate.
  - by injection H as _ ->.
  - by apply IH.
Qed.

(** The first blanks at [p] or later, for [n] the number of characters from
    [p] on. *)
Lemma search_blanks (l : list ascii) : forall n p,
  length (skipn p l) = n ->
  search_from false (rplus ws) l p n
  = match drop_while nonblank (skipn p l) with
    | [] => None
    | c :: t =>
        let start := p + length (take_while nonblank (skipn p l)) in
        Some (RMatch start (S start + length (take_while is_space t)) [])
    end.
Proof.
  induction n as [|n IH]; intros p Hn; cbn [search_from]; rewrite match_at_blanks.
  - apply nil_length_inv in Hn. by rewrite Hn.
  - destruct (skipn p l) as [|c t] eqn:E; [discriminate|].
    cbn [drop_while take_while]. change (nonblank c) with (negb (is_space c)).
    destruct (is_space c) eqn:Ec; cbn [negb length].
    + by rewrite Nat.add_0_r.
    + rewrite IH by (rewrite (skipn_cons_inv _ _ _ _ E); by injection Hn).
      rewrite (skipn_cons_inv _ _ _ _ E).
      destruct (drop_while nonblank t); [done|]. cbn zeta. by rewrite Nat.add_succ_r.
Qed.

Lemma filter_while {A} (f : A -> bool) (l : list A) :
  List.filter f l = take_while f l ++ List.filter f (drop_while f l).
Proof.
  induction l as [|x l IH]; [done|]. cbn [take_while drop_while List.filter].
  destruct (f x) eqn:E; [|by cbn [List.filter app]; rewrite E].
  cbn [app]. by rewrite IH.
Qed.

Lemma filter_drop_blanks (l : list ascii) :
  List.filter nonblank l = List.filter nonblank (drop_while is_space l).
Proof.
  induction l as [|x l IH]; [done|]. cbn [drop_while List.filter].
  change (nonblank x) with (negb (is_space x)).
  destruct (is_space x) eqn:E; cbn [negb]; [done|].
  cbn [List.filter]. change (nonblank x) with (negb (is_space x)). by rewrite E.
Qed.

Lemma while_split {A} (f : A -> bool) (l : list A) : take_while f l ++ drop_while f l = l.
Proof.
  induction l as [|x l IH]; [done|]. cbn [take_while drop_while].
  destruct (f x); [|done]. cbn [app]. by rewrite IH.
Qed.

Lemma skipn_take_while {A} (f : A -> bool) (l : list A) :
  skipn (length (take_while f l)) l = drop_while f l.
Proof.
  induction l as [|x l IH]; [done|]. cbn [take_while drop_while].
  destruct (f x); [|done]. cbn [length skipn]. exact IH.
Qed.

Lemma firstn_take_while {A} (f : A -> bool) (l : list A) :
  firstn (length (take_while f l)) l = take_while f l.
Proof.
  induction l as [|x l IH]; [done|]. cbn [take_while].
  destruct (f x); [|done]. cbn [length firstn]. by rewrite IH.
Qed.

Lemma skipn_add {A} (l : list A) a b : skipn (a + b) l = skipn b (skipn a l).
Proof.
  revert l. induction a as [|a IH]; intros l; [done|].
  destruct l as [|x l]; cbn [Nat.add skipn]; [by rewrite skipn_nil|apply IH].
Qed.

(** Replacing the runs of blanks by nothing leaves the other characters. *)
Lemma replace_blanks (l : list ascii) : forall fuel p,
  length (skipn p l) < fuel ->
  replace_matches l (match_all_from false (rplus ws) l p fuel) p []
  = List.filter nonblank (skipn p l).
Proof.
  induction fuel as [|fuel IH]; intros p Hfuel; [lia|].
  cbn [match_all_from]. unfold exec_from.
  destruct (Nat.leb_spec p (length l)) as [Hp|Hp].
  - rewrite search_blanks by (rewrite length_skipn; lia).
    rewrite (filter_while nonblank (skipn p l)).
    pose proof (skipn_take_while nonblank (skipn p l)) as Hskip.
    pose proof (firstn_take_while nonblank (skipn p l)) as Hfirst.
    pose proof (while_split nonblank (skipn p l)) as Hsplit.
    set (pre := take_while nonblank (skipn p l)) in *.
    destruct (drop_while nonblank (skipn p l)) as [|c t] eqn:E.
    + cbn [replace_matches List.filter]. rewrite app_nil_r in *. by rewrite Hsplit.
    + cbn zeta. cbn [m_end m_start].
      assert (Hne : (S (p + length pre) + length (take_while is_space t) =? p + length pre)%nat
                    = false) by (apply Nat.eqb_neq; lia).
      rewrite Hne. cbn [replace_matches m_start m_end app].
      replace (p + length pre - p) with (length pre) by lia. rewrite Hfirst. f_equal.
      assert (Hc : is_space c = true).
      { destruct (is_space c) eqn:Ec; [done|]. exfalso. clear -E Ec. revert E.
        generalize (skipn p l). intros s.
        induction s as [|x s IHs]; cbn [drop_while]; [done|].
        destruct (nonblank x) eqn:Ex; [exact IHs|].
        intros [= -> ->]. unfold nonblank in Ex. by rewrite Ec in Ex. }
      assert (Hend : skipn (S (p + length pre) + length (take_while is_space t)) l
                     = drop_while is_space t).
      { replace (S (p + length pre) + length (take_while is_space t))
          with (p + (length pre + (1 + length (take_while is_space t)))) by lia.
        rewrite skipn_add, skipn_add, Hskip. cbn [Nat.add skipn].
        apply skipn_take_while. }
      rewrite IH.
      * rewrite Hend. cbn [List.filter]. change (nonblank c) with (negb (is_space c)).
        rewrite Hc. cbn [negb]. symmetry. apply filter_drop_blanks.
      * rewrite Hend. 
        assert (length (skipn p l) = length pre + S (length t))
          by (rewrite <- Hsplit, length_app; done).
        pose proof (while_split is_space t) as Ht.
        assert (length t = length (take_while is_space t) + length (drop_while is_space t))
          by (rewrite <- Ht at 1; apply length_app).
        lia.
  - cbn [replace_matches]. by rewrite skipn_all2 by lia.
Qed.

Lemma str_length (l : list ascii) : String.length (str l) = length l.
Proof. induction l as [|c l IH]; [done|]. cbn. by rewrite <- IH. Qed.

Lemma normalise_squeeze (s : string) : normalise s = squeeze s.
Proof.
  unfold normalise, squeeze, replace_all, matchAll, toLowerCase.
  rewrite !PhaseSpec.chars_str, str_length. f_equal.
  change (chars "") with (@nil ascii).
  rewrite replace_blanks; [done|]. rewrite skipn_O. apply Nat.lt_succ_diag_r.
Qed.


Lemma find_first {A} (f : A -> bool) (l : list A) :
  match List.find f l with
  | Some x =>
      exists before after,
        l = before ++ x :: after /\ Forall (fun y => f y = false) before /\ f x = true
  | None => Forall (fun y => f y = false) l
  end.
Proof.
  induction l as [|y t IH]; cbn [List.find]; [constructor|].
  destruct (f y) eqn:E.
  - exists [], t. by repeat split.
  - destruct (List.find f t) as [x|].
    + destruct IH as (before & after & -> & Hb & Hx).
      exists (y :: before), after. repeat split; [|done]. by constructor.
    + by constructor.
Qed.

Lemma names_variation (field : string * list string) (header : string) :
  existsb (fun variant => String.eqb (normalise variant) (normalise header)) (snd field) = true
  <-> names field header.
Proof.
  unfold names. rewrite existsb_exists. split; intros (variant & Hin & Heq); exists variant;
    (split; [done|]); rewrite ?String.eqb_eq, !normalise_squeeze in *; done.
Qed.

Lemma canonical_of_named (entitySchema : schema) (header : string) :
  named entitySchema header (canonical_of entitySchema header).
Proof.
  unfold canonical_of.
  set (f := fun '(canonical, variations) =>
              existsb (fun variant => String.eqb (normalise variant) (normalise header))
                (variations : list string)).
  assert (Hf : forall field : string * list string,
            f field = existsb (fun variant => String.eqb (normalise variant) (normalise header))
                        (snd field)) by (by intros [c v]).
  assert (Hno : forall l : schema,
            Forall (fun y => f y = false) l -> Forall (fun y => ~ names y header) l).
  { intros l Hl. eapply Forall_impl; [exact Hl|]. intros y Hy Hn.
    apply names_variation in Hn.
    rewrite <- Hf in Hn. congruence. }
  pose proof (find_first f entitySchema) as Hfind.
  destruct (List.find f entitySchema) as [[canonical variations]|].
  - destruct Hfind as (before & after & -> & Hb & Hx). left.
    exists before, (canonical, variations), after.
    split; [done|]. split; [by apply Hno|]. split; [|done].
    apply names_variation. by rewrite <- Hf.
  - right. split; [by apply Hno|done].
Qed.

Lemma named_unique (entitySchema : schema) (header a b : string) :
  named entitySchema header a -> named entitySchema header b -> a = b.
Proof.
  revert a b. induction entitySchema as [|field t IH]; intros a b Ha Hb.
  - destruct Ha as [(before & ? & ? & E & _)|[_ ->]]; [by destruct before|].
    destruct Hb as [(before & ? & ? & E & _)|[_ ->]]; [by destruct before|done].
  - assert (Hhead : forall c, named (field :: t) header c ->
              (names field header /\ c = fst field)
              \/ (~ names field header /\ named t header c)).
    { intros c [(before & f & after & E & Hbefore & Hf & ->)|[Hall ->]].
      - destruct before as [|x before]; injection E as -> E.
        + by left.
        + apply Forall_cons in Hbefore as [Hx Hbefore]. right. split; [done|].
          left. by exists before, f, after.
      - apply Forall_cons in Hall as [Hx Hall]. right. split; [done|]. by right. }
    destruct (Hhead a Ha) as [[Hn ->]|[Hn Ha']], (Hhead b Hb) as [[Hn' ->]|[Hn' Hb']];
      try done. by apply IH.
Qed.

(** X29.  For an entity of [schemas] and headers of ASCII characters,
    [mapHeaders] maps every header of the upload (other than [__proto__])
    and only those.  The name it gives a header is the canonical name of the
    first field of the schema that has a variation equal to the header once
    both are put in lower case and their blanks removed, and the header
    itself when the schema has no such field; no other name fits this
    description.  That name is a fixed point: mapped again, it stays as it
    is. *)
Theorem mapHeaders_canonical (uploadHeader : list string) (entity : string) headerMap :
  In entity entities ->
  Forall ascii_text uploadHeader ->
  mapHeaders uploadHeader entity = Ok headerMap ->
  exists entitySchema,
    In (entity, entitySchema) schemas
    /\ (forall h m, In (h, m) headerMap ->
          In h uploadHeader
          /\ m = canonical_of entitySchema h
          /\ named entitySchema h m
          /\ (forall m', named entitySchema h m' -> m' = m)
          /\ canonical_of entitySchema m = m
          /\ named entitySchema m m)
    /\ (forall h, In h uploadHeader -> h <> "__proto__" -> In h (map fst headerMap)).
Proof.
  intros He _. unfold mapHeaders.
  assert (Hs : exists entitySchema,
            entries_of_schema entity = Some entitySchema
            /\ In (entity, entitySchema) schemas
            /\ In entitySchema [client_schema; worker_schema; task_schema]).
  { destruct He as [<-|[<-|[<-|[]]]]; eexists; (split; [reflexivity|]); simpl; tauto. }
  destruct Hs as (entitySchema & -> & Hin & Hthree).
  assert (Hfold : forall headers (start : list (string * string)),
            let hm := fold_left
                        (fun headerMap header =>
                           assign_own headerMap header (canonical_of entitySchema header))
                        headers start in
            (forall h m, In (h, m) hm ->
               In (h, m) start \/ (In h headers /\ m = canonical_of entitySchema h))
            /\ (forall h, (In h (map fst start) \/ (In h headers /\ h <> "__proto__")) ->
                  In h (map fst hm))).
  { induction headers as [|x t IH]; intros start; cbn [fold_left].
    - split; [by left|]. intros h [?|[[] _]]. done.
    - destruct (IH (assign_own start x (canonical_of entitySchema x))) as [IH1 IH2].
      split.
      + intros h m Hhm. destruct (IH1 h m Hhm) as [Hst|[Ht ->]].
        * unfold assign_own in Hst. destruct (String.eqb x "__proto__"); [by left|].
          apply assign_In in Hst as [[-> ->]|?]; [|by left]. right. split; [by left|done].
        * right. split; [by right|done].
      + intros h Hh. apply IH2.
        destruct Hh as [Hst|[[->|Ht] Hne]].
        * left. unfold assign_own. destruct (String.eqb x "__proto__"); [done|].
          by apply assign_keeps.
        * left. unfold assign_own. apply String.eqb_neq in Hne. rewrite Hne.
          apply (in_map fst _ (h, canonical_of entitySchema h)), assign_key.
        * by right. }
  destruct uploadHeader as [|h0 t].
  - intros [= <-]. exists entitySchema. split; [done|]. split; intros h; by intros.
  - intros [= <-]. exists entitySchema. split; [done|].
    destruct (Hfold (h0 :: t) []) as [H1 H2]. split.
    + intros h m Hhm. destruct (H1 h m Hhm) as [[]|[Hh ->]].
      pose proof (canonical_fixed entitySchema h Hthree) as Hfixed.
      split; [done|]. split; [done|]. split; [apply canonical_of_named|].
      split; [intros m' Hm'; exact (named_unique _ _ _ _ Hm' (canonical_of_named _ _))|].
      split; [done|]. rewrite <- Hfixed at 2. apply canonical_of_named.
    + intros h Hh Hne. apply H2. by right.
Qed.

(** *** [remapDataRows] *)

Lemma get_assign_cell (newRow : row * bool) k v m :
  m <> "__proto__" ->
  get (fst (assign_cell newRow k v)) m
  = if String.eqb k m then v else get (fst newRow) m.
Proof.
  intros Hm. destruct newRow as [cells inherits]. unfold assign_cell.
  destruct (String.eqb_spec k m) as [->|Hkm].
  - apply String.eqb_neq in Hm. rewrite Hm. apply AiEngineSpec.get_set_eq.
  - destruct (String.eqb k "__proto__" && inherits); [done|].
    apply AiEngineSpec.get_set_ne. congruence.
Qed.

(** X30.  In a row of [remapDataRows], the property of a name holds the value
    of the last property of the uploaded row that the header map sends to
    that name, and is missing when there is none: when two columns of the
    upload are mapped to one name, the value of the earlier column is
    lost. *)
Theorem remapDataRows_last_wins (inherited_text : string -> string)
  (headerMap : list (string * string)) (r : row) (m : string) :
  m <> "__proto__" ->
  get (remap_row inherited_text headerMap r) m
  = match List.find (fun '(key, _) => String.eqb (mapped_key inherited_text headerMap key) m)
            (rev r) with
    | Some (_, value) => value
    | None => SUndefined
    end.
Proof.
  intros Hm. unfold remap_row.
  induction r as [|[key value] t IH] using rev_ind; [done|].
  rewrite fold_left_app, rev_app_distr. cbn [fold_left rev app List.find].
  rewrite get_assign_cell by done.
  by destruct (String.eqb _ m).
Qed.

Lemma detectEntity_spec_witness :
  detectEntity canonical_headers = Some "client"
  <-> In "client" entities
      /\ 0 < entity_score canonical_headers "client"
      /\ forall other, In other entities -> other <> "client" ->
           entity_score canonical_headers other < entity_score canonical_headers "client".
Proof. exact (detectEntity_spec canonical_headers "client"). Defined.


Lemma mapHeaders_canonical_witness :
  exists entitySchema,
    In ("client", entitySchema) schemas
    /\ (forall h m, In (h, m) client_header_map ->
          In h client_headers
          /\ m = canonical_of entitySchema h
          /\ named entitySchema h m
          /\ (forall m', named entitySchema h m' -> m' = m)
          /\ canonical_of entitySchema m = m
          /\ named entitySchema m m)
    /\ (forall h, In h client_headers -> h <> "__proto__" ->
          In h (map fst client_header_map)).
Proof.
  apply (mapHeaders_canonical client_headers "client" client_header_map).
  - by left.
  - unfold ascii_text. repeat constructor; cbv; lia.
  - vm_compute; reflexivity.
Defined.

Lemma remapDataRows_last_wins_witness :
  get (remap_row no_text client_header_map client_upload) "clientid" = SStr "7".
Proof.
  rewrite (remapDataRows_last_wins no_text client_header_map client_upload "clientid");
    [reflexivity|discriminate].
Defined.
End PageSpec.
